(** * Duel escrow and settlement service: a shallow embedding

    The development follows the TypeScript sources of the sidecar:

    - [config.ts]          token tables ([TOKEN_DECIMALS], [TOKEN_MINIMUMS]);
    - [stealth.ts]         stealth ids and the session reverse map;
    - [memory-store.ts]    the in-memory store with per-entry expiry, the
                           dust counters and the two recovery sets;
    - [duel-escrow.ts]     the escrow engine: create, lock, settle, refund,
                           emergency refund and dust sweep.

    JavaScript [number]s are IEEE 754 binary64 values; they are modelled by
    the [spec_float] type of the standard library with precision 53 and
    maximal exponent 1024, so every arithmetic step of the payout
    computation rounds exactly as the engine does.  [bigint]s and
    millisecond timestamps are integers of [Z].

    The singletons of the service (the store, the stealth session map) are
    the fields of one [World], threaded through every operation.  The
    transfer backend is an oracle indexed by the number of transfer calls
    made so far; it gives each call its result and its latency.  The clock
    of a world stands still through synchronous code and advances over a
    transfer or a retry pause.  HMAC-SHA256 and [JSON.parse] are
    parameters of the engine.  A run is a sequence of requests, each
    handled to its end before the next one starts. *)

From Stdlib Require Import ZArith Lia Bool.
From Stdlib Require Import SpecFloat Ascii String DecimalString.
From stdpp Require Import gmap strings list fin_maps.

Local Open Scope Z_scope.

(* ===================================================================== *)
(** ** JavaScript numbers *)
(* ===================================================================== *)

Module JS.

Definition prec : Z := 53.
Definition emax : Z := 1024.

(** A JavaScript [number]. *)
Definition number : Type := spec_float.

Definition mul : number -> number -> number := SFmul prec emax.
Definition div : number -> number -> number := SFdiv prec emax.
Definition add : number -> number -> number := SFadd prec emax.
Definition sub : number -> number -> number := SFsub prec emax.

(** [a < b], [a >= b], [a > b] on numbers; every comparison with NaN is
    false. *)
Definition lt (a b : number) : bool := SFltb a b.
Definition ge (a b : number) : bool := SFleb b a.
Definition gt (a b : number) : bool := SFltb b a.

(** [Number(z)] for a bigint (or an integer literal) [z]: the nearest
    double, ties to even. *)
Definition Number (z : Z) : number := binary_normalize prec emax z 0 false.

(** The integer part [floor (m * 2^e)] of a finite value with sign [s]. *)
Definition floorZ (s : bool) (m : positive) (e : Z) : Z :=
  let v := if s then Z.neg m else Z.pos m in
  if 0 <=? e then v * 2 ^ e else v / 2 ^ (- e).

(** [Math.floor]. Values with a non-negative exponent are integers
    already; zeros, infinities and NaN are returned unchanged. *)
Definition Math_floor (x : number) : number :=
  match x with
  | S754_finite s m e =>
      if 0 <=? e then x else binary_normalize prec emax (floorZ s m e) 0 s
  | _ => x
  end.

(** [BigInt(x)]: the integer value of an integral number; a [RangeError]
    ([None]) for NaN, the infinities and non-integers. *)
Definition BigInt (x : number) : option Z :=
  match x with
  | S754_zero _ => Some 0
  | S754_finite s m e =>
      if 0 <=? e then Some (floorZ s m e)
      else if (Z.pos m) mod 2 ^ (- e) =? 0 then Some (floorZ s m e)
      else None
  | _ => None
  end.

(** Truthiness of a number: [0], [-0] and [NaN] are falsy. *)
Definition truthy (x : number) : bool :=
  match x with
  | S754_zero _ | S754_nan => false
  | _ => true
  end.

(** [x || d] on numbers. *)
Definition or_default (x : option number) (d : number) : number :=
  match x with
  | Some v => if truthy v then v else d
  | None => d
  end.

(** [Math.pow(10, k)] for the decimal counts of the token table: powers
    of ten up to [10^22] are exact doubles. *)
Definition pow10 (k : Z) : number := Number (10 ^ k).

(** The literal [0.5]. *)
Definition lit_0_5 : number := S754_finite false (2 ^ 52) (-53).

(** A decimal literal [n / 10^k] read by the JSON parser: the double
    nearest to the rational, which is the correctly rounded quotient of
    two exact integers. *)
Definition decimal (n : Z) (k : Z) : number := div (Number n) (Number (10 ^ k)).

(** The arithmetic is unfolded on purpose only. *)
#[global] Arguments mul : simpl never.
#[global] Arguments div : simpl never.
#[global] Arguments add : simpl never.
#[global] Arguments sub : simpl never.
#[global] Arguments lt : simpl never.
#[global] Arguments ge : simpl never.
#[global] Arguments gt : simpl never.
#[global] Arguments Number : simpl never.
#[global] Arguments Math_floor : simpl never.
#[global] Arguments BigInt : simpl never.
#[global] Arguments pow10 : simpl never.
#[global] Arguments decimal : simpl never.

End JS.

(* ===================================================================== *)
(** ** Rounding to nearest, ties to even *)
(* ===================================================================== *)

Module Rounding.

(** The integer nearest to the rational [N / D], for [0 <= N] and [0 < D];
    a tie goes to the even neighbour. *)
Definition rne (N D : Z) : Z :=
  let q := N / D in
  match 2 * (N mod D) ?= D with
  | Lt => q
  | Eq => if Z.even q then q else q + 1
  | Gt => q + 1
  end.

(** Where [N / D] lies between [N / D] rounded down and the next integer:
    the [location] of the standard library's rounding functions. *)
Definition loc_of (N D : Z) : location :=
  if N mod D =? 0 then loc_Exact else loc_Inexact (2 * (N mod D) ?= D).

(** The number of binary digits of a positive integer. *)
Definition digits (z : Z) : Z := Z.log2 z + 1.

(** The double of a positive integer below [2^53], written out: a mantissa
    of exactly 53 digits and the matching exponent. *)
Definition canonical (z : Z) : spec_float :=
  S754_finite false (Z.to_pos (z * 2 ^ (53 - digits z))) (digits z - 53).

(** A shift record holds the integer part of [N / D] and where [N / D]
    lies above it. *)
Definition locates (N D : Z) (mrs : shr_record) : Prop :=
  shr_m mrs = N / D /\ loc_of_shr_record mrs = loc_of N D.

End Rounding.

(* ===================================================================== *)
(** ** Payout arithmetic of [settleDuel] *)
(* ===================================================================== *)

Module Payout.
Import JS.

Definition SHADOWWIRE_FEE_PERCENT : number := lit_0_5.

(** [1 - (SHADOWWIRE_FEE_PERCENT / 100)]. *)
Definition depositFeeMultiplier : number :=
  sub (Number 1) (div SHADOWWIRE_FEE_PERCENT (Number 100)).

Record amounts := {
  stakePerPlayer : number;
  actualDepositPerPlayer : number;
  actualTotalPot : number;
  houseFee : number;
  winnerPayout : number }.

(** Lines 336-347 of [settleDuel]. *)
Definition compute (stakeAmount : Z) (houseFeePercent : number) : amounts :=
  let stakePerPlayer := Number stakeAmount in
  let actualDepositPerPlayer := Math_floor (mul stakePerPlayer depositFeeMultiplier) in
  let actualTotalPot := mul actualDepositPerPlayer (Number 2) in
  let houseFee := Math_floor (div (mul actualTotalPot houseFeePercent) (Number 100)) in
  let winnerPayout := sub actualTotalPot houseFee in
  {| stakePerPlayer := stakePerPlayer;
     actualDepositPerPlayer := actualDepositPerPlayer;
     actualTotalPot := actualTotalPot;
     houseFee := houseFee;
     winnerPayout := winnerPayout |}.

(** The amounts as the specification words them, in exact integer
    arithmetic: [A = floor (S * (1 - 0.5/100))], [P = 2 * A],
    [H = floor (P * f / 100)] and [W = P - H]. *)
Definition spec_deposit (S : Z) : Z := (S * 995) / 1000.
Definition spec_pot (S : Z) : Z := 2 * spec_deposit S.
Definition spec_houseFee (S f : Z) : Z := (spec_pot S * f) / 100.
Definition spec_winnerPayout (S f : Z) : Z := spec_pot S - spec_houseFee S f.

#[global] Arguments depositFeeMultiplier : simpl never.
#[global] Arguments compute : simpl never.

End Payout.

(* ===================================================================== *)
(** ** Configuration tables ([config.ts]) *)
(* ===================================================================== *)

Module Config.

Definition SUPPORTED_TOKENS : list string := ["SOL"; "USD1"; "RADR"]%string.

(** [TOKEN_DECIMALS[token]]; [None] is JavaScript's [undefined] for a key
    the table does not have. *)
Definition TOKEN_DECIMALS (token : string) : option Z :=
  if String.eqb token "SOL" then Some 9
  else if String.eqb token "USD1" then Some 6
  else if String.eqb token "RADR" then Some 9
  else None.

(** [TOKEN_MINIMUMS[token]], in smallest units: ten percent above the
    minimums of the transfer backend. *)
Definition TOKEN_MINIMUMS (token : string) : option Z :=
  if String.eqb token "SOL" then Some 110000000
  else if String.eqb token "USD1" then Some 5500000
  else if String.eqb token "RADR" then Some 11000000000000
  else None.

(** The table of the same name in [shadowwire-direct.ts]: the minimums of
    the transfer backend itself. *)
Definition SHADOWWIRE_TOKEN_MINIMUMS (token : string) : option Z :=
  if String.eqb token "SOL" then Some 100000000
  else if String.eqb token "USD1" then Some 5000000
  else if String.eqb token "RADR" then Some 10000000000000
  else None.

(** [table[token] || d] for a table of positive integers. *)
Definition or_default (x : option Z) (d : Z) : Z :=
  match x with
  | Some v => if v =? 0 then d else v
  | None => d
  end.

(** The part of the validated process configuration the engine reads. *)
Record t := {
  HOUSE_FEE_PERCENT : JS.number;
  escrowTimeoutMs : Z;
  treasuryWallet : string }.

(** [TOKEN_MINIMUM_DISPLAY[token]]: the minimums in display units, as
    the service information shows them. *)
Definition TOKEN_MINIMUM_DISPLAY (token : string) : option JS.number :=
  if String.eqb token "SOL" then Some (JS.decimal 11 2)
  else if String.eqb token "USD1" then Some (JS.decimal 55 1)
  else if String.eqb token "RADR" then Some (JS.Number 11000)
  else None.

End Config.

(* ===================================================================== *)
(** ** Types ([types/index.ts]) *)
(* ===================================================================== *)

Inductive DuelStatus :=
| PENDING_STAKES
| ACTIVE
| PENDING_SETTLEMENT
| SETTLED
| REFUNDED
| FAILED.

#[global] Instance DuelStatus_eq_dec : EqDecision DuelStatus.
Proof. solve_decision. Defined.

Record DuelParticipant := {
  stealthId : string;
  characterId : string;
  characterName : string;
  stakeAmount : Z;
  stakeLocked : bool;
  lockTxSignature : option string;
  lockTimestamp : option Z }.

Record DuelRules := {
  allowPotions : bool;
  allowPrayer : bool;
  allowMovement : bool;
  noMagic : bool;
  noMelee : bool;
  noRanged : bool }.

(** [Partial<DuelRules>]: every field optional. *)
Record PartialRules := {
  p_allowPotions : option bool;
  p_allowPrayer : option bool;
  p_allowMovement : option bool;
  p_noMagic : option bool;
  p_noMelee : option bool;
  p_noRanged : option bool }.

Inductive WinReason := death | forfeit | timeout.

Record CombatSummary := {
  totalTicks : Z;
  player1DamageDealt : Z;
  player2DamageDealt : Z;
  winReason : WinReason }.

Record DuelSession := {
  duelId : string;
  status : DuelStatus;
  player1 : DuelParticipant;
  player2 : DuelParticipant;
  token : string;
  houseFeePercent : JS.number;
  rules : DuelRules;
  createdAt : Z;
  updatedAt : Z;
  expiresAt : Z;
  winnerStealthId : option string;
  settlementTxSignatures : option (list (option string));
  combatSummary : option CombatSummary }.

(** Field updates of the mutable records. *)
Definition lock_participant (p : DuelParticipant) (tx : string) (now : Z) : DuelParticipant :=
  {| stealthId := stealthId p; characterId := characterId p;
     characterName := characterName p; stakeAmount := stakeAmount p;
     stakeLocked := true; lockTxSignature := Some tx; lockTimestamp := Some now |}.

Definition with_player1 (d : DuelSession) (p : DuelParticipant) : DuelSession :=
  {| duelId := duelId d; status := status d; player1 := p; player2 := player2 d;
     token := token d; houseFeePercent := houseFeePercent d; rules := rules d;
     createdAt := createdAt d; updatedAt := updatedAt d; expiresAt := expiresAt d;
     winnerStealthId := winnerStealthId d;
     settlementTxSignatures := settlementTxSignatures d;
     combatSummary := combatSummary d |}.

Definition with_player2 (d : DuelSession) (p : DuelParticipant) : DuelSession :=
  {| duelId := duelId d; status := status d; player1 := player1 d; player2 := p;
     token := token d; houseFeePercent := houseFeePercent d; rules := rules d;
     createdAt := createdAt d; updatedAt := updatedAt d; expiresAt := expiresAt d;
     winnerStealthId := winnerStealthId d;
     settlementTxSignatures := settlementTxSignatures d;
     combatSummary := combatSummary d |}.

Definition with_status (d : DuelSession) (s : DuelStatus) : DuelSession :=
  {| duelId := duelId d; status := s; player1 := player1 d; player2 := player2 d;
     token := token d; houseFeePercent := houseFeePercent d; rules := rules d;
     createdAt := createdAt d; updatedAt := updatedAt d; expiresAt := expiresAt d;
     winnerStealthId := winnerStealthId d;
     settlementTxSignatures := settlementTxSignatures d;
     combatSummary := combatSummary d |}.

Definition with_updatedAt (d : DuelSession) (now : Z) : DuelSession :=
  {| duelId := duelId d; status := status d; player1 := player1 d; player2 := player2 d;
     token := token d; houseFeePercent := houseFeePercent d; rules := rules d;
     createdAt := createdAt d; updatedAt := now; expiresAt := expiresAt d;
     winnerStealthId := winnerStealthId d;
     settlementTxSignatures := settlementTxSignatures d;
     combatSummary := combatSummary d |}.

Definition with_winnerStealthId (d : DuelSession) (sid : string) : DuelSession :=
  {| duelId := duelId d; status := status d; player1 := player1 d; player2 := player2 d;
     token := token d; houseFeePercent := houseFeePercent d; rules := rules d;
     createdAt := createdAt d; updatedAt := updatedAt d; expiresAt := expiresAt d;
     winnerStealthId := Some sid;
     settlementTxSignatures := settlementTxSignatures d;
     combatSummary := combatSummary d |}.

Definition with_settlement (d : DuelSession) (txs : list (option string))
    (cs : option CombatSummary) : DuelSession :=
  {| duelId := duelId d; status := status d; player1 := player1 d; player2 := player2 d;
     token := token d; houseFeePercent := houseFeePercent d; rules := rules d;
     createdAt := createdAt d; updatedAt := updatedAt d; expiresAt := expiresAt d;
     winnerStealthId := winnerStealthId d;
     settlementTxSignatures := Some txs;
     combatSummary := cs |}.

Definition with_refundTxs (d : DuelSession) (txs : list (option string)) : DuelSession :=
  {| duelId := duelId d; status := status d; player1 := player1 d; player2 := player2 d;
     token := token d; houseFeePercent := houseFeePercent d; rules := rules d;
     createdAt := createdAt d; updatedAt := updatedAt d; expiresAt := expiresAt d;
     winnerStealthId := winnerStealthId d;
     settlementTxSignatures := Some txs;
     combatSummary := combatSummary d |}.

(* ===================================================================== *)
(** ** Stealth ids ([stealth.ts]) *)
(* ===================================================================== *)

Module Stealth.

(** White space removed by [String.prototype.trim] among the 8-bit
    characters: tab, line feed, vertical tab, form feed, carriage return
    and space. *)
Definition is_space (c : ascii) : bool :=
  let n := nat_of_ascii c in
  ((9 <=? n)%nat && (n <=? 13)%nat) || (n =? 32)%nat.

Fixpoint trim_start (s : string) : string :=
  match s with
  | String c s' => if is_space c then trim_start s' else s
  | EmptyString => EmptyString
  end.

(** Drops the trailing white space: a character is kept when something
    that is kept follows it, or when it is not white space itself. *)
Fixpoint trim_end (s : string) : string :=
  match s with
  | String c s' =>
      match trim_end s' with
      | EmptyString => if is_space c then EmptyString else String c EmptyString
      | rest => String c rest
      end
  | EmptyString => EmptyString
  end.

Definition trim (s : string) : string := trim_end (trim_start s).

Definition charCode (c : ascii) : Z := Z.of_nat (nat_of_ascii c).

(** The loop of [timingSafeEqual]: [result |= a.charCodeAt(i) ^ b.charCodeAt(i)]. *)
Fixpoint xor_fold (a b : string) (result : Z) : Z :=
  match a, b with
  | String x a', String y b' =>
      xor_fold a' b' (Z.lor result (Z.lxor (charCode x) (charCode y)))
  | _, _ => result
  end.

Definition timingSafeEqual (a b : string) : bool :=
  if negb (String.length a =? String.length b)%nat then false
  else xor_fold a b 0 =? 0.

(** [String.prototype.slice(start, end)]: a negative index counts from
    the end, every index is clamped to the string, and an absent [end] is
    the length. *)
Definition slice (s : string) (start : Z) (end_ : option Z) : string :=
  let len := Z.of_nat (String.length s) in
  let clamp i := if i <? 0 then Z.max (len + i) 0 else Z.min i len in
  let from := clamp start in
  let to := match end_ with Some e => clamp e | None => len end in
  let span := Z.max (to - from) 0 in
  substring (Z.to_nat from) (Z.to_nat span) s.

(** [maskWallet]: the first four and the last four characters only. *)
Definition maskWallet (wallet : string) : string :=
  if (String.length wallet <=? 8)%nat then "****"
  else slice wallet 0 (Some 4) ++ "..." ++ slice wallet (-4) None.

(** The character class [[a-f0-9]]. *)
Definition is_lower_hex (c : ascii) : bool :=
  let n := nat_of_ascii c in
  ((97 <=? n)%nat && (n <=? 102)%nat) || ((48 <=? n)%nat && (n <=? 57)%nat).

(** [isValidStealthId]: the test of [/^[a-f0-9]{64}$/]. *)
Definition isValidStealthId (id : string) : bool :=
  (String.length id =? 64)%nat && forallb is_lower_hex (list_ascii_of_string id).

(** [truncateStealthId]: the first eight characters and an ellipsis. *)
Definition truncateStealthId (stealth : string) : string :=
  slice stealth 0 (Some 8) ++ "...".

Section WithPepper.
(** [createHmac('sha256', WALLET_PEPPER).update(m).digest('hex')]: the
    keyed hash of the crypto library, with the pepper of the process
    configuration already applied. *)
Variable hmac : string -> string.

Definition generateStealthId (wallet : string) : string :=
  let normalizedWallet := trim wallet in
  hmac normalizedWallet.

Definition verifyStealthId (wallet stealth : string) : bool :=
  let computed := generateStealthId wallet in
  timingSafeEqual computed stealth.

(** [StealthMappingService]: the session map from stealth id to
    wallet. *)
Definition register (wallet : string) (sessionMap : gmap string string)
  : string * gmap string string :=
  let stealth := generateStealthId wallet in
  (stealth, <[stealth := wallet]> sessionMap).

(** [generateStealthIds]: the map from each wallet of a batch to its
    stealth id. *)
Definition generateStealthIds (wallets : list string) : gmap string string :=
  fold_left (fun result wallet => <[wallet := generateStealthId wallet]> result)
    wallets ∅.

End WithPepper.

Definition resolve (stealth : string) (sessionMap : gmap string string) : option string :=
  sessionMap !! stealth.

Definition has (stealth : string) (sessionMap : gmap string string) : bool :=
  bool_decide (is_Some (sessionMap !! stealth)).

Definition unregister (stealth : string) (sessionMap : gmap string string)
  : gmap string string :=
  delete stealth sessionMap.

Definition clear (sessionMap : gmap string string) : gmap string string := ∅.

Definition size (sessionMap : gmap string string) : nat := base.size sessionMap.

End Stealth.

(* ===================================================================== *)
(** ** The in-memory store ([memory-store.ts]) *)
(* ===================================================================== *)

Module MemoryStore.

Record StoredItem := {
  data : DuelSession;
  item_expiresAt : option Z (* null = no expiry *) }.

Record t := {
  duels : gmap string StoredItem;
  dust : gmap string JS.number;
  pendingRecovery : gset string;
  failedRecovery : gset string;
  duelsCreated : Z;
  duelsExpired : Z }.

Definition empty : t :=
  {| duels := ∅; dust := ∅; pendingRecovery := ∅; failedRecovery := ∅;
     duelsCreated := 0; duelsExpired := 0 |}.

Definition with_duels (s : t) (m : gmap string StoredItem) (created expired : Z) : t :=
  {| duels := m; dust := dust s; pendingRecovery := pendingRecovery s;
     failedRecovery := failedRecovery s;
     duelsCreated := created; duelsExpired := expired |}.

Definition with_dust (s : t) (m : gmap string JS.number) : t :=
  {| duels := duels s; dust := m; pendingRecovery := pendingRecovery s;
     failedRecovery := failedRecovery s;
     duelsCreated := duelsCreated s; duelsExpired := duelsExpired s |}.

Definition with_pending (s : t) (p : gset string) : t :=
  {| duels := duels s; dust := dust s; pendingRecovery := p;
     failedRecovery := failedRecovery s;
     duelsCreated := duelsCreated s; duelsExpired := duelsExpired s |}.

Definition with_failed (s : t) (f : gset string) : t :=
  {| duels := duels s; dust := dust s; pendingRecovery := pendingRecovery s;
     failedRecovery := f;
     duelsCreated := duelsCreated s; duelsExpired := duelsExpired s |}.

(** [item.expiresAt !== null && item.expiresAt <= now]. *)
Definition expired (now : Z) (item : StoredItem) : bool :=
  match item_expiresAt item with
  | Some e => e <=? now
  | None => false
  end.

(** The reaper: deletes every expired entry and counts them. *)
Definition cleanup (now : Z) (s : t) : t :=
  let kept := filter (fun kv => expired now (snd kv) = false) (duels s) in
  let expiredCount := Z.of_nat (size (duels s)) - Z.of_nat (size kept) in
  with_duels s kept (duelsCreated s) (duelsExpired s + expiredCount).

Definition setDuel (now : Z) (id : string) (duel : DuelSession) (ttlMs : Z) (s : t) : t :=
  let expiresAt := now + ttlMs in
  with_duels s (<[id := {| data := duel; item_expiresAt := Some expiresAt |}]> (duels s))
    (duelsCreated s + 1) (duelsExpired s).

Definition getDuel (now : Z) (id : string) (s : t) : option DuelSession * t :=
  match duels s !! id with
  | None => (None, s)
  | Some item =>
      if expired now item
      then (None, with_duels s (delete id (duels s)) (duelsCreated s) (duelsExpired s + 1))
      else (Some (data item), s)
  end.

Definition deleteDuel (id : string) (s : t) : bool * t :=
  (bool_decide (is_Some (duels s !! id)),
   with_duels s (delete id (duels s)) (duelsCreated s) (duelsExpired s)).

(** Dust counters. *)
Definition getDust (token : string) (s : t) : JS.number :=
  JS.or_default (dust s !! token) (JS.Number 0).

Definition accumulateDust (token : string) (amount : JS.number) (s : t) : t :=
  let current := JS.or_default (dust s !! token) (JS.Number 0) in
  with_dust s (<[token := JS.add current amount]> (dust s)).

Definition resetDust (token : string) (s : t) : t :=
  with_dust s (<[token := JS.Number 0]> (dust s)).

(** Recovery sets. *)
Definition addPendingRecovery (id : string) (s : t) : t :=
  with_pending s ({[id]} ∪ pendingRecovery s).

Definition removePendingRecovery (id : string) (s : t) : t :=
  with_pending s (pendingRecovery s ∖ {[id]}).

Definition getPendingRecovery (s : t) : list string := elements (pendingRecovery s).

Definition addFailedRecovery (id : string) (s : t) : t :=
  with_failed s ({[id]} ∪ failedRecovery s).

Definition removeFailedRecovery (id : string) (s : t) : t :=
  with_failed s (failedRecovery s ∖ {[id]}).

Definition getFailedRecovery (s : t) : list string := elements (failedRecovery s).

(** [hasDuel]: a read, eviction included, compared with [null]. *)
Definition hasDuel (now : Z) (id : string) (s : t) : bool * t :=
  let '(found, s') := getDuel now id s in
  (bool_decide (is_Some found), s').

(** [item.expiresAt === null || item.expiresAt > now]. *)
Definition live (now : Z) (item : StoredItem) : bool :=
  match item_expiresAt item with
  | None => true
  | Some e => now <? e
  end.

(** [getAllDuels]: the sessions that have not expired; nothing is
    evicted.  The source lists them in the order of insertion, the model
    in the order of the keys. *)
Definition getAllDuels (now : Z) (s : t) : list DuelSession :=
  data <$> (snd <$> filter (fun kv => live now (snd kv) = true) (map_to_list (duels s))).

(** [shutdown]: every collection is cleared; the two counters stay. *)
Definition shutdown (s : t) : t :=
  {| duels := ∅; dust := ∅; pendingRecovery := ∅; failedRecovery := ∅;
     duelsCreated := duelsCreated s; duelsExpired := duelsExpired s |}.

Record Stats := {
  st_activeDuels : Z;
  st_duelsCreated : Z;
  st_duelsExpired : Z;
  st_dustTokens : Z;
  st_pendingRecovery : Z;
  st_failedRecovery : Z }.

(** [getStats]: the reaper runs first, so the count of active duels is
    accurate. *)
Definition getStats (now : Z) (s : t) : Stats * t :=
  let s' := cleanup now s in
  ({| st_activeDuels := Z.of_nat (base.size (duels s'));
      st_duelsCreated := duelsCreated s';
      st_duelsExpired := duelsExpired s';
      st_dustTokens := Z.of_nat (base.size (dust s'));
      st_pendingRecovery := Z.of_nat (base.size (pendingRecovery s'));
      st_failedRecovery := Z.of_nat (base.size (failedRecovery s')) |}, s').

Definition isHealthy (s : t) : bool := true.

End MemoryStore.

(* ===================================================================== *)
(** ** The escrow engine ([duel-escrow.ts]) *)
(* ===================================================================== *)

Module Escrow.
Import JS.

(** *** The transfer client seen from the engine *)

Record TransferResult := {
  success : bool;
  txSignature : option string;
  error : option string }.

(** One call of [shadowWireDirect.transferFromEscrow]. *)
Record TransferCall := {
  recipientWallet : string;
  amountLamports : number;
  transferToken : string }.

(** The transfer backend: the result of the [k]-th transfer call of the
    process and the time that call takes, in milliseconds. *)
Record Backend := {
  outcome : nat -> TransferResult;
  latency : nat -> Z }.

(** The process state: the store, the session reverse map, the log of the
    transfer calls made so far, and the wall clock read by [Date.now()].
    The clock stands still during a synchronous run and advances while a
    transfer or a retry delay is awaited. *)
Record World := {
  store : MemoryStore.t;
  sessionMap : gmap string string;
  transfers : list TransferCall;
  clock : Z }.

Definition with_store (w : World) (s : MemoryStore.t) : World :=
  {| store := s; sessionMap := sessionMap w; transfers := transfers w; clock := clock w |}.

Definition with_sessionMap (w : World) (m : gmap string string) : World :=
  {| store := store w; sessionMap := m; transfers := transfers w; clock := clock w |}.

Definition sleep (ms : Z) (w : World) : World :=
  {| store := store w; sessionMap := sessionMap w; transfers := transfers w;
     clock := clock w + Z.max 0 ms |}.

Definition initial (start : Z) : World :=
  {| store := MemoryStore.empty; sessionMap := ∅; transfers := []; clock := start |}.

(** *** Results *)

Inductive Error :=
| DuelNotFound                                  (* 'Duel not found' *)
| InvalidStatus (s : DuelStatus)                (* 'Invalid duel status: ...' *)
| DuelExpired                                   (* 'Duel has expired' *)
| NotParticipant                                (* 'Player not part of this duel' *)
| AlreadyLocked                                 (* 'Stake already locked' *)
| WinnerNotParticipant                          (* 'Winner not part of this duel' *)
| StakeTooLow (minDisplay : number) (token : string) (* 'Stake too low. Min: ...' *)
| PayoutFailed (attempts : Z) (lastError : string) (* 'Failed to pay winner after ...' *)
| AlreadyFinal (s : DuelStatus)                 (* 'Duel already settled/refunded' *)
| DustBelowMinimum (dustAmount : number)        (* '... is below 0.1 SOL minimum' *)
| TransferError (e : option string)
| SomeRefundsFailed.                            (* 'Some refunds failed - ...' *)

Inductive CreateDuelResult :=
| CreateOk (duel : DuelSession)
| CreateError (e : Error)
| CreateThrew.                                  (* RangeError of [BigInt] *)

Inductive LockStakeResult :=
| LockOk (tx : string) (bothLocked : bool)
| LockError (e : Error).

Inductive SettleResult :=
| SettleOk (winnerTxSignature treasuryTxSignature : option string)
    (winnerPayoutLamports houseFeeLamports : Z)
    (commitmentHash commitmentTxSignature : option string)
| SettleError (e : Error)
| SettleThrew.                                  (* RangeError of [BigInt] *)

Inductive RefundResult :=
| RefundOk (refundTxSignatures : list string)
| RefundError (e : Error).

Record RefundEntry := {
  player : string;
  r_success : bool;
  r_txSignature : option string;
  r_error : option string }.

Record EmergencyResult := {
  e_success : bool;
  refunds : list RefundEntry;
  e_error : option Error }.

Record SweepResult := {
  s_success : bool;
  s_amount : number;
  s_txSignature : option string;
  s_error : option Error }.

(** The outcome of [accountabilityService.commitToSettlement]. *)
Inductive CommitOutcome :=
| CommitOk (commitmentHash onChainTxSignature : option string)
| CommitFailed
| CommitThrew.

(** A parsed payment proof: the three fields the engine looks at. *)
Record ProofData := {
  pd_txSignature : option string;
  pd_signature : option string;
  pd_tx : option string }.

Record CreateDuelParams := {
  player1Wallet : string;
  player2Wallet : string;
  player1CharacterId : string;
  player2CharacterId : string;
  player1Name : string;
  player2Name : string;
  stakeAmountSol : number;
  param_token : option string;
  param_rules : option PartialRules }.

(** *** Small helpers *)

(** Truthiness of a string: the empty string is falsy. *)
Definition truthy_str (s : string) : bool := negb (String.eqb s "").

(** [a || b] for an optional string [a]. *)
Definition str_or (a : option string) (b : string) : string :=
  match a with
  | Some s => if truthy_str s then s else b
  | None => b
  end.

Definition truthy_opt (a : option string) : bool :=
  match a with
  | Some s => truthy_str s
  | None => false
  end.

Definition DEFAULT_RULES : DuelRules :=
  {| allowPotions := false; allowPrayer := false; allowMovement := true;
     noMagic := false; noMelee := false; noRanged := false |}.

(** [{ ...DEFAULT_RULES, ...rules }]. *)
Definition merge_rules (r : option PartialRules) : DuelRules :=
  match r with
  | None => DEFAULT_RULES
  | Some p =>
      {| allowPotions := default (allowPotions DEFAULT_RULES) (p_allowPotions p);
         allowPrayer := default (allowPrayer DEFAULT_RULES) (p_allowPrayer p);
         allowMovement := default (allowMovement DEFAULT_RULES) (p_allowMovement p);
         noMagic := default (noMagic DEFAULT_RULES) (p_noMagic p);
         noMelee := default (noMelee DEFAULT_RULES) (p_noMelee p);
         noRanged := default (noRanged DEFAULT_RULES) (p_noRanged p) |}
  end.

Definition is_status (d : DuelSession) (s : DuelStatus) : bool :=
  bool_decide (status d = s).

(** The 24 hours kept for recovery and for auditing. *)
Definition SETTLEMENT_TTL : Z := 24 * 60 * 60 * 1000.
Definition MAX_RETRIES : Z := 3.
Definition RETRY_DELAY_MS : Z := 2000.
Definition SHADOWWIRE_MIN_TRANSFER : Z := 100000000.

(** [getDuel]: the store's read, which evicts an expired entry. *)
Definition getDuel (id : string) (w : World) : option DuelSession * World :=
  let '(found, s) := MemoryStore.getDuel (clock w) id (store w) in
  (found, with_store w s).

Definition setDuel (id : string) (duel : DuelSession) (ttlMs : Z) (w : World) : World :=
  with_store w (MemoryStore.setDuel (clock w) id duel ttlMs (store w)).

Definition unregister (stealth : string) (w : World) : World :=
  with_sessionMap w (Stealth.unregister stealth (sessionMap w)).

(** The background reaper, which runs between requests. *)
Definition reap (w : World) : World :=
  with_store w (MemoryStore.cleanup (clock w) (store w)).

(** Time passing between requests. *)
Definition tick (ms : Z) (w : World) : World := sleep ms w.

Section Engine.
(** The keyed hash of [stealth.ts], the process configuration, the
    transfer backend, and [JSON.parse] restricted to the objects a
    payment proof may be ([None] when the text is not an object). *)
Variable hmac : string -> string.
Variable config : Config.t.
Variable backend : Backend.
Variable JSON_parse : string -> option ProofData.

(** [shadowWireDirect.transferFromEscrow]: one more call in the log,
    its result, and the time it took. *)
Definition transferFromEscrow (recipient : string) (amount : number)
    (tok : string) (w : World) : TransferResult * World :=
  let k := length (transfers w) in
  (outcome backend k,
   {| store := store w; sessionMap := sessionMap w;
      transfers := transfers w ++
        [{| recipientWallet := recipient; amountLamports := amount;
            transferToken := tok |}];
      clock := clock w + Z.max 0 (latency backend k) |}).

Definition transferToTreasury (amount : number) (tok : string) (w : World)
  : TransferResult * World :=
  transferFromEscrow (Config.treasuryWallet config) amount tok w.

(** **** Create duel *)

Definition createDuel (newDuelId : string) (params : CreateDuelParams) (w : World)
  : CreateDuelResult * World :=
  let tok := default "SOL"%string (param_token params) in
  let decimals := Config.or_default (Config.TOKEN_DECIMALS tok) 9 in
  let minAmount := Number (Config.or_default (Config.TOKEN_MINIMUMS tok) 100000000) in
  let stakeAmountSmallestUnit :=
    Math_floor (mul (stakeAmountSol params) (pow10 decimals)) in
  if lt stakeAmountSmallestUnit minAmount then
    let minDisplay := div minAmount (pow10 decimals) in
    (CreateError (StakeTooLow minDisplay tok), w)
  else
    let '(player1StealthId, m1) :=
      Stealth.register hmac (player1Wallet params) (sessionMap w) in
    let '(player2StealthId, m2) :=
      Stealth.register hmac (player2Wallet params) m1 in
    let w1 := with_sessionMap w m2 in
    let now := clock w1 in
    let expires := now + Config.escrowTimeoutMs config in
    match BigInt stakeAmountSmallestUnit with
    | None => (CreateThrew, w1)
    | Some stake =>
        let duel :=
          {| duelId := newDuelId;
             status := PENDING_STAKES;
             player1 := {| stealthId := player1StealthId;
                           characterId := player1CharacterId params;
                           characterName := player1Name params;
                           stakeAmount := stake;
                           stakeLocked := false;
                           lockTxSignature := None;
                           lockTimestamp := None |};
             player2 := {| stealthId := player2StealthId;
                           characterId := player2CharacterId params;
                           characterName := player2Name params;
                           stakeAmount := stake;
                           stakeLocked := false;
                           lockTxSignature := None;
                           lockTimestamp := None |};
             token := tok;
             houseFeePercent := Config.HOUSE_FEE_PERCENT config;
             rules := merge_rules (param_rules params);
             createdAt := now;
             updatedAt := now;
             expiresAt := expires;
             winnerStealthId := None;
             settlementTxSignatures := None;
             combatSummary := None |} in
        (CreateOk duel, setDuel newDuelId duel (Config.escrowTimeoutMs config) w1)
    end.

(** **** Lock stake *)

(** The tx id carried by a payment proof. *)
Definition proofTxSignature (paymentProof : string) : string :=
  match JSON_parse paymentProof with
  | Some proofData =>
      str_or (pd_txSignature proofData)
        (str_or (pd_signature proofData)
           (str_or (pd_tx proofData) paymentProof))
  | None => paymentProof
  end.

Definition lockStakeWithProof (id playerWallet paymentProof : string) (w : World)
  : LockStakeResult * World :=
  let '(found, w1) := getDuel id w in
  match found with
  | None => (LockError DuelNotFound, w1)
  | Some duel =>
      if negb (is_status duel PENDING_STAKES) then
        (LockError (InvalidStatus (status duel)), w1)
      else if expiresAt duel <? clock w1 then
        (LockError DuelExpired, w1)
      else
        let isP1 := Stealth.verifyStealthId hmac playerWallet (stealthId (player1 duel)) in
        let isP2 := Stealth.verifyStealthId hmac playerWallet (stealthId (player2 duel)) in
        if negb isP1 && negb isP2 then (LockError NotParticipant, w1)
        else
          let player := if isP1 then player1 duel else player2 duel in
          if stakeLocked player then (LockError AlreadyLocked, w1)
          else
            let tx := proofTxSignature paymentProof in
            let now := clock w1 in
            let player' := lock_participant player tx now in
            let duel1 :=
              with_updatedAt
                (if isP1 then with_player1 duel player' else with_player2 duel player')
                now in
            let bothLocked :=
              stakeLocked (player1 duel1) && stakeLocked (player2 duel1) in
            let duel2 := if bothLocked then with_status duel1 ACTIVE else duel1 in
            let ttl := expiresAt duel2 - clock w1 in
            (LockOk tx bothLocked, setDuel id duel2 (Z.max ttl 1000) w1)
  end.

(** **** Settle *)

(** The retry loop of the winner payout: [fuel] attempts are left and
    [attempt] is the number of the next one. *)
Fixpoint payWinner (fuel : nat) (attempt : Z) (winnerWallet : string)
    (amount : number) (tok : string) (winnerResult : TransferResult)
    (lastError : string) (w : World) : TransferResult * string * World :=
  match fuel with
  | O => (winnerResult, lastError, w)
  | S fuel' =>
      let '(r, w1) := transferFromEscrow winnerWallet amount tok w in
      if success r then (r, lastError, w1)
      else
        let lastError' := str_or (error r) "Unknown error" in
        let w2 := if attempt <? MAX_RETRIES then sleep RETRY_DELAY_MS w1 else w1 in
        payWinner fuel' (attempt + 1) winnerWallet amount tok r lastError' w2
  end.

Definition settleDuel (id winnerWallet : string) (summary : option CombatSummary)
    (commit : CommitOutcome) (w : World) : SettleResult * World :=
  let '(found, w1) := getDuel id w in
  match found with
  | None => (SettleError DuelNotFound, w1)
  | Some duel =>
      if negb (is_status duel ACTIVE) && negb (is_status duel PENDING_SETTLEMENT) then
        (SettleError (InvalidStatus (status duel)), w1)
      else if negb (Stealth.verifyStealthId hmac winnerWallet (stealthId (player1 duel)))
              && negb (Stealth.verifyStealthId hmac winnerWallet (stealthId (player2 duel)))
      then (SettleError WinnerNotParticipant, w1)
      else
        let pay := Payout.compute (stakeAmount (player1 duel)) (houseFeePercent duel) in
        let houseFee := Payout.houseFee pay in
        let winnerPayout := Payout.winnerPayout pay in
        let winnerSid := Stealth.generateStealthId hmac winnerWallet in
        let '(commitmentHash, commitmentTx) :=
          match commit with
          | CommitOk h t => (h, t)
          | _ => (None, None)
          end in
        (* pending settlement, kept 24 hours for recovery *)
        let duel1 :=
          with_updatedAt (with_winnerStealthId (with_status duel PENDING_SETTLEMENT) winnerSid)
            (clock w1) in
        let w2 := setDuel id duel1 SETTLEMENT_TTL w1 in
        let w3 := with_store w2 (MemoryStore.addPendingRecovery id (store w2)) in
        let '(winnerResult, lastError, w4) :=
          payWinner (Z.to_nat MAX_RETRIES) 1 winnerWallet winnerPayout (token duel1)
            {| success := false; txSignature := None; error := None |} "" w3 in
        if negb (success winnerResult) then
          (* all retries failed: the duel is preserved for manual recovery *)
          let duel2 := with_updatedAt (with_status duel1 ACTIVE) (clock w4) in
          let w5 := setDuel id duel2 SETTLEMENT_TTL w4 in
          let w6 := with_store w5 (MemoryStore.addFailedRecovery id (store w5)) in
          (SettleError (PayoutFailed MAX_RETRIES lastError), w6)
        else
          let w5 := with_store w4 (MemoryStore.removePendingRecovery id (store w4)) in
          let minTransferForToken :=
            Number (Config.or_default (Config.TOKEN_MINIMUMS (token duel1))
                      (Config.or_default (Config.TOKEN_MINIMUMS "SOL") 0)) in
          let '(treasuryTx, w6) :=
            if ge houseFee minTransferForToken
               && truthy_str (Config.treasuryWallet config) then
              let '(treasuryResult, w') := transferToTreasury houseFee (token duel1) w5 in
              if negb (success treasuryResult) then
                (None, with_store w'
                         (MemoryStore.accumulateDust (token duel1) houseFee (store w')))
              else (txSignature treasuryResult, w')
            else if gt houseFee (Number 0) then
              (None, with_store w5
                       (MemoryStore.accumulateDust (token duel1) houseFee (store w5)))
            else (None, w5) in
          let txs :=
            txSignature winnerResult ::
            (if truthy_opt treasuryTx then [treasuryTx] else []) in
          let duel3 :=
            with_updatedAt (with_settlement (with_status duel1 SETTLED) txs summary)
              (clock w6) in
          let w7 := setDuel id duel3 SETTLEMENT_TTL w6 in
          let w8 := unregister (stealthId (player2 duel3))
                      (unregister (stealthId (player1 duel3)) w7) in
          match BigInt winnerPayout, BigInt houseFee with
          | Some wp, Some hf =>
              (SettleOk (txSignature winnerResult) treasuryTx wp hf
                 commitmentHash commitmentTx, w8)
          | _, _ => (SettleThrew, w8)
          end
  end.

(** **** Refund *)

(** The refund of one participant: nothing when the stake was not
    locked or the wallet cannot be resolved; the tx id is collected
    only when the transfer succeeds and carries one. *)
Definition refundParticipant (p : DuelParticipant) (tok : string)
    (txs : list string) (w : World) : list string * World :=
  if stakeLocked p then
    match Stealth.resolve (stealthId p) (sessionMap w) with
    | Some wallet =>
        if truthy_str wallet then
          let '(refund, w1) :=
            transferFromEscrow wallet (Number (stakeAmount p)) tok w in
          if success refund && truthy_opt (txSignature refund)
          then (txs ++ [default ""%string (txSignature refund)], w1)
          else (txs, w1)
        else (txs, w)
    | None => (txs, w)
    end
  else (txs, w).

Definition refundDuel (id : string) (w : World) : RefundResult * World :=
  let '(found, w1) := getDuel id w in
  match found with
  | None => (RefundError DuelNotFound, w1)
  | Some duel =>
      if is_status duel SETTLED || is_status duel REFUNDED then
        (RefundError (AlreadyFinal (status duel)), w1)
      else
        let '(txs1, w2) := refundParticipant (player1 duel) (token duel) [] w1 in
        let '(txs2, w3) := refundParticipant (player2 duel) (token duel) txs1 w2 in
        let duel1 :=
          with_updatedAt (with_refundTxs (with_status duel REFUNDED) (map Some txs2))
            (clock w3) in
        let w4 := setDuel id duel1 SETTLEMENT_TTL w3 in
        let w5 := unregister (stealthId (player2 duel1))
                    (unregister (stealthId (player1 duel1)) w4) in
        (RefundOk txs2, w5)
  end.

(** **** Recovery *)

Definition getFailedDuels (w : World) : list string :=
  MemoryStore.getFailedRecovery (store w).

Definition getPendingSettlements (w : World) : list string :=
  MemoryStore.getPendingRecovery (store w).

Definition emergencyRefundOne (label wallet : string) (amount : number)
    (tok : string) (acc : list RefundEntry) (w : World) : list RefundEntry * World :=
  if truthy_str wallet then
    let '(result, w1) := transferFromEscrow wallet amount tok w in
    (acc ++ [{| player := label; r_success := success result;
                r_txSignature := txSignature result; r_error := error result |}], w1)
  else (acc, w).

Definition emergencyRefund (id wallet1 wallet2 : string)
    (stakePerPlayerLamports : number) (tok : string) (w : World)
  : EmergencyResult * World :=
  let actualPerPlayer :=
    Math_floor (mul stakePerPlayerLamports Payout.depositFeeMultiplier) in
  let '(refunds1, w1) := emergencyRefundOne "player1" wallet1 actualPerPlayer tok [] w in
  let '(refunds2, w2) := emergencyRefundOne "player2" wallet2 actualPerPlayer tok refunds1 w1 in
  let allSuccess := forallb r_success refunds2 in
  let w5 :=
    if allSuccess then
      let w3 :=
        with_store w2
          (MemoryStore.removePendingRecovery id
             (MemoryStore.removeFailedRecovery id (store w2))) in
      let '(found, w4) := getDuel id w3 in
      match found with
      | Some duel =>
          setDuel id (with_updatedAt (with_status duel REFUNDED) (clock w4))
            SETTLEMENT_TTL w4
      | None => w4
      end
    else w2 in
  ({| e_success := allSuccess; refunds := refunds2;
      e_error := if allSuccess then None else Some SomeRefundsFailed |}, w5).

(** **** Dust *)

Definition accumulateDust (amount : number) (tok : string) (w : World) : World :=
  with_store w (MemoryStore.accumulateDust tok amount (store w)).

Definition getAccumulatedDust (tok : string) (w : World) : number :=
  MemoryStore.getDust tok (store w).

Definition sweepDustToTreasury (tok : string) (w : World) : SweepResult * World :=
  let dustAmount := getAccumulatedDust tok w in
  if lt dustAmount (Number SHADOWWIRE_MIN_TRANSFER) then
    ({| s_success := false; s_amount := dustAmount; s_txSignature := None;
        s_error := Some (DustBelowMinimum dustAmount) |}, w)
  else
    let '(result, w1) := transferToTreasury dustAmount tok w in
    if success result then
      ({| s_success := true; s_amount := dustAmount;
          s_txSignature := txSignature result; s_error := None |},
       with_store w1 (MemoryStore.resetDust tok (store w1)))
    else
      ({| s_success := false; s_amount := dustAmount; s_txSignature := None;
          s_error := Some (TransferError (error result)) |}, w1).

(** **** Requests

    One request of the game server or of the operator, or the passing
    of time between requests.  Every request runs to its end before the
    next one starts (each duel is a critical section). *)
Inductive Request :=
| ReqCreate (newDuelId : string) (params : CreateDuelParams)
| ReqLock (id playerWallet paymentProof : string)
| ReqSettle (id winnerWallet : string) (summary : option CombatSummary)
    (commit : CommitOutcome)
| ReqRefund (id : string)
| ReqEmergencyRefund (id wallet1 wallet2 : string) (stake : number) (tok : string)
| ReqSweepDust (tok : string)
| ReqReap
| ReqTick (ms : Z).

Definition handle (r : Request) (w : World) : World :=
  match r with
  | ReqCreate newDuelId params => snd (createDuel newDuelId params w)
  | ReqLock id wallet proof => snd (lockStakeWithProof id wallet proof w)
  | ReqSettle id wallet summary commit => snd (settleDuel id wallet summary commit w)
  | ReqRefund id => snd (refundDuel id w)
  | ReqEmergencyRefund id w1 w2 stake tok => snd (emergencyRefund id w1 w2 stake tok w)
  | ReqSweepDust tok => snd (sweepDustToTreasury tok w)
  | ReqReap => reap w
  | ReqTick ms => tick ms w
  end.

(** The world after a sequence of requests, oldest first. *)
Definition run (rs : list Request) (w : World) : World :=
  fold_left (fun acc r => handle r acc) rs w.

End Engine.

(** The duel stored under an id, whatever its expiry. *)
Definition stored (id : string) (w : World) : option DuelSession :=
  MemoryStore.data <$> (MemoryStore.duels (store w) !! id).

(** [stakeAmountLamports] of the create response: the decimal text of the
    bigint. *)
Definition stakeAmountLamports (d : DuelSession) : string :=
  NilZero.string_of_int (Z.to_int (stakeAmount (player1 d))).

End Escrow.

(* ===================================================================== *)
(** ** The middleware ([middleware/auth.ts]) *)
(* ===================================================================== *)

Module Auth.

(** What a middleware does with a request: it hands it on, or it answers
    with a status code. *)
Inductive AuthOutcome :=
| AuthNext
| AuthMissing                   (* 401 'Missing X-Internal-Secret header' *)
| AuthInvalid.                  (* 403 'Invalid internal API key' *)

(** [requireInternalAuth]: the header is absent ([None]) or a string. *)
Definition requireInternalAuth (INTERNAL_API_KEY : string) (providedKey : option string)
  : AuthOutcome :=
  match providedKey with
  | None => AuthMissing
  | Some key =>
      if negb (Escrow.truthy_str key) then AuthMissing
      else if negb (String.eqb key INTERNAL_API_KEY) then AuthInvalid
      else AuthNext
  end.

(** An entry of [rateLimitMap]. *)
Record RateEntry := {
  count : Z;
  resetAt : Z }.

Inductive RateOutcome :=
| RateNext
| RateLimited (retryAfter : Z). (* 429 'Too many requests' *)

(** [Math.ceil(ms / 1000)] for a whole number of milliseconds. *)
Definition ceil_seconds (ms : Z) : Z := - ((- ms) / 1000).

(** The middleware made by [rateLimit(options)], for a request from [ip]
    at the instant [now].  The entry it finds or makes is counted up in
    place, so the map holds the new count whether the request passes or
    not. *)
Definition rateLimit (windowMs max : Z) (ip : option string) (now : Z)
    (rateLimitMap : gmap string RateEntry) : RateOutcome * gmap string RateEntry :=
  let key := default "unknown"%string ip in
  let fresh := {| count := 0; resetAt := now + windowMs |} in
  let entry :=
    match rateLimitMap !! key with
    | Some entry => if resetAt entry <? now then fresh else entry
    | None => fresh
    end in
  let entry' := {| count := count entry + 1; resetAt := resetAt entry |} in
  let rateLimitMap' := <[key := entry']> rateLimitMap in
  if max <? count entry'
  then (RateLimited (ceil_seconds (resetAt entry' - now)), rateLimitMap')
  else (RateNext, rateLimitMap').

(** The requests of one address at the instants [times], oldest first:
    the outcomes and the map they leave. *)
Fixpoint rateLimit_all (windowMs max : Z) (ip : option string) (times : list Z)
    (rateLimitMap : gmap string RateEntry) : list RateOutcome * gmap string RateEntry :=
  match times with
  | [] => ([], rateLimitMap)
  | now :: times' =>
      let '(o, m1) := rateLimit windowMs max ip now rateLimitMap in
      let '(os, m2) := rateLimit_all windowMs max ip times' m1 in
      (o :: os, m2)
  end.

(** The two middlewares in front of [/api], in the order the server
    mounts them: the rate limiter of a hundred requests a minute, then
    the key check. *)
Inductive GateOutcome :=
| GatePass
| GateStatus (code : Z).

Definition apiGate (INTERNAL_API_KEY : string) (ip providedKey : option string) (now : Z)
    (rateLimitMap : gmap string RateEntry) : GateOutcome * gmap string RateEntry :=
  let '(limited, m) := rateLimit (60 * 1000) 100 ip now rateLimitMap in
  match limited with
  | RateLimited _ => (GateStatus 429, m)
  | RateNext =>
      match requireInternalAuth INTERNAL_API_KEY providedKey with
      | AuthNext => (GatePass, m)
      | AuthMissing => (GateStatus 401, m)
      | AuthInvalid => (GateStatus 403, m)
      end
  end.

(** Requests to [/api] from one address, each with its instant and its
    key header. *)
Fixpoint apiGate_all (INTERNAL_API_KEY : string) (ip : option string)
    (requests : list (Z * option string)) (rateLimitMap : gmap string RateEntry)
  : list GateOutcome * gmap string RateEntry :=
  match requests with
  | [] => ([], rateLimitMap)
  | (now, providedKey) :: requests' =>
      let '(o, m1) := apiGate INTERNAL_API_KEY ip providedKey now rateLimitMap in
      let '(os, m2) := apiGate_all INTERNAL_API_KEY ip requests' m1 in
      (o :: os, m2)
  end.

End Auth.

(* ===================================================================== *)
(** ** The HTTP routes ([routes/duel.ts]) *)
(* ===================================================================== *)

(** The handlers are modelled from the point where the body of the
    request has passed its schema: they take the validated data. *)
Module Routes.
Import Escrow.

(** The [error] field of a response. *)
Inductive Message :=
| Engine (e : Error)            (* the [error] of the engine's result *)
| CannotDuelYourself            (* 'Cannot duel yourself' *)
| RouteDuelNotFound             (* 'Duel not found' *)
| InternalServerError.          (* 'Internal server error' *)

Record CreateDuelResponse := {
  cr_success : bool;
  cr_duelId : option string;
  cr_player1StealthId : option string;
  cr_player2StealthId : option string;
  cr_stakeAmountLamports : option string;
  cr_expiresAt : option Z;
  cr_error : option Message }.

Definition create_failure (m : Message) : CreateDuelResponse :=
  {| cr_success := false; cr_duelId := None; cr_player1StealthId := None;
     cr_player2StealthId := None; cr_stakeAmountLamports := None;
     cr_expiresAt := None; cr_error := Some m |}.


Section Handlers.
Variable hmac : string -> string.
Variable config : Config.t.
Variable backend : Backend.
Variable JSON_parse : string -> option ProofData.

(** [POST /duel/create], after validation: the status code, the body
    and the world. *)
Definition createRoute (newDuelId : string) (data : CreateDuelParams) (w : World)
  : Z * CreateDuelResponse * World :=
  if String.eqb (player1Wallet data) (player2Wallet data) then
    (400, create_failure CannotDuelYourself, w)
  else
    let '(result, w1) := createDuel hmac config newDuelId data w in
    match result with
    | CreateError e => (400, create_failure (Engine e), w1)
    | CreateThrew => (500, create_failure InternalServerError, w1)
    | CreateOk duel =>
        (201,
         {| cr_success := true;
            cr_duelId := Some (duelId duel);
            cr_player1StealthId := Some (stealthId (player1 duel));
            cr_player2StealthId := Some (stealthId (player2 duel));
            cr_stakeAmountLamports := Some (stakeAmountLamports duel);
            cr_expiresAt := Some (expiresAt duel);
            cr_error := None |},
         w1)
    end.


(** [GET /duel/dust-status]: the token asked for, the dust counted for
    it and whether the route says it can be swept.  The amount in display
    units, a formatted text, is left out. *)
Definition dustStatusRoute (query_token : option string) (w : World)
  : string * JS.number * bool :=
  let tok := str_or query_token "SOL" in
  let dustAmount := getAccumulatedDust tok w in
  let canSweep := JS.ge dustAmount (JS.Number 100000000) in
  (tok, dustAmount, canSweep).

(** [POST /duel/sweep-dust]: the status code and the engine's result. *)
Definition sweepDustRoute (body_token : option string) (w : World)
  : Z * SweepResult * World :=
  let tok := str_or body_token "SOL" in
  let '(result, w1) := sweepDustToTreasury config backend tok w in
  (if s_success result then 200 else 400, result, w1).

End Handlers.

End Routes.

(* ===================================================================== *)
(** ** The transfer client ([shadowwire-direct.ts]): hex encoding *)
(* ===================================================================== *)

Module ShadowWireDirect.

(** The digit of [Number.prototype.toString(16)] for a value below
    sixteen. *)
Definition hex_digit (n : nat) : ascii :=
  nth n (list_ascii_of_string "0123456789abcdef") "0"%char.

(** [byte.toString(16)]: one or two digits, no leading zero. *)
Definition toString16 (b : Byte.byte) : string :=
  let n := Byte.to_nat b in
  if (n <? 16)%nat then String (hex_digit n) ""
  else String (hex_digit (n / 16)) (String (hex_digit (n mod 16)) "").

(** [String.prototype.padStart(targetLength, padString)]. *)
Definition padStart (s : string) (targetLength : nat) (padString : string) : string :=
  let fill := (targetLength - String.length s)%nat in
  if (fill =? 0)%nat || String.eqb padString "" then s
  else (substring 0 fill (String.concat "" (replicate fill padString)) ++ s)%string.

(** [uint8ArrayToHex]: two lower-case digits a byte. *)
Definition uint8ArrayToHex (bytes : list Byte.byte) : string :=
  String.concat "" (map (fun byte => padStart (toString16 byte) 2 "0") bytes).

End ShadowWireDirect.

(* ===================================================================== *)
(** ** The accountability service ([accountability.ts]) *)
(* ===================================================================== *)

Module Accountability.

Record SettlementCommitment := {
  c_duelId : string;
  c_winnerStealthId : string;
  c_loserStealthId : string;
  c_gameServerSignature : string;
  c_timestamp : Z;
  c_version : Z }.

Record CommitmentRecord := {
  commitment : SettlementCommitment;
  commitmentHash : string;
  onChainTxSignature : option string;
  onChainSuccess : bool;
  recordedAt : Z }.

Record CommitmentResult := {
  cm_success : bool;
  cm_commitmentHash : option string;
  cm_onChainTxSignature : option string;
  cm_error : option string }.

(** The answer of [postCommitmentOnChain]. *)
Record OnChainResult := {
  oc_success : bool;
  oc_txSignature : option string;
  oc_error : option string }.

(** The service: its flag and its audit log, oldest record first. *)
Record t := {
  initialized : bool;
  auditLog : list CommitmentRecord }.

Definition COMMITMENT_VERSION : Z := 1.

Definition createCommitment (now : Z) (duelId winnerStealthId loserStealthId
    gameServerSignature : string) : SettlementCommitment :=
  {| c_duelId := duelId; c_winnerStealthId := winnerStealthId;
     c_loserStealthId := loserStealthId; c_gameServerSignature := gameServerSignature;
     c_timestamp := now; c_version := COMMITMENT_VERSION |}.

Section WithHash.
(** [createHash('sha256').update(data).digest('hex')] and
    [JSON.stringify] of a commitment. *)
Variable sha256 : string -> string.
Variable JSON_stringify : SettlementCommitment -> string.

Definition hashCommitment (c : SettlementCommitment) : string :=
  let data := JSON_stringify c in
  sha256 data.

Definition verifyCommitment (c : SettlementCommitment) (expectedHash : string) : bool :=
  let actualHash := hashCommitment c in
  String.eqb actualHash expectedHash.

(** [commitToSettlement]: [None] when [ensureInitialized] throws.
    [now] is the clock when the commitment is made, [posted] what the
    posting on chain answers, and [later] the clock when it has answered
    and the record is written. *)
Definition commitToSettlement (now later : Z) (posted : OnChainResult)
    (duelId winnerStealthId loserStealthId gameServerSignature : string)
    (postOnChain : bool) (s : t) : option CommitmentResult * t :=
  if negb (initialized s) then (None, s)
  else
    let c := createCommitment now duelId winnerStealthId loserStealthId
               gameServerSignature in
    let hash := hashCommitment c in
    let onChainResult :=
      if postOnChain then posted
      else {| oc_success := false; oc_txSignature := None; oc_error := None |} in
    let record :=
      {| commitment := c; commitmentHash := hash;
         onChainTxSignature := oc_txSignature onChainResult;
         onChainSuccess := oc_success onChainResult;
         recordedAt := later |} in
    (Some {| cm_success := true; cm_commitmentHash := Some hash;
             cm_onChainTxSignature := oc_txSignature onChainResult;
             cm_error := None |},
     {| initialized := initialized s; auditLog := auditLog s ++ [record] |}).

End WithHash.

(** [getCommitmentRecord]: the first record of the duel in the log. *)
Definition getCommitmentRecord (duelId : string) (s : t) : option CommitmentRecord :=
  find (fun record => String.eqb (c_duelId (commitment record)) duelId) (auditLog s).

Definition getAllRecords (s : t) : list CommitmentRecord := auditLog s.

Record Stats := {
  totalCommitments : nat;
  st_onChainSuccess : nat;
  onChainFailed : nat }.

Definition getStats (s : t) : Stats :=
  let ok := length (filter (fun r => onChainSuccess r = true) (auditLog s)) in
  {| totalCommitments := length (auditLog s);
     st_onChainSuccess := ok;
     onChainFailed := length (auditLog s) - ok |}.

End Accountability.

(* ===================================================================== *)
(** ** Properties of duels and worlds *)
(* ===================================================================== *)

(** SETTLED and REFUNDED, the statuses the state machine does not leave. *)
Definition terminal (s : DuelStatus) : Prop := s = SETTLED \/ s = REFUNDED.

Definition bothLocked (d : DuelSession) : bool :=
  stakeLocked (player1 d) && stakeLocked (player2 d).

(** Every stored duel still waiting for stakes has a stake missing, and no
    stored duel is FAILED. *)
Definition stakes_invariant (w : Escrow.World) : Prop :=
  forall id d, Escrow.stored id w = Some d ->
    (status d = PENDING_STAKES -> bothLocked d = false) /\ status d <> FAILED.

(** The lock, settle and refund requests. *)
Definition ordinary_request (r : Escrow.Request) : Prop :=
  match r with
  | Escrow.ReqLock _ _ _ | Escrow.ReqSettle _ _ _ _ | Escrow.ReqRefund _ => True
  | _ => False
  end.

(** A settle call that went through: it returned the payout (or failed
    only when converting the amounts of its answer). *)
Definition settled_by (r : Escrow.SettleResult) : Prop :=
  match r with
  | Escrow.SettleError _ => False
  | _ => True
  end.

(** The two counters of the store account for every entry: an entry
    counted as created is in the map, was counted as expired, or was
    overwritten or cleared. *)
Definition counters_consistent (s : MemoryStore.t) : Prop :=
  0 <= MemoryStore.duelsExpired s /\
  Z.of_nat (size (MemoryStore.duels s)) + MemoryStore.duelsExpired s
    <= MemoryStore.duelsCreated s.

(** One call of the transfer client, as the log records it. *)
Definition call_of (recipient : string) (amount : JS.number) (tok : string)
  : Escrow.TransferCall :=
  {| Escrow.recipientWallet := recipient; Escrow.amountLamports := amount;
     Escrow.transferToken := tok |}.

(** What no request changes in a participant: who it is and what it
    staked; and once its stake is locked, the record of the lock. *)
Definition same_participant (p p' : DuelParticipant) : Prop :=
  stealthId p' = stealthId p /\ characterId p' = characterId p /\
  characterName p' = characterName p /\ stakeAmount p' = stakeAmount p /\
  (stakeLocked p = true -> p' = p).

(** What no request changes in a duel: its terms. *)
Definition same_terms (d d' : DuelSession) : Prop :=
  duelId d' = duelId d /\ token d' = token d /\
  houseFeePercent d' = houseFeePercent d /\ rules d' = rules d /\
  createdAt d' = createdAt d /\ expiresAt d' = expiresAt d /\
  same_participant (player1 d) (player1 d') /\
  same_participant (player2 d) (player2 d').

(** The lock record of a participant agrees with its flag. *)
Definition lock_recorded (d : DuelSession) (p : DuelParticipant) : Prop :=
  if stakeLocked p
  then exists tx t, lockTxSignature p = Some tx /\ lockTimestamp p = Some t /\
                    createdAt d <= t <= updatedAt d
  else lockTxSignature p = None /\ lockTimestamp p = None.

(** A well-formed session stored under [id]. *)
Definition session_wf (cfg : Config.t) (id : string) (d : DuelSession) : Prop :=
  duelId d = id /\
  stakeAmount (player1 d) = stakeAmount (player2 d) /\
  houseFeePercent d = Config.HOUSE_FEE_PERCENT cfg /\
  expiresAt d = createdAt d + Config.escrowTimeoutMs cfg /\
  createdAt d <= updatedAt d /\
  lock_recorded d (player1 d) /\ lock_recorded d (player2 d) /\
  (status d = ACTIVE \/ status d = PENDING_SETTLEMENT \/ status d = SETTLED ->
   bothLocked d = true) /\
  (forall sid, winnerStealthId d = Some sid ->
     sid = stealthId (player1 d) \/ sid = stealthId (player2 d)) /\
  (status d = PENDING_STAKES ->
   winnerStealthId d = None /\ settlementTxSignatures d = None) /\
  (status d = SETTLED ->
   is_Some (winnerStealthId d) /\
   exists tx rest, settlementTxSignatures d = Some (tx :: rest) /\ (length rest <= 1)%nat) /\
  (stealthId (player1 d) = stealthId (player2 d) -> stakeLocked (player2 d) = false).

Definition world_wf (cfg : Config.t) (w : Escrow.World) : Prop :=
  forall id d, Escrow.stored id w = Some d ->
    session_wf cfg id d /\ updatedAt d <= Escrow.clock w.

(** No request of the list creates a duel under [id]. *)
Definition never_creates (id : string) (rs : list Escrow.Request) : Prop :=
  Forall (fun r => match r with
                   | Escrow.ReqCreate newId _ => newId <> id
                   | _ => True
                   end) rs.

(** The key of an address in the map of the rate limiter. *)
Definition rate_key (ip : option string) : string := default "unknown"%string ip.

(* ===================================================================== *)
(** ** Concrete runs *)
(* ===================================================================== *)

(** The fixtures of the concrete runs below.  [keyed] stands in for the
    keyed hash (any injective function does: the engine only compares its
    results); the configuration is the default one: a house fee of two
    percent and thirty minutes to lock the stakes. *)
Module Scenario.
Import Escrow.

Definition keyed (w : string) : string := ("stealth:" ++ w)%string.

Definition cfg : Config.t :=
  {| Config.HOUSE_FEE_PERCENT := JS.Number 2;
     Config.escrowTimeoutMs := 1800 * 1000;
     Config.treasuryWallet := "TreasuryWallet1111111111111111111111" |}.

Definition ok_result (k : nat) : TransferResult :=
  {| success := true; txSignature := Some ("tx" ++ NilZero.string_of_uint (Nat.to_uint k))%string; error := None |}.

Definition failed_result : TransferResult :=
  {| success := false; txSignature := None; error := Some "network error"%string |}.

(** A backend on which every transfer succeeds, and one that is down. *)
Definition up : Backend := {| outcome := ok_result; latency := fun _ => 150 |}.
Definition down : Backend := {| outcome := fun _ => failed_result; latency := fun _ => 150 |}.

(** The payment proofs of the runs are bare tx ids, not JSON objects. *)
Definition notJSON (s : string) : option ProofData := None.

Definition alice : string := "AliceWallet111111111111111111111111".
Definition bob : string := "BobWallet11111111111111111111111111".
Definition carol : string := "CarolWallet111111111111111111111111".

Definition params (p1 p2 : string) (stake : JS.number) (tok : string)
  : CreateDuelParams :=
  {| player1Wallet := p1; player2Wallet := p2;
     player1CharacterId := "char-1"; player2CharacterId := "char-2";
     player1Name := "One"; player2Name := "Two";
     stakeAmountSol := stake; param_token := Some tok; param_rules := None |}.

Definition duelA : string := "0123456789abcdef0123456789abcdef".
Definition duelB : string := "fedcba9876543210fedcba9876543210".

(** The process starts at some instant [start]. *)
Definition start : Z := 1700000000000.
Definition w0 : World := initial start.

(** [duelA] between Alice and Bob with both stakes locked. *)
Definition active_requests (stake : JS.number) (tok : string) : list Request :=
  [ ReqCreate duelA (params alice bob stake tok);
    ReqLock duelA alice "tx_p1";
    ReqLock duelA bob "tx_p2" ].

Definition go : list Request -> World -> World := run keyed cfg up notJSON.

(** 0.11 SOL, 100 USD1 and 80000.000000001 RADR as the JSON parser reads
    them. *)
Definition sol_0_11 : JS.number := JS.decimal 11 2.
Definition usd1_100 : JS.number := JS.Number 100.
Definition radr_80000 : JS.number := JS.decimal 80000000000001 9.

(** [duelA] with both stakes locked, and after its settlement. *)
Definition w_active : World := go (active_requests sol_0_11 "SOL") w0.
Definition w_settled : World :=
  go [ReqSettle duelA alice None CommitFailed] w_active.

(** [duelA] waiting for stakes, and with the stake of Alice only. *)
Definition w_created : World :=
  go [ReqCreate duelA (params alice bob sol_0_11 "SOL")] w0.
Definition w_one_locked : World := go [ReqLock duelA alice "tx_p1"] w_created.

(** Two settled USD1 duels of 100 USD1 each: both house fees went to the
    dust counter. *)
Definition w_usd1_dust : World :=
  go [ ReqCreate duelA (params alice bob usd1_100 "USD1");
       ReqLock duelA alice "tx_a1"; ReqLock duelA bob "tx_a2";
       ReqSettle duelA alice None CommitFailed;
       ReqCreate duelB (params alice carol usd1_100 "USD1");
       ReqLock duelB alice "tx_b1"; ReqLock duelB carol "tx_b2";
       ReqSettle duelB carol None CommitFailed ] w0.

(** [duelA] staked in RADR, 80000.000000001 RADR a side, both locked. *)
Definition w_radr_active : World := go (active_requests radr_80000 "RADR") w0.

(** A backend whose second and third transfers fail, and a run on it:
    a duel of 10 SOL a side is settled, the winner is paid, the treasury
    transfer of the house fee fails and the fee goes to the dust
    counter. *)
Definition flaky : Backend :=
  {| outcome := fun k => if ((k =? 1) || (k =? 2))%nat then failed_result else ok_result k;
     latency := fun _ => 150 |}.

Definition w_sol_dust : World :=
  run keyed cfg flaky notJSON
    (active_requests (JS.Number 10) "SOL" ++ [ReqSettle duelA alice None CommitFailed]) w0.

(** [duelA] staked in USD1, 100 USD1 a side (100000000 units), both
    locked. *)
Definition w_usd1_active : World := go (active_requests usd1_100 "USD1") w0.

(** A placeholder session, read where the store holds nothing. *)
Definition blank_participant : DuelParticipant :=
  {| stealthId := ""; characterId := ""; characterName := ""; stakeAmount := 0;
     stakeLocked := false; lockTxSignature := None; lockTimestamp := None |}.

Definition blank : DuelSession :=
  {| duelId := ""; status := FAILED; player1 := blank_participant;
     player2 := blank_participant; token := ""; houseFeePercent := JS.Number 0;
     rules := DEFAULT_RULES; createdAt := 0; updatedAt := 0; expiresAt := 0;
     winnerStealthId := None; settlementTxSignatures := None; combatSummary := None |}.

(** The duel stored under an id in a world of a run. *)
Definition duel_at (id : string) (w : World) : DuelSession := default blank (stored id w).

End Scenario.

(* ===================================================================== *)
(** ** Facts about binary64 rounding *)
(* ===================================================================== *)

Section RoundingFacts.
Import Rounding.

Lemma digits2_size (p : positive) : digits2_pos p = Pos.size p.
Proof. induction p as [p IH|p IH|]; simpl; congruence. Qed.

Lemma digits_pos (p : positive) : Z.pos (digits2_pos p) = digits (Z.pos p).
Proof.
  rewrite digits2_size. unfold digits.
  destruct p as [p|p|]; simpl; rewrite ?Pos2Z.inj_succ; lia.
Qed.

(** [digits z] is the [d] with [2^(d-1) <= z < 2^d]. *)
Lemma digits_bounds (z : Z) : 0 < z -> 2 ^ (digits z - 1) <= z < 2 ^ digits z.
Proof.
  intros Hz. unfold digits. replace (Z.log2 z + 1 - 1) with (Z.log2 z) by lia.
  replace (Z.log2 z + 1) with (Z.succ (Z.log2 z)) by lia.
  apply Z.log2_spec. exact Hz.
Qed.

Lemma digits_unique (z d : Z) : 2 ^ (d - 1) <= z < 2 ^ d -> 0 < z -> digits z = d.
Proof.
  intros H Hz. unfold digits.
  assert (0 <= d - 1).
  { destruct (Z.le_gt_cases 0 (d - 1)) as [|Hneg]; [done|].
    destruct (Z.eq_dec d 0) as [-> | Hd0]; [simpl in H; lia|].
    rewrite (Z.pow_neg_r 2 d) in H by lia. lia. }
  rewrite (Z.log2_unique z (d - 1)); [lia | lia |].
  replace (Z.succ (d - 1)) with d by lia. exact H.
Qed.

Lemma digits_ge1 (z : Z) : 0 < z -> 1 <= digits z.
Proof. intros Hz. unfold digits. pose proof (Z.log2_nonneg z). lia. Qed.

Lemma digits_shift (z j : Z) : 0 < z -> 0 <= j -> digits (z * 2 ^ j) = digits z + j.
Proof.
  intros Hz Hj. apply digits_unique; [|nia].
  pose proof (digits_bounds z Hz) as [H1 H2].
  pose proof (digits_ge1 z Hz).
  replace (digits z + j - 1) with (digits z - 1 + j) by lia.
  rewrite !Z.pow_add_r by lia.
  assert (0 < 2 ^ j) by (apply Z.pow_pos_nonneg; lia).
  split; nia.
Qed.

(** *** Shifting a mantissa to the right *)

Lemma shr_1_locates (N D : Z) (mrs : shr_record) :
  0 <= N -> 0 < D -> locates N D mrs -> locates N (D * 2) (shr_1 mrs).
Proof.
  intros HN HD [Hm Hl].
  pose proof (Z.div_mod N D ltac:(lia)) as Hdm.
  pose proof (Z.mod_pos_bound N D HD) as Hr.
  assert (0 <= N / D) as Hq by (apply Z.div_pos; lia).
  set (q := N / D) in *. set (r := N mod D) in *.
  assert (N / (D * 2) = q / 2) as Hq2.
  { rewrite <- Z.div_div by lia. reflexivity. }
  assert (N mod (D * 2) = D * (q mod 2) + r) as Hr2.
  { symmetry. apply (Z.mod_unique_pos N (D * 2) (q / 2)).
    - pose proof (Z.mod_pos_bound q 2 ltac:(lia)). nia.
    - pose proof (Z.div_mod q 2 ltac:(lia)). nia. }
  unfold locates, loc_of in *. fold r in Hl. rewrite Hq2, Hr2.
  destruct mrs as [m rb sb]; simpl in Hm, Hl |- *. subst m.
  assert (orb rb sb = negb (r =? 0)) as Hs.
  { destruct (r =? 0) eqn:E; destruct rb, sb; simpl in Hl; try done;
      destruct (2 * r ?= D); done. }
  rewrite Hs. clear Hl Hs.
  destruct q as [|[p|p|]|p] eqn:Eq; try lia; simpl.
  - (* q = 0 *)
    rewrite Z.mul_0_r, Z.add_0_l.
    destruct (r =? 0) eqn:E; simpl; [done|].
    split; [done|]. apply Z.eqb_neq in E.
    assert (2 * r < D * 2) by lia. by rewrite (proj2 (Z.compare_lt_iff _ _)).
  - (* q = 2p + 1 *)
    assert (Z.pos p~1 mod 2 = 1) as -> by (rewrite Pos2Z.inj_xI, Z.add_comm, Z.mul_comm;
      rewrite Z.mod_add by lia; reflexivity).
    assert (Z.pos p~1 / 2 = Z.pos p) as -> by (rewrite Pos2Z.inj_xI, Z.add_comm, Z.mul_comm;
      rewrite Z.div_add by lia; reflexivity).
    split; [done|].
    destruct (r =? 0) eqn:E; simpl.
    + apply Z.eqb_eq in E. rewrite E.
      assert ((D * 1 + 0 =? 0) = false) as -> by (apply Z.eqb_neq; lia).
      by rewrite (proj2 (Z.compare_eq_iff (2 * (D * 1 + 0)) (D * 2))) by lia.
    + apply Z.eqb_neq in E.
      assert ((D * 1 + r =? 0) = false) as -> by (apply Z.eqb_neq; lia).
      by rewrite (proj2 (Z.compare_gt_iff (2 * (D * 1 + r)) (D * 2))) by lia.
  - (* q = 2p *)
    assert (Z.pos p~0 mod 2 = 0) as -> by (rewrite Pos2Z.inj_xO, Z.mul_comm;
      apply Z.mod_mul; lia).
    assert (Z.pos p~0 / 2 = Z.pos p) as -> by (rewrite Pos2Z.inj_xO, Z.mul_comm;
      apply Z.div_mul; lia).
    split; [done|]. rewrite Z.mul_0_r, Z.add_0_l.
    destruct (r =? 0) eqn:E; simpl; [done|]. apply Z.eqb_neq in E.
    by rewrite (proj2 (Z.compare_lt_iff (2 * r) (D * 2))) by lia.
  - (* q = 1 *)
    change (1 mod 2) with 1. change (1 / 2) with 0.
    split; [done|].
    destruct (r =? 0) eqn:E; simpl.
    + apply Z.eqb_eq in E. rewrite E.
      assert ((D * 1 + 0 =? 0) = false) as -> by (apply Z.eqb_neq; lia).
      by rewrite (proj2 (Z.compare_eq_iff (2 * (D * 1 + 0)) (D * 2))) by lia.
    + apply Z.eqb_neq in E.
      assert ((D * 1 + r =? 0) = false) as -> by (apply Z.eqb_neq; lia).
      by rewrite (proj2 (Z.compare_gt_iff (2 * (D * 1 + r)) (D * 2))) by lia.
Qed.

Lemma iter_shr_1_locates (p : positive) :
  forall (N D : Z) (mrs : shr_record),
    0 <= N -> 0 < D -> locates N D mrs ->
    locates N (D * 2 ^ Z.pos p) (SpecFloat.iter_pos shr_1 p mrs).
Proof.
  induction p as [p IH|p IH|]; intros N D mrs HN HD H; simpl.
  - assert (0 < 2 ^ Z.pos p) by (apply Z.pow_pos_nonneg; lia).
    replace (D * 2 ^ Z.pos p~1) with (D * 2 * 2 ^ Z.pos p * 2 ^ Z.pos p).
    + apply IH; [lia | nia |]. apply IH; [lia | lia |]. by apply shr_1_locates.
    + replace (Z.pos p~1) with (Z.pos p + Z.pos p + 1) by lia.
      rewrite !Z.pow_add_r by lia. change (2 ^ 1) with 2. ring.
  - assert (0 < 2 ^ Z.pos p) by (apply Z.pow_pos_nonneg; lia).
    replace (D * 2 ^ Z.pos p~0) with (D * 2 ^ Z.pos p * 2 ^ Z.pos p).
    + apply IH; [lia | nia |]. by apply IH.
    + replace (Z.pos p~0) with (Z.pos p + Z.pos p) by lia.
      rewrite !Z.pow_add_r by lia. ring.
  - change (2 ^ 1) with 2. by apply shr_1_locates.
Qed.

Lemma shr_locates (N D n e : Z) (mrs : shr_record) :
  0 <= N -> 0 < D -> 0 <= n -> locates N D mrs ->
  locates N (D * 2 ^ n) (fst (shr mrs e n)) /\ snd (shr mrs e n) = e + n.
Proof.
  intros HN HD Hn H. destruct n as [|p|p]; try lia; simpl.
  - rewrite Z.mul_1_r. split; [done | lia].
  - split; [|done]. by apply iter_shr_1_locates.
Qed.

Lemma loc_of_shr_record_of_loc (m : Z) (l : location) :
  loc_of_shr_record (shr_record_of_loc m l) = l /\ shr_m (shr_record_of_loc m l) = m.
Proof. by destruct l as [|[]]. Qed.

Lemma round_locates (N D : Z) (mrs : shr_record) :
  0 < D -> locates N D mrs ->
  round_nearest_even (shr_m mrs) (loc_of_shr_record mrs) = rne N D.
Proof.
  intros HD [-> ->]. unfold loc_of, rne.
  pose proof (Z.mod_pos_bound N D HD).
  destruct (N mod D =? 0) eqn:E; simpl.
  - apply Z.eqb_eq in E. rewrite E.
    by rewrite (proj2 (Z.compare_lt_iff (2 * 0) D)) by lia.
  - by destruct (2 * (N mod D) ?= D).
Qed.

(** The rounded quotient is within one half of the exact one. *)
Lemma rne_bounds (N D : Z) :
  0 < D -> 2 * N - D <= 2 * D * rne N D <= 2 * N + D.
Proof.
  intros HD. unfold rne.
  pose proof (Z.div_mod N D ltac:(lia)) as Hdm.
  pose proof (Z.mod_pos_bound N D HD) as Hr.
  set (q := N / D) in *. set (r := N mod D) in *.
  assert (2 * D * (q + 1) = 2 * (D * q) + 2 * D) as Hq1 by ring.
  assert (2 * D * q = 2 * (D * q)) as Hq0 by ring.
  destruct (2 * r ?= D) eqn:E.
  - pose proof (proj1 (Z.compare_eq_iff _ _) E) as E'. destruct (Z.even q); rewrite ?Hq1, ?Hq0; lia.
  - pose proof (proj1 (Z.compare_lt_iff _ _) E) as E'. rewrite Hq0; lia.
  - pose proof (proj1 (Z.compare_gt_iff _ _) E) as E'. rewrite Hq1; lia.
Qed.

Lemma rne_exact (q D : Z) : 0 < D -> rne (q * D) D = q.
Proof.
  intros HD. unfold rne. rewrite Z.mod_mul, Z.div_mul by lia.
  by rewrite (proj2 (Z.compare_lt_iff (2 * 0) D)) by lia.
Qed.

(** Rounding is monotone around integers: a quotient between [a] and [b]
    rounds to a value between [a] and [b]. *)
Lemma rne_between (N D a b : Z) :
  0 < D -> a * D <= N <= b * D -> a <= rne N D <= b.
Proof.
  intros HD [Ha Hb]. unfold rne.
  pose proof (Z.div_mod N D ltac:(lia)).
  pose proof (Z.mod_pos_bound N D HD).
  assert (a <= N / D) by (apply Z.div_le_lower_bound; lia).
  assert (N / D <= b) by (apply Z.div_le_upper_bound; lia).
  destruct (2 * (N mod D) ?= D) eqn:E.
  - pose proof (proj1 (Z.compare_eq_iff _ _) E) as E'. destruct (Z.even (N / D)); [lia|].
    assert (N / D <> b) by nia. lia.
  - lia.
  - pose proof (proj1 (Z.compare_gt_iff _ _) E) as E'. assert (N / D <> b) by nia. lia.
Qed.

End RoundingFacts.

Section RoundAux.
Import Rounding JS.

Lemma Zdigits2_digits (m : Z) : 0 < m -> Zdigits2 m = digits m.
Proof. destruct m as [|p|p]; try lia. intros _. apply digits_pos. Qed.

Lemma fexp_normal (d : Z) : -1021 <= d -> fexp prec emax d = d - 53.
Proof. intros H. unfold fexp, SpecFloat.emin, prec, emax. lia. Qed.

(** The core of every arithmetic operation: a positive mantissa [m] of
    [53 + n] digits, which is the integer part of [N / D], is cut to 53
    digits by rounding [N / (D * 2^n)] to nearest even; when the rounding
    carries into a 54th digit the mantissa is halved once more. *)
Lemma round_aux_spec (sx : bool) (N D m e n : Z) (l : location) :
  0 <= N -> 0 < D -> m = N / D -> l = loc_of N D ->
  0 < m -> digits m = 53 + n -> 0 <= n ->
  -1074 <= e + n -> e + n + 1 <= 971 ->
  let r := rne N (D * 2 ^ n) in
  2 ^ 52 <= r <= 2 ^ 53 /\
  binary_round_aux prec emax sx m e l =
    if r <? 2 ^ 53 then S754_finite sx (Z.to_pos r) (e + n)
    else S754_finite sx (Z.to_pos (2 ^ 52)) (e + n + 1).
Proof.
  intros HN HD Hm Hl Hm0 Hdig Hn Hlo Hhi r.
  assert (0 < 2 ^ n) as H2n by (apply Z.pow_pos_nonneg; lia).
  assert (2 ^ 52 <= r <= 2 ^ 53) as Hr.
  { apply rne_between; [nia|].
    pose proof (digits_bounds m Hm0) as [Hb1 Hb2]. rewrite Hdig in Hb1, Hb2.
    replace (53 + n - 1) with (52 + n) in Hb1 by lia.
    rewrite Z.pow_add_r in Hb1, Hb2 by lia.
    pose proof (Z.div_mod N D ltac:(lia)) as Hdm.
    pose proof (Z.mod_pos_bound N D HD) as Hmod.
    rewrite <- Hm in Hdm. split; nia. }
  split; [exact Hr|].
  unfold binary_round_aux, shr_fexp.
  rewrite (Zdigits2_digits m Hm0), Hdig.
  rewrite fexp_normal by lia.
  replace (53 + n + e - 53 - e) with n by lia.
  destruct (loc_of_shr_record_of_loc m l) as [Hl1 Hl2].
  destruct (shr_locates N D n e (shr_record_of_loc m l) HN HD Hn) as [Hloc He].
  { split; [by rewrite Hl2 | by rewrite Hl1]. }
  destruct (shr (shr_record_of_loc m l) e n) as [mrs' e']. simpl in Hloc, He. subst e'.
  rewrite (round_locates N (D * 2 ^ n) mrs') by (nia || exact Hloc).
  fold r. rewrite (Zdigits2_digits r) by lia.
  destruct (r <? 2 ^ 53) eqn:Er.
  - apply Z.ltb_lt in Er.
    rewrite (digits_unique r 53) by (simpl; lia).
    rewrite fexp_normal by lia.
    replace (53 + (e + n) - 53 - (e + n)) with 0 by lia. simpl.
    destruct r as [|p|p]; try lia. simpl.
    by rewrite (proj2 (Z.leb_le (e + n) (emax - prec))) by (unfold emax, prec; lia).
  - apply Z.ltb_ge in Er. assert (r = 2 ^ 53) as -> by lia.
    rewrite (digits_unique (2 ^ 53) 54) by (simpl; lia).
    rewrite fexp_normal by lia.
    replace (54 + (e + n) - 53 - (e + n)) with 1 by lia. simpl.
    by rewrite (proj2 (Z.leb_le (e + n + 1) (emax - prec))) by (unfold emax, prec; lia).
Qed.

Lemma loc_of_1 (N : Z) : loc_of N 1 = loc_Exact.
Proof. unfold loc_of. by rewrite Z.mod_1_r. Qed.

Lemma canonical_mantissa_bounds (z : Z) :
  0 < z < 2 ^ 53 ->
  digits z <= 53 /\ 2 ^ 52 <= z * 2 ^ (53 - digits z) < 2 ^ 53.
Proof.
  intros [Hz Hlt]. pose proof (digits_bounds z Hz) as [H1 H2].
  pose proof (digits_ge1 z Hz) as Hd.
  assert (digits z <= 53) as Hle.
  { destruct (Z.le_gt_cases (digits z) 53) as [|Hgt]; [done|].
    assert (2 ^ 53 <= 2 ^ (digits z - 1)) by (apply Z.pow_le_mono_r; lia). lia. }
  split; [exact Hle|].
  assert (0 < 2 ^ (53 - digits z)) as Hp by (apply Z.pow_pos_nonneg; lia).
  replace (2 ^ 52) with (2 ^ (digits z - 1) * 2 ^ (53 - digits z))
    by (rewrite <- Z.pow_add_r by lia; f_equal; lia).
  replace (2 ^ 53) with (2 ^ digits z * 2 ^ (53 - digits z))
    by (rewrite <- Z.pow_add_r by lia; f_equal; lia).
  split; nia.
Qed.

(** A positive integer below [2^53], given with [j] extra binary zeros and
    at least 53 digits in all, rounds to its double without error. *)
Lemma round_aux_int (z j : Z) :
  0 < z < 2 ^ 53 -> 0 <= j <= 1000 -> 53 <= digits z + j ->
  binary_round_aux prec emax false (z * 2 ^ j) (- j) loc_Exact = canonical z.
Proof.
  intros Hz Hj Hd.
  destruct (canonical_mantissa_bounds z Hz) as [Hdz Hm].
  pose proof (digits_ge1 z ltac:(lia)) as Hd1.
  assert (0 < 2 ^ j) as H2j by (apply Z.pow_pos_nonneg; lia).
  set (n := digits z + j - 53).
  assert (z * 2 ^ j = z * 2 ^ (53 - digits z) * 2 ^ n) as Hsplit.
  { rewrite <- Z.mul_assoc, <- Z.pow_add_r by lia. do 2 f_equal. lia. }
  assert (0 <= z * 2 ^ j) as HN by nia.
  assert (z * 2 ^ j = z * 2 ^ j / 1) as Hq by (by rewrite Z.div_1_r).
  assert (loc_Exact = loc_of (z * 2 ^ j) 1) as Hl by (by rewrite loc_of_1).
  assert (0 < z * 2 ^ j) as Hpos by nia.
  assert (digits (z * 2 ^ j) = 53 + n) as Hdig
    by (rewrite digits_shift by lia; unfold n; lia).
  assert (0 <= n) as Hn by (unfold n; lia).
  assert (-1074 <= - j + n) as Hlo by (unfold n; lia).
  assert (- j + n + 1 <= 971) as Hhi by (unfold n; lia).
  destruct (round_aux_spec false (z * 2 ^ j) 1 (z * 2 ^ j) (- j) n loc_Exact
              HN ltac:(lia) Hq Hl Hpos Hdig Hn Hlo Hhi) as [_ Hr].
  rewrite Hr. rewrite Z.mul_1_l. rewrite Hsplit.
  rewrite rne_exact by (apply Z.pow_pos_nonneg; lia).
  rewrite (proj2 (Z.ltb_lt _ _)) by lia.
  unfold canonical. f_equal. unfold n. lia.
Qed.

Lemma pos_iter_xO (m d : positive) :
  Z.pos (Pos.iter xO m d) = Z.pos m * 2 ^ Z.pos d.
Proof.
  induction d as [|d IH] using Pos.peano_ind.
  - simpl. lia.
  - rewrite Pos.iter_succ, Pos2Z.inj_xO, IH, Pos2Z.inj_succ.
    rewrite Z.pow_succ_r by lia. ring.
Qed.

Lemma binary_round_int (z j : Z) :
  0 < z < 2 ^ 53 -> 0 <= j <= 1000 ->
  binary_round prec emax false (Z.to_pos (z * 2 ^ j)) (- j) = canonical z.
Proof.
  intros Hz Hj.
  destruct (canonical_mantissa_bounds z Hz) as [Hdz Hm].
  pose proof (digits_ge1 z ltac:(lia)) as Hd1.
  assert (0 < 2 ^ j) as H2j by (apply Z.pow_pos_nonneg; lia).
  assert (0 < z * 2 ^ j) as Hpos by nia.
  unfold binary_round.
  rewrite digits_pos, Z2Pos.id by lia.
  rewrite digits_shift by lia.
  rewrite fexp_normal by lia.
  unfold shl_align.
  replace (digits z + j + - j - 53 - - j) with (digits z + j - 53) by lia.
  destruct (digits z + j - 53) as [|p|p] eqn:E.
  - rewrite Z2Pos.id by lia. apply round_aux_int; lia.
  - rewrite Z2Pos.id by lia. apply round_aux_int; lia.
  - rewrite pos_iter_xO, Z2Pos.id by lia.
    replace (digits z + j + - j - 53) with (- (53 - digits z)) by lia.
    replace (z * 2 ^ j * 2 ^ Z.pos p) with (z * 2 ^ (53 - digits z)).
    + apply round_aux_int; lia.
    + rewrite <- Z.mul_assoc, <- Z.pow_add_r by lia. do 2 f_equal. lia.
Qed.

(** [Number] on the integers below [2^53]. *)
Lemma Number_0 : Number 0 = S754_zero false.
Proof. reflexivity. Qed.

Lemma Number_canonical (z : Z) : 0 < z < 2 ^ 53 -> Number z = canonical z.
Proof.
  intros Hz. unfold Number, binary_normalize.
  destruct z as [|p|p]; try lia.
  pose proof (binary_round_int (Z.pos p) 0 Hz ltac:(lia)) as H.
  rewrite Z.mul_1_r in H. exact H.
Qed.

End RoundAux.

Section ExactArithmetic.
Import Rounding JS.

(** Products of integers that stay below [2^53] are exact. *)
Lemma mul_Number (x y : Z) :
  0 <= x < 2 ^ 53 -> 0 <= y < 2 ^ 53 -> x * y < 2 ^ 53 ->
  mul (Number x) (Number y) = Number (x * y).
Proof.
  intros [Hx Hxb] [Hy Hyb] Hxy.
  destruct (Z.eq_dec y 0) as [-> | Hy0].
  { rewrite Z.mul_0_r, Number_0.
    destruct (Z.eq_dec x 0) as [-> | Hx0]; [reflexivity|].
    by rewrite (Number_canonical x) by lia. }
  destruct (Z.eq_dec x 0) as [-> | Hx0].
  { rewrite Z.mul_0_l, Number_0. by rewrite (Number_canonical y) by lia. }
  assert (0 < x < 2 ^ 53) as Hx' by nia.
  assert (0 < y < 2 ^ 53) as Hy' by nia.
  assert (0 < x * y < 2 ^ 53) as Hxy' by nia.
  rewrite (Number_canonical x Hx'), (Number_canonical y Hy'), (Number_canonical _ Hxy').
  destruct (canonical_mantissa_bounds x Hx') as [Hdx Hmx].
  destruct (canonical_mantissa_bounds y Hy') as [Hdy Hmy].
  pose proof (digits_ge1 x ltac:(lia)) as Hd1.
  pose proof (digits_ge1 y ltac:(lia)) as Hd2.
  set (cz := canonical (x * y)).
  unfold mul, SFmul, canonical. cbv beta iota. simpl xorb. subst cz.
  set (j := (53 - digits x) + (53 - digits y)).
  assert (0 < 2 ^ (53 - digits x)) by (apply Z.pow_pos_nonneg; lia).
  assert (0 < 2 ^ (53 - digits y)) by (apply Z.pow_pos_nonneg; lia).
  assert (Z.pos (Z.to_pos (x * 2 ^ (53 - digits x)) * Z.to_pos (y * 2 ^ (53 - digits y)))
          = x * y * 2 ^ j) as ->.
  { rewrite Pos2Z.inj_mul, !Z2Pos.id by lia. unfold j.
    rewrite Z.pow_add_r by lia. ring. }
  replace (digits x - 53 + (digits y - 53)) with (- j) by (unfold j; lia).
  apply round_aux_int; [lia | unfold j; lia |].
  (* the product of two 53-digit mantissas has at least 105 digits *)
  assert (0 <= j) by (unfold j; lia).
  rewrite <- digits_shift by lia.
  destruct (Z.le_gt_cases 53 (digits (x * y * 2 ^ j))) as [|Hlt]; [done|].
  assert (0 < x * y * 2 ^ j) as Hp.
  { assert (0 < 2 ^ j) by (apply Z.pow_pos_nonneg; lia). nia. }
  pose proof (digits_bounds _ Hp) as [_ Hub].
  assert (2 ^ digits (x * y * 2 ^ j) <= 2 ^ 52) by (apply Z.pow_le_mono_r; lia).
  assert (x * y * 2 ^ j = x * 2 ^ (53 - digits x) * (y * 2 ^ (53 - digits y))) as Hprod.
  { unfold j. rewrite Z.pow_add_r by lia. ring. }
  assert (2 ^ 52 * 2 ^ 52 <= x * y * 2 ^ j) by (rewrite Hprod; nia).
  assert (2 ^ 52 < 2 ^ 52 * 2 ^ 52) by (vm_compute; reflexivity).
  lia.
Qed.

(** Differences of integers below [2^53] are exact. *)
Lemma sub_Number (x y : Z) :
  0 <= y <= x -> x < 2 ^ 53 -> sub (Number x) (Number y) = Number (x - y).
Proof.
  intros [Hy Hyx] Hx.
  destruct (Z.eq_dec y 0) as [-> | Hy0].
  { rewrite Z.sub_0_r, Number_0.
    destruct (Z.eq_dec x 0) as [-> | Hx0]; [reflexivity|].
    by rewrite (Number_canonical x) by lia. }
  assert (0 < x < 2 ^ 53) as Hx' by lia.
  assert (0 < y < 2 ^ 53) as Hy' by lia.
  rewrite (Number_canonical x Hx'), (Number_canonical y Hy').
  destruct (canonical_mantissa_bounds x Hx') as [Hdx Hmx].
  destruct (canonical_mantissa_bounds y Hy') as [Hdy Hmy].
  pose proof (digits_ge1 x ltac:(lia)) as Hd1.
  pose proof (digits_ge1 y ltac:(lia)) as Hd2.
  assert (digits y <= digits x) as Hdd.
  { destruct (Z.le_gt_cases (digits y) (digits x)) as [|Hgt]; [done|].
    pose proof (digits_bounds x ltac:(lia)) as [_ Hbx].
    pose proof (digits_bounds y ltac:(lia)) as [Hby _].
    assert (2 ^ digits x <= 2 ^ (digits y - 1)) by (apply Z.pow_le_mono_r; lia). lia. }
  unfold sub, SFsub, canonical, cond_Zopp, shl_align.
  rewrite Z.min_r by lia.
  replace (digits y - 53 - (digits y - 53)) with 0 by lia.
  set (j := 53 - digits y).
  assert (0 < 2 ^ (53 - digits x)) by (apply Z.pow_pos_nonneg; lia).
  assert (0 < 2 ^ j) by (apply Z.pow_pos_nonneg; unfold j; lia).
  assert (Z.pos (fst (match digits y - 53 - (digits x - 53) with
                      | Z.neg d => (Pos.iter xO (Z.to_pos (x * 2 ^ (53 - digits x))) d,
                                    digits y - 53)
                      | _ => (Z.to_pos (x * 2 ^ (53 - digits x)), digits x - 53)
                      end)) = x * 2 ^ j) as ->.
  { destruct (digits y - 53 - (digits x - 53)) as [|p|p] eqn:E; try lia; simpl fst.
    - rewrite Z2Pos.id by lia. unfold j. do 2 f_equal. lia.
    - rewrite pos_iter_xO, Z2Pos.id by lia.
      rewrite <- Z.mul_assoc, <- Z.pow_add_r by lia. unfold j. do 2 f_equal. lia. }
  simpl fst. rewrite Z2Pos.id by (fold j; lia). fold j.
  replace (x * 2 ^ j - y * 2 ^ j) with ((x - y) * 2 ^ j) by ring.
  replace (digits y - 53) with (- j) by (unfold j; lia).
  destruct (Z.eq_dec x y) as [-> | Hne].
  { rewrite Z.sub_diag. simpl. reflexivity. }
  assert (0 < x - y < 2 ^ 53) as Hz by lia.
  rewrite (Number_canonical _ Hz).
  unfold binary_normalize.
  assert (0 < (x - y) * 2 ^ j) as Hp by nia.
  destruct ((x - y) * 2 ^ j) as [|p|p] eqn:E; try lia.
  rewrite <- (binary_round_int (x - y) j Hz) by (unfold j; lia).
  by rewrite E.
Qed.

(** [BigInt] reads back the integers below [2^53]. *)
Lemma BigInt_Number (z : Z) : 0 <= z < 2 ^ 53 -> BigInt (Number z) = Some z.
Proof.
  intros [Hz Hlt].
  destruct (Z.eq_dec z 0) as [-> | Hz0]; [reflexivity|].
  assert (0 < z < 2 ^ 53) as Hz' by lia.
  rewrite (Number_canonical z Hz'). unfold canonical, BigInt, floorZ.
  destruct (canonical_mantissa_bounds z Hz') as [Hdz Hm].
  pose proof (digits_ge1 z ltac:(lia)) as Hd1.
  assert (0 < 2 ^ (53 - digits z)) by (apply Z.pow_pos_nonneg; lia).
  rewrite Z2Pos.id by lia.
  destruct (0 <=? digits z - 53) eqn:E.
  - apply Z.leb_le in E. replace (digits z) with 53 by lia. simpl. f_equal. lia.
  - replace (- (digits z - 53)) with (53 - digits z) by lia.
    rewrite Z.mod_mul, Z.div_mul by lia. reflexivity.
Qed.

End ExactArithmetic.

Section PayoutExact.
Import Rounding JS.

Lemma quotient_between (r V q : Z) : 0 < V -> q * V <= r < (q + 1) * V -> r / V = q.
Proof.
  intros HV [H1 H2]. symmetry. apply (Z.div_unique_pos r V q (r - q * V)); lia.
Qed.

(** The deposit multiplier is the double just below 0.995:
    [200 * 8962163258467287 = 199 * 2^53 - 8]. *)
Lemma depositFeeMultiplier_value :
  Payout.depositFeeMultiplier = S754_finite false 8962163258467287 (-53).
Proof. vm_compute. reflexivity. Qed.

(** The rounded product [S * a * M / U] of a stake and the multiplier,
    cut at [V], is the exact [floor (S * 0.995)]: the stake is small enough
    for the rounding error and the error of the multiplier to stay below
    the distance 0.005 between [S * 0.995] and the next integer. *)
Lemma deposit_arith (S a U V r : Z) :
  0 < S -> 128 <= a -> S * a < 2 ^ 53 ->
  2 ^ 52 <= U <= 2 ^ 53 -> 0 < V -> U * V = 2 ^ 53 * a ->
  2 * (S * a * 8962163258467287) - U <= 2 * U * r
    <= 2 * (S * a * 8962163258467287) + U ->
  (S * 995 / 1000) * V <= r < (S * 995 / 1000 + 1) * V.
Proof.
  intros HS Ha HSa HU HV HUV [Hlo Hhi].
  pose proof (Z.div_mod (S * 995) 1000 ltac:(lia)) as Hdm.
  pose proof (Z.mod_pos_bound (S * 995) 1000 ltac:(lia)) as Hr.
  set (n0 := S * 995 / 1000) in *.
  assert (200 * n0 <= 199 * S <= 200 * n0 + 199) as Hn0 by lia.
  change (2 ^ 53) with 9007199254740992 in *.
  change (2 ^ 52) with 4503599627370496 in *.
  set (X := S * a) in *.
  assert (U * (n0 * V) = 9007199254740992 * (a * n0)) as HT
    by (rewrite Z.mul_comm, <- Z.mul_assoc, (Z.mul_comm V U), HUV; ring).
  assert (200 * (a * n0) <= 199 * X <= 200 * (a * n0) + 199 * a) as HX
    by (unfold X; nia).
  split.
  - destruct (Z.le_gt_cases (n0 * V) r) as [|Hgt]; [assumption | exfalso].
    assert (r + 1 <= n0 * V) as H1 by lia.
    assert (U * (r + 1) <= U * (n0 * V)) as H2
      by (apply Z.mul_le_mono_nonneg_l; lia).
    lia.
  - destruct (Z.lt_ge_cases r ((n0 + 1) * V)) as [|Hge]; [assumption | exfalso].
    assert (U * ((n0 + 1) * V) <= U * r) as H2
      by (apply Z.mul_le_mono_nonneg_l; lia).
    replace (U * ((n0 + 1) * V)) with (U * (n0 * V) + U * V) in H2 by ring.
    lia.
Qed.

(** [Math.floor] of a positive finite number with a negative exponent. *)
Lemma Math_floor_finite (p : positive) (e : Z) :
  e < 0 -> Math_floor (S754_finite false p e) = Number (Z.pos p / 2 ^ (- e)).
Proof.
  intros He. unfold Math_floor, floorZ, Number.
  by rewrite (proj2 (Z.leb_gt 0 e)) by lia.
Qed.

(** The digits of the product of two 53-digit mantissas. *)
Lemma digits_product (a b : Z) :
  2 ^ 52 <= a < 2 ^ 53 -> 2 ^ 52 <= b < 2 ^ 53 ->
  105 <= digits (a * b) <= 106.
Proof.
  intros Ha Hb.
  assert (0 < a * b) as Hp by nia.
  pose proof (digits_bounds (a * b) Hp) as [H1 H2].
  assert (2 ^ 104 <= a * b) by (change (2 ^ 104) with (2 ^ 52 * 2 ^ 52); nia).
  assert (a * b < 2 ^ 106) by (change (2 ^ 106) with (2 ^ 53 * 2 ^ 53); nia).
  split.
  - destruct (Z.le_gt_cases 105 (digits (a * b))) as [|Hlt]; [done|].
    assert (2 ^ digits (a * b) <= 2 ^ 104) by (apply Z.pow_le_mono_r; lia). lia.
  - destruct (Z.le_gt_cases (digits (a * b)) 106) as [|Hgt]; [done|].
    assert (2 ^ 106 <= 2 ^ (digits (a * b) - 1)) by (apply Z.pow_le_mono_r; lia). lia.
Qed.

(** The deposit in escrow, for stakes below [2^46]. *)
Lemma deposit_exact (S : Z) :
  0 <= S < 2 ^ 46 ->
  Math_floor (mul (Number S) Payout.depositFeeMultiplier) = Number (S * 995 / 1000).
Proof.
  intros [HS0 HS].
  destruct (Z.eq_dec S 0) as [-> | HSn]; [by vm_compute|].
  assert (0 < S < 2 ^ 53) as HS' by lia.
  rewrite depositFeeMultiplier_value, (Number_canonical S HS').
  destruct (canonical_mantissa_bounds S HS') as [Hd Hm].
  pose proof (digits_ge1 S ltac:(lia)) as Hd1.
  pose proof (digits_bounds S ltac:(lia)) as [Hb1 Hb2].
  assert (digits S <= 46) as Hd46.
  { destruct (Z.le_gt_cases (digits S) 46) as [|Hgt]; [done|].
    assert (2 ^ 46 <= 2 ^ (digits S - 1)) by (apply Z.pow_le_mono_r; lia). lia. }
  set (a := 2 ^ (53 - digits S)) in *.
  assert (128 <= a) as Ha.
  { unfold a. change 128 with (2 ^ 7). apply Z.pow_le_mono_r; lia. }
  unfold mul, SFmul, canonical. fold a. simpl xorb.
  set (M := 8962163258467287).
  assert (Z.pos (Z.to_pos (S * a) * 8962163258467287) = S * a * M) as ->
    by (rewrite Pos2Z.inj_mul, Z2Pos.id by lia; reflexivity).
  assert (2 ^ 52 <= M < 2 ^ 53) as HM by (unfold M; split; by vm_compute).
  pose proof (digits_product (S * a) M Hm HM) as Hdp.
  set (N := S * a * M) in *.
  set (n := digits N - 53).
  assert (0 < N) as HN by (unfold N; nia).
  assert (0 < 2 ^ n) as H2n by (apply Z.pow_pos_nonneg; unfold n; lia).
  destruct (round_aux_spec false N 1 N (digits S - 53 + -53) n loc_Exact)
    as [Hr Hres]; try (unfold n; lia).
  { by rewrite Z.div_1_r. }
  { by rewrite loc_of_1. }
  rewrite Hres. rewrite Z.mul_1_l in Hr, Hres |- *.
  set (r := rne N (2 ^ n)) in *.
  set (k := 106 - digits S - n).
  assert (1 <= k) as Hk by (unfold k, n; lia).
  assert (0 < 2 ^ k) as H2k by (apply Z.pow_pos_nonneg; lia).
  assert (2 ^ n * 2 ^ k = 2 ^ 53 * a) as HUV.
  { unfold a. rewrite <- !Z.pow_add_r by (unfold n, k; lia). f_equal. unfold k. lia. }
  assert (2 ^ 52 <= 2 ^ n <= 2 ^ 53) as HU.
  { split; apply Z.pow_le_mono_r; unfold n; lia. }
  pose proof (rne_bounds N (2 ^ n) H2n) as Hb. fold r in Hb.
  pose proof (deposit_arith S a (2 ^ n) (2 ^ k) r ltac:(lia) Ha ltac:(lia) HU H2k HUV Hb)
    as Hq.
  destruct (r <? 2 ^ 53) eqn:Er.
  - rewrite Math_floor_finite by (unfold n; lia). f_equal.
    rewrite Z2Pos.id by lia.
    replace (- (digits S - 53 + -53 + n)) with k by (unfold k; lia).
    by apply quotient_between.
  - apply Z.ltb_ge in Er. assert (r = 2 ^ 53) as Hr53 by lia.
    rewrite Math_floor_finite by (unfold n; lia). f_equal.
    rewrite Z2Pos.id by lia.
    replace (- (digits S - 53 + -53 + n + 1)) with (k - 1) by (unfold k; lia).
    assert (0 < 2 ^ (k - 1)) by (apply Z.pow_pos_nonneg; lia).
    assert (2 ^ k = 2 * 2 ^ (k - 1)) as Hk2.
    { replace k with (1 + (k - 1)) at 1 by lia. by rewrite Z.pow_add_r by lia. }
    apply quotient_between; [lia|].
    rewrite Hr53, Hk2 in Hq. change (2 ^ 53) with (2 * 2 ^ 52) in Hq. lia.
Qed.

(** *** Division by one hundred *)

Lemma new_location_loc_of (N D : Z) :
  0 < D -> new_location D (N mod D) = loc_of N D.
Proof.
  intros HD. unfold new_location, new_location_even, new_location_odd, loc_of.
  pose proof (Z.mod_pos_bound N D HD) as Hr.
  destruct (Z.even D) eqn:Ev; [reflexivity|].
  destruct (N mod D =? 0); [reflexivity|]. f_equal.
  assert (Z.odd D = true) as Hodd by (by rewrite <- Z.negb_even, Ev).
  apply Z.odd_spec in Hodd as [t Ht].
  destruct (2 * (N mod D) + 1 ?= D) eqn:E1.
  - pose proof (proj1 (Z.compare_eq_iff _ _) E1). symmetry. apply Z.compare_lt_iff. lia.
  - pose proof (proj1 (Z.compare_lt_iff _ _) E1). symmetry. apply Z.compare_lt_iff. lia.
  - pose proof (proj1 (Z.compare_gt_iff _ _) E1). symmetry. apply Z.compare_gt_iff. lia.
Qed.

(** The long division of two 53-digit mantissas. *)
Lemma div_core_spec (m1 e1 m2 e2 : Z) :
  2 ^ 52 <= m1 < 2 ^ 53 -> 2 ^ 52 <= m2 < 2 ^ 53 -> -1021 <= e1 - e2 ->
  SFdiv_core_binary prec emax m1 e1 m2 e2 =
    (m1 * 2 ^ 53 / m2, e1 - e2 - 53, loc_of (m1 * 2 ^ 53) m2).
Proof.
  intros H1 H2 He. unfold SFdiv_core_binary.
  rewrite !Zdigits2_digits by lia.
  rewrite (digits_unique m1 53), (digits_unique m2 53) by (simpl; lia).
  replace (53 + e1 - (53 + e2)) with (e1 - e2) by lia.
  rewrite fexp_normal by lia.
  rewrite Z.min_l by lia.
  replace (e1 - e2 - (e1 - e2 - 53)) with 53 by lia.
  rewrite Z.shiftl_mul_pow2 by lia.
  pose proof (new_location_loc_of (m1 * 2 ^ 53) m2 ltac:(lia)) as Hloc.
  unfold Z.modulo, Z.div in *.
  destruct (Z.div_eucl (m1 * 2 ^ 53) m2) as [q r]. simpl in *. by rewrite Hloc.
Qed.

Lemma fee_arith (x B V r : Z) :
  0 <= x -> 0 < B -> 64 <= V ->
  2 * (x * (B * V)) - 100 * B <= 2 * (100 * B) * r <= 2 * (x * (B * V)) + 100 * B ->
  (x / 100) * V <= r < (x / 100 + 1) * V.
Proof.
  intros Hx HB HV [Hlo Hhi].
  pose proof (Z.div_mod x 100 ltac:(lia)) as Hdm.
  pose proof (Z.mod_pos_bound x 100 ltac:(lia)) as Hr.
  set (q := x / 100) in *.
  assert (100 * (q * V) <= x * V <= 100 * (q * V) + 99 * V) as HxV by nia.
  assert (2 * (x * V) - 100 <= 200 * r <= 2 * (x * V) + 100) as Hr2.
  { split.
    - assert (B * (2 * (x * V) - 100) <= B * (200 * r)) as H by nia.
      apply (Z.mul_le_mono_pos_l _ _ B); lia.
    - assert (B * (200 * r) <= B * (2 * (x * V) + 100)) as H by nia.
      apply (Z.mul_le_mono_pos_l _ _ B); lia. }
  lia.
Qed.

Lemma Number_100 : Number 100 = S754_finite false 7036874417766400 (-46).
Proof. by vm_compute. Qed.

(** [Math.floor (x / 100)] is exact for integers below [2^52]. *)
Lemma fee_exact (x : Z) :
  0 <= x < 2 ^ 52 -> Math_floor (div (Number x) (Number 100)) = Number (x / 100).
Proof.
  intros [Hx0 Hx].
  destruct (Z.eq_dec x 0) as [-> | Hxn]; [by vm_compute|].
  assert (0 < x < 2 ^ 53) as Hx' by lia.
  rewrite Number_100, (Number_canonical x Hx').
  destruct (canonical_mantissa_bounds x Hx') as [Hd Hm].
  pose proof (digits_ge1 x ltac:(lia)) as Hd1.
  pose proof (digits_bounds x ltac:(lia)) as [Hb1 Hb2].
  assert (digits x <= 52) as Hd52.
  { destruct (Z.le_gt_cases (digits x) 52) as [|Hgt]; [done|].
    assert (2 ^ 52 <= 2 ^ (digits x - 1)) by (apply Z.pow_le_mono_r; lia). lia. }
  set (a := 2 ^ (53 - digits x)) in *.
  assert (0 < a) as Ha by (apply Z.pow_pos_nonneg; lia).
  unfold div, SFdiv, canonical. fold a. simpl xorb.
  rewrite Z2Pos.id by lia.
  change (Z.pos 7036874417766400) with (100 * 2 ^ 46).
  assert (2 ^ 52 <= 100 * 2 ^ 46 < 2 ^ 53) as Hm2 by (split; by vm_compute).
  rewrite (div_core_spec (x * a) (digits x - 53) (100 * 2 ^ 46) (-46) Hm Hm2) by lia.
  set (N := x * a * 2 ^ 53). set (D := 100 * 2 ^ 46) in *.
  set (q := N / D).
  assert (2 ^ 52 <= q < 2 ^ 54) as Hq.
  { unfold q, N. split.
    - apply Z.div_le_lower_bound; [lia|].
      change (2 ^ 53) with 9007199254740992 in *.
      change (2 ^ 52) with 4503599627370496 in *. nia.
    - apply Z.div_lt_upper_bound; [lia|].
      change (2 ^ 54) with 18014398509481984.
      change (2 ^ 53) with 9007199254740992 in *.
      change (2 ^ 52) with 4503599627370496 in *. nia. }
  set (n := digits q - 53).
  assert (0 <= n <= 1) as Hn.
  { unfold n. pose proof (digits_bounds q ltac:(lia)) as [Hq1 Hq2]. split.
    - destruct (Z.le_gt_cases 53 (digits q)) as [|Hlt]; [lia|].
      assert (2 ^ digits q <= 2 ^ 52) by (apply Z.pow_le_mono_r; lia). lia.
    - destruct (Z.le_gt_cases (digits q) 54) as [|Hgt]; [lia|].
      assert (2 ^ 54 <= 2 ^ (digits q - 1)) by (apply Z.pow_le_mono_r; lia). lia. }
  assert (0 < 2 ^ n) as H2n by (apply Z.pow_pos_nonneg; lia).
  assert (0 <= N) as HN by (unfold N; nia).
  destruct (round_aux_spec false N D q (digits x - 53 - -46 - 53) n (loc_of N D))
    as [Hr Hres]; try (unfold n; lia); try done.
  rewrite Hres.
  set (r := rne N (D * 2 ^ n)) in *.
  set (k := 60 - digits x - n).
  assert (7 <= k) as Hk by (unfold k; lia).
  assert (64 <= 2 ^ k) as H2k.
  { change 64 with (2 ^ 6). apply Z.pow_le_mono_r; lia. }
  set (B := 2 ^ (46 + n)).
  assert (0 < B) as HB by (apply Z.pow_pos_nonneg; lia).
  assert (D * 2 ^ n = 100 * B) as HU.
  { unfold D, B. rewrite Z.pow_add_r by lia. ring. }
  assert (N = x * (B * 2 ^ k)) as HNV.
  { unfold N, a, B. rewrite <- !Z.mul_assoc, <- !Z.pow_add_r by (unfold k; lia).
    do 2 f_equal. unfold k. lia. }
  pose proof (rne_bounds N (D * 2 ^ n) ltac:(nia)) as Hb. fold r in Hb.
  rewrite HU in Hb. rewrite HNV in Hb at 1 2.
  pose proof (fee_arith x B (2 ^ k) r Hx0 HB H2k Hb) as Hquot.
  destruct (r <? 2 ^ 53) eqn:Er.
  - rewrite Math_floor_finite by lia. f_equal.
    rewrite Z2Pos.id by lia.
    replace (- (digits x - 53 - -46 - 53 + n)) with k by (unfold k; lia).
    apply quotient_between; [lia | done].
  - apply Z.ltb_ge in Er. assert (r = 2 ^ 53) as Hr53 by lia.
    rewrite Math_floor_finite by lia. f_equal.
    rewrite Z2Pos.id by lia.
    replace (- (digits x - 53 - -46 - 53 + n + 1)) with (k - 1) by (unfold k; lia).
    assert (0 < 2 ^ (k - 1)) by (apply Z.pow_pos_nonneg; lia).
    assert (2 ^ k = 2 * 2 ^ (k - 1)) as Hk2.
    { replace k with (1 + (k - 1)) at 1 by lia. by rewrite Z.pow_add_r by lia. }
    apply quotient_between; [lia|].
    rewrite Hr53, Hk2 in Hquot. change (2 ^ 53) with (2 * 2 ^ 52) in Hquot. lia.
Qed.

End PayoutExact.

(* ===================================================================== *)
(** ** Stealth ids *)
(* ===================================================================== *)

Section StealthFacts.
Import Stealth.

Lemma charCode_inj (x y : ascii) : charCode x = charCode y -> x = y.
Proof.
  unfold charCode. intros H. apply Nat2Z.inj in H.
  transitivity (ascii_of_nat (nat_of_ascii x)); [symmetry; apply ascii_nat_embedding|].
  rewrite H. apply ascii_nat_embedding.
Qed.

Lemma xor_fold_zero (a : string) :
  forall (b : string) (acc : Z),
    String.length a = String.length b ->
    (xor_fold a b acc = 0 <-> acc = 0 /\ a = b).
Proof.
  induction a as [|x a IH]; intros [|y b] acc Hlen; simpl in *; try discriminate.
  - split; [by intros -> | by intros [-> _]].
  - injection Hlen as Hlen. rewrite (IH b _ Hlen), Z.lor_eq_0_iff. split.
    + intros [[-> Hx] ->]. split; [done|]. f_equal.
      apply charCode_inj. by apply Z.lxor_eq.
    + intros [-> [= -> ->]]. by rewrite Z.lxor_nilpotent.
Qed.

(** The constant-time comparison is string equality. *)
Lemma timingSafeEqual_spec (a b : string) : timingSafeEqual a b = true <-> a = b.
Proof.
  unfold timingSafeEqual.
  destruct (String.length a =? String.length b)%nat eqn:E; simpl.
  - apply Nat.eqb_eq in E. rewrite Z.eqb_eq, (xor_fold_zero a b 0 E).
    split; [by intros [_ ->] | by intros ->].
  - apply Nat.eqb_neq in E. split; [done|]. intros ->. done.
Qed.

(** A wallet is verified against a stealth id exactly when it hashes to
    it. *)
Lemma verifyStealthId_spec (hmac : string -> string) (wallet stealth : string) :
  verifyStealthId hmac wallet stealth = true <-> generateStealthId hmac wallet = stealth.
Proof. apply timingSafeEqual_spec. Qed.

End StealthFacts.

(* ===================================================================== *)
(** ** Basic facts about the store and the world *)
(* ===================================================================== *)

Section WorldFacts.
Import Escrow.
Variable hmac : string -> string.
Variable config : Config.t.
Variable backend : Backend.

Lemma with_store_id (w : World) : with_store w (store w) = w.
Proof. by destruct w. Qed.

Lemma stored_setDuel (id id' : string) (d : DuelSession) (ttl : Z) (w : World) :
  stored id (setDuel id' d ttl w) = if decide (id' = id) then Some d else stored id w.
Proof.
  unfold stored, setDuel, MemoryStore.setDuel; simpl.
  rewrite lookup_insert. by case_decide.
Qed.

(** A read that finds the duel changes nothing. *)
Lemma getDuel_Some (id : string) (w : World) (d : DuelSession) :
  fst (getDuel id w) = Some d -> snd (getDuel id w) = w /\ stored id w = Some d.
Proof.
  unfold getDuel, MemoryStore.getDuel, stored.
  destruct (MemoryStore.duels (store w) !! id) as [item|] eqn:E; simpl; [|done].
  destruct (MemoryStore.expired (clock w) item); simpl; [done|].
  intros [= <-]. split; [apply with_store_id | done].
Qed.

(** A read that finds nothing leaves the other duels alone; the duel
    asked for is absent afterwards. *)
Lemma getDuel_None (id id' : string) (w : World) :
  fst (getDuel id' w) = None ->
  stored id (snd (getDuel id' w)) = if decide (id' = id) then None else stored id w.
Proof.
  unfold getDuel, MemoryStore.getDuel, stored.
  destruct (MemoryStore.duels (store w) !! id') as [item|] eqn:E; simpl.
  - destruct (MemoryStore.expired (clock w) item); simpl; [|done].
    intros _. rewrite lookup_delete. by case_decide.
  - intros _. case_decide; [subst; by rewrite E | done].
Qed.

Lemma getDuel_frame (id : string) (w : World) :
  let w' := snd (getDuel id w) in
  sessionMap w' = sessionMap w /\ transfers w' = transfers w /\ clock w' = clock w /\
  MemoryStore.dust (store w') = MemoryStore.dust (store w) /\
  MemoryStore.pendingRecovery (store w') = MemoryStore.pendingRecovery (store w) /\
  MemoryStore.failedRecovery (store w') = MemoryStore.failedRecovery (store w).
Proof.
  unfold getDuel, MemoryStore.getDuel.
  destruct (MemoryStore.duels (store w) !! id) as [item|]; simpl; [|done].
  by destruct (MemoryStore.expired (clock w) item).
Qed.

(** The store and the session map are out of reach of the transfer
    client. *)
Lemma transferFromEscrow_frame (r a : string) (x : JS.number) (w : World) :
  let w' := snd (transferFromEscrow backend r x a w) in
  store w' = store w /\ sessionMap w' = sessionMap w /\
  transfers w' = transfers w ++
    [{| recipientWallet := r; amountLamports := x; transferToken := a |}].
Proof. done. Qed.

Lemma payWinner_frame (fuel : nat) :
  forall (attempt : Z) (wallet : string) (x : JS.number) (tok : string)
         (r0 : TransferResult) (e0 : string) (w : World),
    let w' := snd (payWinner backend fuel attempt wallet x tok r0 e0 w) in
    store w' = store w /\ sessionMap w' = sessionMap w.
Proof.
  induction fuel as [|fuel IH]; intros attempt wallet x tok r0 e0 w; simpl; [done|].
  destruct (success (outcome backend (length (transfers w)))); simpl; [done|].
  match goal with |- context [payWinner _ _ _ _ _ _ ?r ?e ?w1] =>
    destruct (IH (attempt + 1) wallet x tok r e w1) as [H1 H2] end.
  rewrite H1, H2. by destruct (attempt <? MAX_RETRIES).
Qed.

(** When the next [fuel] transfers all fail, the loop gives up after
    exactly [fuel] calls with a failed result. *)
Lemma payWinner_all_fail (fuel : nat) :
  forall (attempt : Z) (wallet : string) (x : JS.number) (tok : string)
         (r0 : TransferResult) (e0 : string) (w : World),
    success r0 = false ->
    (forall k, (k < fuel)%nat ->
       success (outcome backend (length (transfers w) + k)) = false) ->
    let out := payWinner backend fuel attempt wallet x tok r0 e0 w in
    success (fst (fst out)) = false /\
    length (transfers (snd out)) = (length (transfers w) + fuel)%nat.
Proof.
  induction fuel as [|fuel IH]; intros attempt wallet x tok r0 e0 w Hr0 Hall; simpl.
  - split; [done | lia].
  - pose proof (Hall 0%nat ltac:(lia)) as H0. rewrite Nat.add_0_r in H0.
    rewrite H0; simpl.
    match goal with |- context [payWinner _ _ _ _ _ _ ?r ?e ?w1] =>
      destruct (IH (attempt + 1) wallet x tok r e w1 H0) as [H1 H2] end.
    + intros k Hk. destruct (attempt <? MAX_RETRIES); simpl;
        rewrite length_app; simpl;
        replace (length (transfers w) + 1 + k)%nat
          with (length (transfers w) + S k)%nat by lia; apply Hall; lia.
    + split; [done|]. rewrite H2.
      destruct (attempt <? MAX_RETRIES); simpl; rewrite length_app; simpl; lia.
Qed.

End WorldFacts.

(** From here on the retry loop is used through the three facts above. *)
#[global] Arguments Escrow.payWinner : simpl never.

Section SweepAndSettle.
Import Escrow.
Variable hmac : string -> string.
Variable config : Config.t.
Variable backend : Backend.

(** C10: when the treasury transfer of a dust sweep fails, the sweep
    reports the failure and leaves the store, hence the dust counter of
    the token, as it was; a sweep that follows and whose transfer
    succeeds sends the full accumulated amount to the treasury and only
    then resets the counter. *)
Theorem sweep_failure_keeps_dust (tok : string) (w : World) :
  success (outcome backend (length (transfers w))) = false ->
  let first := sweepDustToTreasury config backend tok w in
  s_success (fst first) = false /\
  store (snd first) = store w /\
  getAccumulatedDust tok (snd first) = getAccumulatedDust tok w /\
  (JS.lt (getAccumulatedDust tok w) (JS.Number SHADOWWIRE_MIN_TRANSFER) = false ->
   success (outcome backend (length (transfers (snd first)))) = true ->
   let again := sweepDustToTreasury config backend tok (snd first) in
   s_success (fst again) = true /\
   s_amount (fst again) = getAccumulatedDust tok w /\
   last (transfers (snd again)) =
     Some {| recipientWallet := Config.treasuryWallet config;
             amountLamports := getAccumulatedDust tok w;
             transferToken := tok |} /\
   getAccumulatedDust tok (snd again) = JS.Number 0).
Proof.
  intros Hfail; cbv zeta. unfold sweepDustToTreasury, getAccumulatedDust.
  destruct (JS.lt (MemoryStore.getDust tok (store w)) (JS.Number SHADOWWIRE_MIN_TRANSFER))
    eqn:Hlt; simpl.
  - do 3 (split; [done|]). by intros.
  - rewrite Hfail; simpl. rewrite Hlt; simpl.
    do 3 (split; [done|]). intros _ Hok. rewrite Hok; simpl.
    do 2 (split; [done|]). split; [by rewrite last_snoc|].
    unfold MemoryStore.getDust; simpl. by rewrite lookup_insert_eq.
Qed.

(** C2 (as the code has it): when all three winner payout attempts of a
    settle call fail, settle returns the payout error after exactly three
    transfer calls, the duel is back in status ACTIVE, its id is in
    failed_recovery and it is still in pending_recovery, where the call
    put it before the first attempt. *)
Theorem settle_exhausted_keeps_pending (id winnerWallet : string)
    (summary : option CombatSummary) (commit : CommitOutcome)
    (w : World) (duel : DuelSession) :
  fst (getDuel id w) = Some duel ->
  status duel = ACTIVE \/ status duel = PENDING_SETTLEMENT ->
  Stealth.verifyStealthId hmac winnerWallet (stealthId (player1 duel)) = true \/
  Stealth.verifyStealthId hmac winnerWallet (stealthId (player2 duel)) = true ->
  (forall k, (k < 3)%nat ->
     success (outcome backend (length (transfers w) + k)) = false) ->
  let out := settleDuel hmac config backend id winnerWallet summary commit w in
  (exists lastError, fst out = SettleError (PayoutFailed 3 lastError)) /\
  status <$> stored id (snd out) = Some ACTIVE /\
  id ∈ MemoryStore.failedRecovery (store (snd out)) /\
  id ∈ MemoryStore.pendingRecovery (store (snd out)) /\
  length (transfers (snd out)) = (length (transfers w) + 3)%nat.
Proof.
  intros Hget Hst Hwin Hall. unfold settleDuel.
  destruct (getDuel_Some id w duel Hget) as [Hw Hstored].
  destruct (getDuel id w) as [found w1] eqn:Eg; simpl in Hget, Hw; subst found w1.
  assert (negb (is_status duel ACTIVE) && negb (is_status duel PENDING_SETTLEMENT) = false)
    as ->.
  { unfold is_status. destruct Hst as [-> | ->]; by vm_compute. }
  assert (negb (Stealth.verifyStealthId hmac winnerWallet (stealthId (player1 duel)))
          && negb (Stealth.verifyStealthId hmac winnerWallet (stealthId (player2 duel)))
          = false) as ->.
  { destruct Hwin as [-> | ->]; simpl; [done | by rewrite andb_false_r]. }
  destruct commit; simpl;
    match goal with
    | |- context [payWinner backend ?f ?a ?wl ?x ?tk ?r0 ?e0 ?w0] =>
        pose proof (payWinner_all_fail backend f a wl x tk r0 e0 w0 eq_refl Hall) as Hp;
        pose proof (payWinner_frame backend f a wl x tk r0 e0 w0) as Hf;
        destruct (payWinner backend f a wl x tk r0 e0 w0) as [[r e] w4]
    end; simpl in Hp, Hf; destruct Hp as [Hr Hlen]; destruct Hf as [Hs Hm];
    rewrite Hr; simpl;
    (split; [by eexists|]);
    (split; [unfold stored; simpl; by rewrite lookup_insert_eq|]);
    rewrite Hs; simpl;
    (split; [by apply elem_of_union_l, elem_of_singleton|]);
    (split; [by apply elem_of_union_l, elem_of_singleton|]); exact Hlen.
Qed.

End SweepAndSettle.

Section Effects.
Import Escrow.
Variable hmac : string -> string.
Variable config : Config.t.
Variable backend : Backend.
Variable JSON_parse : string -> option ProofData.

(** The two outcomes of the engine's read. *)
Lemma getDuel_cases (id' : string) (w : World) :
  (exists duel, getDuel id' w = (Some duel, w) /\ stored id' w = Some duel) \/
  (exists w1, getDuel id' w = (None, w1) /\
     sessionMap w1 = sessionMap w /\ transfers w1 = transfers w /\ clock w1 = clock w /\
     forall id, stored id w1 = if decide (id' = id) then None else stored id w).
Proof.
  destruct (fst (getDuel id' w)) as [duel|] eqn:E.
  - left. exists duel. destruct (getDuel_Some id' w duel E) as [H1 H2].
    split; [|done]. destruct (getDuel id' w); simpl in *; congruence.
  - right. exists (snd (getDuel id' w)).
    destruct (getDuel_frame id' w) as (H1 & H2 & H3 & _).
    split; [destruct (getDuel id' w); simpl in *; congruence|].
    do 3 (split; [done|]). intros id. by apply getDuel_None.
Qed.

Lemma stored_insert (id id' : string) (item : MemoryStore.StoredItem)
    (m : gmap string MemoryStore.StoredItem) :
  MemoryStore.data <$> (<[id' := item]> m !! id) =
  if decide (id' = id) then Some (MemoryStore.data item) else MemoryStore.data <$> (m !! id).
Proof. rewrite lookup_insert. by case_decide. Qed.

(** What a lock request can leave in the store. *)
Lemma lock_effect (id id' wallet proof : string) (w : World) (d' : DuelSession) :
  stored id (snd (lockStakeWithProof hmac JSON_parse id' wallet proof w)) = Some d' ->
  stored id w = Some d' \/
  (id = id' /\ exists d, stored id w = Some d /\ status d = PENDING_STAKES /\
     (status d' = ACTIVE \/
      (status d' = PENDING_STAKES /\
       stakeLocked (player1 d') && stakeLocked (player2 d') = false))).
Proof.
  unfold lockStakeWithProof.
  destruct (getDuel_cases id' w) as [(duel & -> & Hd) | (w1 & -> & _ & _ & _ & Hs)].
  2:{ simpl. rewrite Hs. case_decide; [done | by left]. }
  unfold is_status.
  case_bool_decide as Hst; simpl; [|by left].
  destruct (expiresAt duel <? clock w); [by left|].
  destruct (Stealth.verifyStealthId hmac wallet (stealthId (player1 duel))) eqn:E1;
  destruct (Stealth.verifyStealthId hmac wallet (stealthId (player2 duel))) eqn:E2;
    simpl; try (by left).
  all: match goal with
       | |- context [if stakeLocked ?p then _ else _] => destruct (stakeLocked p) eqn:EL
       end; simpl; [by left|].
  all: unfold stored; simpl; rewrite stored_insert; case_decide as Hid; [|by left].
  all: subst id'; intros [= <-]; right; split; [done|]; exists duel; split; [done|];
    split; [done|].
  all: try rewrite EL; simpl.
  all: match goal with
       | |- context [if ?b then _ else _] => destruct b eqn:Eb
       end; simpl; [by left | right; split; [done|]; try done].
  all: try (rewrite andb_false_r in *; done).
  all: try (by rewrite Eb).
Qed.

(** What a create request can leave in the store. *)
Lemma create_effect (id newId : string) (params : CreateDuelParams) (w : World)
    (d' : DuelSession) :
  stored id (snd (createDuel hmac config newId params w)) = Some d' ->
  stored id w = Some d' \/
  (id = newId /\ status d' = PENDING_STAKES /\
   stakeLocked (player1 d') = false /\ stakeLocked (player2 d') = false).
Proof.
  unfold createDuel.
  destruct (JS.lt _ _); simpl; [by left|].
  destruct (JS.BigInt _); simpl; [|by left].
  unfold stored; simpl; rewrite stored_insert. case_decide; [|by left].
  intros [= <-]. by right.
Qed.

(** What a settle request can leave in the store. *)
Lemma settle_effect (id id' wallet : string) (summary : option CombatSummary)
    (commit : CommitOutcome) (w : World) (d' : DuelSession) :
  stored id (snd (settleDuel hmac config backend id' wallet summary commit w)) = Some d' ->
  stored id w = Some d' \/
  (id = id' /\ exists d, stored id w = Some d /\
     (status d = ACTIVE \/ status d = PENDING_SETTLEMENT) /\
     (status d' = ACTIVE \/ status d' = SETTLED)).
Proof.
  unfold settleDuel.
  destruct (getDuel_cases id' w) as [(duel & -> & Hd) | (w1 & -> & _ & _ & _ & Hs)].
  2:{ simpl. rewrite Hs. case_decide; [done | by left]. }
  unfold is_status.
  destruct (negb (bool_decide (status duel = ACTIVE))
            && negb (bool_decide (status duel = PENDING_SETTLEMENT))) eqn:Est;
    simpl; [by left|].
  assert (status duel = ACTIVE \/ status duel = PENDING_SETTLEMENT) as Hst.
  { destruct (status duel); simpl in Est; try done; auto. }
  clear Est.
  destruct (negb _ && negb _); simpl; [by left|].
  assert (forall dd : DuelSession, Some dd = Some d' ->
            status dd = ACTIVE \/ status dd = SETTLED ->
            id = id' -> stored id w = Some d' \/
              (id = id' /\ exists d, stored id w = Some d /\
                 (status d = ACTIVE \/ status d = PENDING_SETTLEMENT) /\
                 (status d' = ACTIVE \/ status d' = SETTLED))) as Hnew.
  { intros dd [= <-] Hdd ->. right. split; [done|]. by exists duel. }
  destruct commit; simpl;
    match goal with
    | |- context [payWinner backend ?f ?a ?wl ?x ?tk ?r0 ?e0 ?w0] =>
        pose proof (payWinner_frame backend f a wl x tk r0 e0 w0) as Hf;
        destruct (payWinner backend f a wl x tk r0 e0 w0) as [[r e] w4]
    end; simpl in Hf; destruct Hf as [Hst4 Hm4];
    destruct (success r); simpl.
  all: repeat match goal with
         | |- context [if ?b then _ else _] => destruct b; simpl
         | |- context [match ?b with Some _ => _ | None => _ end] => destruct b; simpl
         end.
  all: unfold stored; simpl; rewrite ?Hst4; simpl; rewrite stored_insert;
    (case_decide as Hid; [subst id'; intros E; eapply Hnew; [exact E | by auto | done]
                         | rewrite ?Hst4; simpl; rewrite ?stored_insert, ?decide_False by done;
                           by left]).
Qed.

Lemma refundParticipant_frame (p : DuelParticipant) (tok : string)
    (txs : list string) (w : World) :
  store (snd (refundParticipant backend p tok txs w)) = store w /\
  sessionMap (snd (refundParticipant backend p tok txs w)) = sessionMap w.
Proof.
  unfold refundParticipant.
  destruct (stakeLocked p); [|done].
  destruct (Stealth.resolve _ _) as [wallet|]; [|done].
  destruct (truthy_str wallet); [|done]. simpl.
  by destruct (success _ && truthy_opt _).
Qed.

(** What a refund request can leave in the store. *)
Lemma refund_effect (id id' : string) (w : World) (d' : DuelSession) :
  stored id (snd (refundDuel backend id' w)) = Some d' ->
  stored id w = Some d' \/
  (id = id' /\ exists d, stored id w = Some d /\
     status d <> SETTLED /\ status d <> REFUNDED /\ status d' = REFUNDED).
Proof.
  unfold refundDuel.
  destruct (getDuel_cases id' w) as [(duel & -> & Hd) | (w1 & -> & _ & _ & _ & Hs)].
  2:{ simpl. rewrite Hs. case_decide; [done | by left]. }
  unfold is_status.
  destruct (bool_decide (status duel = SETTLED) || bool_decide (status duel = REFUNDED))
    eqn:Est; simpl; [by left|].
  apply orb_false_elim in Est as [E1%bool_decide_eq_false E2%bool_decide_eq_false].
  pose proof (refundParticipant_frame (player1 duel) (token duel) [] w) as [Hf1 _].
  destruct (refundParticipant backend (player1 duel) (token duel) [] w) as [txs1 w2].
  pose proof (refundParticipant_frame (player2 duel) (token duel) txs1 w2) as [Hf2 _].
  destruct (refundParticipant backend (player2 duel) (token duel) txs1 w2) as [txs2 w3].
  simpl in *. unfold stored; simpl. rewrite Hf2, Hf1, stored_insert.
  case_decide as Hid; [|by left].
  subst id'. intros [= <-]. right. split; [done|]. by exists duel.
Qed.

Lemma emergencyRefundOne_frame (label wallet : string) (x : JS.number) (tok : string)
    (acc : list RefundEntry) (w : World) :
  store (snd (emergencyRefundOne backend label wallet x tok acc w)) = store w /\
  sessionMap (snd (emergencyRefundOne backend label wallet x tok acc w)) = sessionMap w.
Proof. unfold emergencyRefundOne. by destruct (truthy_str wallet). Qed.

(** What an emergency refund can leave in the store. *)
Lemma emergency_effect (id id' wallet1 wallet2 : string) (stake : JS.number)
    (tok : string) (w : World) (d' : DuelSession) :
  let out := emergencyRefund backend id' wallet1 wallet2 stake tok w in
  stored id (snd out) = Some d' ->
  stored id w = Some d' \/
  (id = id' /\ e_success (fst out) = true /\ status d' = REFUNDED /\
   exists d, stored id w = Some d).
Proof.
  unfold emergencyRefund.
  match goal with |- context [emergencyRefundOne backend ?l ?wl ?x ?tk ?acc ?w0] =>
    pose proof (emergencyRefundOne_frame l wl x tk acc w0) as [Hf1 _];
    destruct (emergencyRefundOne backend l wl x tk acc w0) as [refunds1 w1] end.
  match goal with |- context [emergencyRefundOne backend ?l ?wl ?x ?tk ?acc ?w0] =>
    pose proof (emergencyRefundOne_frame l wl x tk acc w0) as [Hf2 _];
    destruct (emergencyRefundOne backend l wl x tk acc w0) as [refunds2 w2] end.
  simpl in Hf1, Hf2.
  destruct (forallb r_success refunds2) eqn:Hall; simpl.
  2:{ unfold stored. rewrite Hf2, Hf1. by left. }
  match goal with |- context [getDuel id' ?w3] =>
    destruct (getDuel_cases id' w3) as [(duel & -> & Hd) | (w4 & -> & _ & _ & _ & Hs)] end.
  - unfold stored in *; simpl in *. rewrite Hf2, Hf1 in *. rewrite stored_insert.
    case_decide as Hid; [|by left].
    subst id'. intros [= <-]. right. do 3 (split; [done|]). by exists duel.
  - rewrite Hs. case_decide; [done|].
    unfold stored; simpl. rewrite Hf2, Hf1. by left.
Qed.

(** A dust sweep, the reaper and the passing of time write no duel. *)
Lemma sweep_effect (id tok : string) (w : World) :
  stored id (snd (sweepDustToTreasury config backend tok w)) = stored id w.
Proof.
  unfold sweepDustToTreasury. destruct (JS.lt _ _); simpl; [done|].
  by destruct (success _).
Qed.

Lemma reap_effect (id : string) (w : World) (d' : DuelSession) :
  stored id (reap w) = Some d' -> stored id w = Some d'.
Proof.
  unfold stored, reap, MemoryStore.cleanup; simpl.
  destruct (filter _ _ !! id) as [item|] eqn:E; simpl; [|done].
  apply map_lookup_filter_Some in E as [-> _]. done.
Qed.

Lemma tick_effect (id : string) (ms : Z) (w : World) : stored id (tick ms w) = stored id w.
Proof. done. Qed.

(** The engine's own deadline test is inclusive: while the store still
    holds the duel, a participant who has not locked yet is accepted up to
    and including [expires_at] ... *)
Lemma lock_accepted_until_deadline (id wallet proof : string) (w : World)
    (d : DuelSession) :
  fst (getDuel id w) = Some d ->
  status d = PENDING_STAKES ->
  clock w <= expiresAt d ->
  Stealth.verifyStealthId hmac wallet (stealthId (player1 d)) = true ->
  stakeLocked (player1 d) = false ->
  let out := lockStakeWithProof hmac JSON_parse id wallet proof w in
  fst out = LockOk (proofTxSignature JSON_parse proof) (stakeLocked (player2 d)) /\
  (stakeLocked <$> (player1 <$> stored id (snd out))) = Some true.
Proof.
  intros Hget Hst Hclock Hver Hun. cbv zeta. unfold lockStakeWithProof.
  destruct (getDuel_Some id w d Hget) as [Hw Hstored].
  assert (getDuel id w = (Some d, w)) as ->.
  { destruct (getDuel id w); simpl in *; congruence. }
  unfold is_status. rewrite Hst. simpl.
  rewrite (proj2 (Z.ltb_ge (expiresAt d) (clock w))) by lia.
  rewrite Hver, Hun. simpl. split; [reflexivity|].
  unfold stored; simpl. destruct (stakeLocked (player2 d)); simpl;
    by rewrite lookup_insert_eq.
Qed.

(** ... and every lock request after [expires_at] is rejected. *)
Lemma lock_rejected_after_deadline (id wallet proof : string) (w : World)
    (d : DuelSession) :
  stored id w = Some d ->
  expiresAt d < clock w ->
  exists e, fst (lockStakeWithProof hmac JSON_parse id wallet proof w) = LockError e.
Proof.
  intros Hd Hlate. unfold lockStakeWithProof.
  destruct (getDuel_cases id w) as [(duel & -> & Hd') | (w1 & -> & _)].
  - rewrite Hd in Hd'. injection Hd' as <-.
    destruct (negb (is_status d PENDING_STAKES)); [by eexists|].
    rewrite (proj2 (Z.ltb_lt (expiresAt d) (clock w))) by lia. by eexists.
  - by eexists.
Qed.

End Effects.

Section Invariants.
Import Escrow.
Variable hmac : string -> string.
Variable config : Config.t.
Variable backend : Backend.
Variable JSON_parse : string -> option ProofData.

Lemma handle_invariant (r : Request) (w : World) :
  stakes_invariant w -> stakes_invariant (handle hmac config backend JSON_parse r w).
Proof.
  intros Hinv id d' Hd'. destruct r; simpl in Hd'.
  - apply create_effect in Hd' as [H | (_ & Hs & H1 & H2)]; [by apply (Hinv id)|].
    unfold bothLocked. rewrite Hs, H1. by split.
  - apply lock_effect in Hd' as [H | (_ & d & Hd & Hs & [Ha | [Hp Hb]])];
      [by apply (Hinv id) | rewrite Ha; by split | rewrite Hp; by split].
  - apply settle_effect in Hd' as [H | (_ & d & Hd & _ & [Ha | Ha])];
      [by apply (Hinv id) | rewrite Ha; by split | rewrite Ha; by split].
  - apply refund_effect in Hd' as [H | (_ & d & Hd & _ & _ & Ha)];
      [by apply (Hinv id) | rewrite Ha; by split].
  - apply emergency_effect in Hd' as [H | (_ & _ & Ha & _)];
      [by apply (Hinv id) | rewrite Ha; by split].
  - rewrite sweep_effect in Hd'. by apply (Hinv id).
  - apply reap_effect in Hd'. by apply (Hinv id).
  - rewrite tick_effect in Hd'. by apply (Hinv id).
Qed.

Lemma run_invariant (rs : list Request) :
  forall w, stakes_invariant w ->
    stakes_invariant (run hmac config backend JSON_parse rs w).
Proof.
  induction rs as [|r rs IH]; intros w Hinv; simpl; [done|].
  apply IH. by apply handle_invariant.
Qed.

Lemma initial_invariant (start : Z) : stakes_invariant (initial start).
Proof. intros id d Hd. by unfold stored in Hd. Qed.

(** C8 (as the code has it): in every world the engine reaches from its
    start by any sequence of requests, a stored duel with both stakes
    locked is ACTIVE, PENDING_SETTLEMENT, SETTLED or REFUNDED: it is not
    waiting for stakes any more and it is not FAILED.  REFUNDED belongs to
    the list because a refund leaves the lock flags as they are. *)
Theorem both_locked_status (rs : list Request) (start : Z) (id : string)
    (d : DuelSession) :
  stored id (run hmac config backend JSON_parse rs (initial start)) = Some d ->
  bothLocked d = true ->
  status d = ACTIVE \/ status d = PENDING_SETTLEMENT \/
  status d = SETTLED \/ status d = REFUNDED.
Proof.
  intros Hd Hb.
  destruct (run_invariant rs (initial start) (initial_invariant start) id d Hd)
    as [Hp Hf].
  destruct (status d); auto.
  - specialize (Hp eq_refl). congruence.
  - done.
Qed.

(** An emergency refund that fails, or that names another duel, leaves a
    stored duel as it is; one that succeeds leaves its own duel REFUNDED,
    unless the duel has expired. *)
Lemma emergency_stored (id id' wallet1 wallet2 : string) (stake : JS.number)
    (tok : string) (w : World) :
  let out := emergencyRefund backend id' wallet1 wallet2 stake tok w in
  (e_success (fst out) = false -> stored id (snd out) = stored id w) /\
  (id <> id' -> stored id (snd out) = stored id w) /\
  (e_success (fst out) = true ->
     stored id' (snd out) = None \/ status <$> stored id' (snd out) = Some REFUNDED).
Proof.
  unfold emergencyRefund.
  match goal with |- context [emergencyRefundOne backend ?l ?wl ?x ?tk ?acc ?w0] =>
    pose proof (emergencyRefundOne_frame backend l wl x tk acc w0) as [Hf1 _];
    destruct (emergencyRefundOne backend l wl x tk acc w0) as [refunds1 w1] end.
  match goal with |- context [emergencyRefundOne backend ?l ?wl ?x ?tk ?acc ?w0] =>
    pose proof (emergencyRefundOne_frame backend l wl x tk acc w0) as [Hf2 _];
    destruct (emergencyRefundOne backend l wl x tk acc w0) as [refunds2 w2] end.
  simpl in Hf1, Hf2.
  destruct (forallb r_success refunds2) eqn:Hall; simpl.
  2:{ unfold stored. rewrite Hf2, Hf1. by repeat split. }
  match goal with |- context [getDuel id' ?w3] =>
    destruct (getDuel_cases id' w3) as [(duel & -> & Hd) | (w4 & -> & _ & _ & _ & Hs)] end.
  - split; [done|]. unfold stored in *; simpl in *. rewrite Hf2, Hf1 in *.
    rewrite !stored_insert. split.
    + intros Hne. by rewrite decide_False.
    + intros _. right. by rewrite decide_True.
  - split; [done|]. rewrite !Hs. split.
    + intros Hne. rewrite decide_False by done. unfold stored; simpl. by rewrite Hf2, Hf1.
    + intros _. left. by rewrite decide_True.
Qed.

(** C3 (as the code has it): a lock, settle or refund request never
    changes a stored duel that is SETTLED or REFUNDED: the record stays
    as it is, or is evicted once its retention time is over.  An
    emergency refund that fails, or that names another duel, does not
    change it either; an emergency refund of the duel itself whose
    transfers all succeed leaves it REFUNDED, whether it was REFUNDED or
    SETTLED before. *)
Theorem terminal_status_final (id : string) (w : World) (d : DuelSession) :
  stored id w = Some d ->
  terminal (status d) ->
  (forall r, ordinary_request r ->
     let w' := handle hmac config backend JSON_parse r w in
     stored id w' = Some d \/ stored id w' = None) /\
  (forall id' wallet1 wallet2 stake tok,
     let out := emergencyRefund backend id' wallet1 wallet2 stake tok w in
     (e_success (fst out) = false \/ id' <> id -> stored id (snd out) = Some d) /\
     (e_success (fst out) = true -> id' = id ->
        stored id (snd out) = None \/
        status <$> stored id (snd out) = Some REFUNDED)).
Proof.
  intros Hd Hterm. split.
  - intros r Hr w'. subst w'.
    destruct (stored id (handle hmac config backend JSON_parse r w)) as [d'|] eqn:E;
      [left | by right].
    destruct r; simpl in Hr; try done; simpl in E.
    + apply lock_effect in E as [H | (_ & d0 & Hd0 & Hs & _)]; [congruence|].
      rewrite Hd in Hd0. injection Hd0 as <-. destruct Hterm; congruence.
    + apply settle_effect in E as [H | (_ & d0 & Hd0 & Hs & _)]; [congruence|].
      rewrite Hd in Hd0. injection Hd0 as <-. destruct Hterm, Hs; congruence.
    + apply refund_effect in E as [H | (_ & d0 & Hd0 & Hs1 & Hs2 & _)]; [congruence|].
      rewrite Hd in Hd0. injection Hd0 as <-. destruct Hterm; congruence.
  - intros id' wallet1 wallet2 stake tok out.
    destruct (emergency_stored id id' wallet1 wallet2 stake tok w) as (H1 & H2 & H3).
    fold out in H1, H2, H3. split.
    + intros [Hf | Hne]; [by rewrite H1 | rewrite H2; [done | congruence]].
    + intros Hs ->. by apply H3.
Qed.

End Invariants.

Section Unregister.
Import Escrow.
Variable hmac : string -> string.
Variable config : Config.t.
Variable backend : Backend.

Lemma unregistered_both (a b : string) (m : gmap string string) :
  Stealth.unregister b (Stealth.unregister a m) !! a = None /\
  Stealth.unregister b (Stealth.unregister a m) !! b = None.
Proof.
  unfold Stealth.unregister. split.
  - rewrite lookup_delete. case_decide; [done|]. by rewrite lookup_delete_eq.
  - by rewrite lookup_delete_eq.
Qed.

(** The last steps of settle and of refund: the record is written, then
    both stealth ids are dropped from the reverse map. *)
Lemma written_then_unregistered (id a b : string) (d : DuelSession) (ttl : Z) (w : World) :
  let w' := unregister b (unregister a (setDuel id d ttl w)) in
  status <$> stored id w' = Some (status d) /\
  sessionMap w' !! a = None /\ sessionMap w' !! b = None.
Proof.
  split; [|apply unregistered_both].
  unfold stored; simpl. by rewrite lookup_insert_eq.
Qed.

(** C5 (as the code has it): right after a settle call that went through,
    the duel is SETTLED and the reverse map has no entry for the stealth
    id of either participant; right after a refund call that went
    through, the duel is REFUNDED and the same holds. *)
Theorem terminal_call_unregisters (id : string) (w : World) (duel : DuelSession) :
  fst (getDuel id w) = Some duel ->
  (forall winnerWallet summary commit,
     let out := settleDuel hmac config backend id winnerWallet summary commit w in
     settled_by (fst out) ->
     status <$> stored id (snd out) = Some SETTLED /\
     sessionMap (snd out) !! stealthId (player1 duel) = None /\
     sessionMap (snd out) !! stealthId (player2 duel) = None) /\
  (let out := refundDuel backend id w in
   forall txs, fst out = RefundOk txs ->
     status <$> stored id (snd out) = Some REFUNDED /\
     sessionMap (snd out) !! stealthId (player1 duel) = None /\
     sessionMap (snd out) !! stealthId (player2 duel) = None).
Proof.
  intros Hget.
  destruct (getDuel_Some id w duel Hget) as [Hw Hstored].
  assert (getDuel id w = (Some duel, w)) as Hg.
  { destruct (getDuel id w); simpl in *; congruence. }
  split.
  - intros winnerWallet summary commit. unfold settleDuel. rewrite Hg.
  destruct (negb (is_status duel ACTIVE) && negb (is_status duel PENDING_SETTLEMENT));
    [done|].
  destruct (negb _ && negb _); [done|].
  destruct commit; cbv zeta;
    match goal with
    | |- context [payWinner backend ?f ?a ?wl ?x ?tk ?r0 ?e0 ?w0] =>
        destruct (payWinner backend f a wl x tk r0 e0 w0) as [[r e] w4]
    end; destruct (success r); cbn [negb]; try done.
  all: match goal with
       | |- context [match ?t with (_, _) => _ end] => destruct t as [treasuryTx w6]
       end.
  all: destruct (JS.BigInt _); [destruct (JS.BigInt _)|]; cbn [fst snd]; intros _.
  all: apply (written_then_unregistered id).
  - unfold refundDuel. rewrite Hg.
  destruct (is_status duel SETTLED || is_status duel REFUNDED); [done|].
  destruct (refundParticipant backend (player1 duel) (token duel) [] w) as [txs1 w2].
  destruct (refundParticipant backend (player2 duel) (token duel) txs1 w2) as [txs2 w3].
  cbn [fst snd]. intros txs _. apply (written_then_unregistered id).
Qed.

End Unregister.

Section Runs.
Import Escrow Scenario.

(** Closed goals are settled by running the model. *)
Ltac split_all := repeat match goal with |- _ /\ _ => split end.
Ltac by_run := cbv zeta; split_all; vm_compute; reflexivity.

Lemma elem_of_by_compute (x : string) (X : gset string) :
  bool_decide (x ∈ X) = true -> x ∈ X.
Proof. apply bool_decide_eq_true_1. Qed.

(** C2, the claim as stated fails: after three failed payout attempts the
    duel id is in both recovery sets. *)
Lemma settle_exhausted_not_disjoint :
  let out := settleDuel keyed cfg down duelA alice None CommitFailed w_active in
  fst out = SettleError (PayoutFailed 3 "network error") /\
  status <$> stored duelA (snd out) = Some ACTIVE /\
  duelA ∈ MemoryStore.pendingRecovery (store (snd out)) /\
  duelA ∈ MemoryStore.failedRecovery (store (snd out)) /\
  ~ (MemoryStore.pendingRecovery (store (snd out)) ##
     MemoryStore.failedRecovery (store (snd out))).
Proof.
  assert (duelA ∈ MemoryStore.pendingRecovery
            (store (snd (settleDuel keyed cfg down duelA alice None CommitFailed w_active))))
    as Hp by (apply elem_of_by_compute; vm_compute; reflexivity).
  assert (duelA ∈ MemoryStore.failedRecovery
            (store (snd (settleDuel keyed cfg down duelA alice None CommitFailed w_active))))
    as Hf by (apply elem_of_by_compute; vm_compute; reflexivity).
  cbv zeta. split; [vm_compute; reflexivity|]. split; [vm_compute; reflexivity|].
  split; [exact Hp|]. split; [exact Hf|].
  intros Hdisj. apply (Hdisj duelA); [exact Hp | exact Hf].
Qed.

(** C3, the claim as stated fails: an emergency refund turns a SETTLED
    duel into a REFUNDED one. *)
Lemma emergency_refund_leaves_settled :
  status <$> stored duelA w_settled = Some SETTLED /\
  status <$> stored duelA
    (snd (emergencyRefund up duelA alice bob (JS.Number 110000000) "SOL" w_settled))
    = Some REFUNDED.
Proof. by_run. Qed.

(** C5, the claim as stated fails: Alice's duel is SETTLED and a new duel
    of hers has put her stealth id back into the reverse map. *)
Lemma settled_duel_participant_registered_again :
  let w := go [ReqCreate duelB (params alice carol sol_0_11 "SOL")] w_settled in
  (exists d, stored duelA w = Some d /\ status d = SETTLED /\
             stealthId (player1 d) = keyed alice) /\
  sessionMap w !! keyed alice = Some alice.
Proof.
  cbv zeta. split.
  - eexists. split; [vm_compute; reflexivity|]. split; vm_compute; reflexivity.
  - vm_compute; reflexivity.
Qed.

(** C8, the claim as stated fails: a refund of an ACTIVE duel leaves it
    REFUNDED with both stakes still flagged as locked. *)
Lemma refunded_with_both_locked :
  let w := go [ReqRefund duelA] w_active in
  exists d, stored duelA w = Some d /\ bothLocked d = true /\ status d = REFUNDED.
Proof.
  cbv zeta. eexists. split; [vm_compute; reflexivity|]. split; vm_compute; reflexivity.
Qed.

(** C6, the code at the failing input: Alice's stake is locked, her
    refund transfer fails, and the refund call answers with success and
    no tx id; the duel is REFUNDED and in neither recovery set. *)
Theorem failed_refund_is_lost :
  let out := refundDuel down duelA w_one_locked in
  fst out = RefundOk [] /\
  length (transfers (snd out)) = 1%nat /\
  status <$> stored duelA (snd out) = Some REFUNDED /\
  getPendingSettlements (snd out) = [] /\
  getFailedDuels (snd out) = [].
Proof. by_run. Qed.

(** C7, the code at the failing input: 7.96 USD1 of dust is above the
    USD1 minimum of either table, yet the sweep compares it with the
    0.1 SOL threshold, reports it under the minimum and transfers
    nothing. *)
Theorem usd1_dust_not_swept :
  let dustAmount := getAccumulatedDust "USD1" w_usd1_dust in
  let out := sweepDustToTreasury cfg up "USD1" w_usd1_dust in
  dustAmount = JS.Number 7960000 /\
  Config.TOKEN_MINIMUMS "USD1" = Some 5500000 /\
  Config.SHADOWWIRE_TOKEN_MINIMUMS "USD1" = Some 5000000 /\
  JS.ge dustAmount (JS.Number 5500000) = true /\
  s_success (fst out) = false /\
  s_error (fst out) = Some (DustBelowMinimum dustAmount) /\
  snd out = w_usd1_dust.
Proof. by_run. Qed.

(** C9, the code at the failing input: the duel is created and stored in
    the same millisecond, so the store entry expires at [expires_at]
    too; a lock arriving at exactly [expires_at] finds the entry evicted
    and is answered 'Duel not found', although the engine's own deadline
    test would have let it pass.  One millisecond earlier the lock is
    accepted, one millisecond later it is rejected as well. *)
Theorem lock_at_deadline_not_found :
  let deadline := Config.escrowTimeoutMs cfg in
  (expiresAt <$> stored duelA w_created) = Some (clock w_created + deadline) /\
  fst (lockStakeWithProof keyed notJSON duelA alice "tx_p1" (tick deadline w_created))
    = LockError DuelNotFound /\
  stored duelA
    (snd (lockStakeWithProof keyed notJSON duelA alice "tx_p1" (tick deadline w_created)))
    = None /\
  fst (lockStakeWithProof keyed notJSON duelA alice "tx_p1" (tick (deadline - 1) w_created))
    = LockOk "tx_p1" false /\
  fst (lockStakeWithProof keyed notJSON duelA alice "tx_p1" (tick (deadline + 1) w_created))
    = LockError DuelNotFound.
Proof. by_run. Qed.

(** C4, the claim as stated fails: a stake of 0.1 SOL is 100000000
    lamports, below the SOL minimum of 110000000, and the duel is not
    created. *)
Lemma create_sol_0_1_rejected :
  let out := createDuel keyed cfg duelA (params alice bob (JS.decimal 1 1) "SOL") w0 in
  fst out = CreateError (StakeTooLow (JS.decimal 11 2) "SOL") /\
  stored duelA (snd out) = None.
Proof. by_run. Qed.

(** C1, the claim as stated fails: for a stake of 80000000000001 units
    the deposit computed in double precision is 79600000000001, one unit
    above [floor (S * 0.995)], and the payout returned by settle is two
    units above [P - H]. *)
Lemma payout_rounding_off_by_one :
  let out := settleDuel keyed cfg up duelA alice None CommitFailed w_radr_active in
  (stakeAmount <$> (player1 <$> stored duelA w_radr_active)) = Some 80000000000001 /\
  fst out = SettleOk (Some "tx0"%string) None 156016000000002 3184000000000 None None /\
  JS.BigInt (Payout.actualDepositPerPlayer
               (Payout.compute 80000000000001 (JS.Number 2))) = Some 79600000000001 /\
  Payout.spec_deposit 80000000000001 = 79600000000000 /\
  Payout.spec_houseFee 80000000000001 2 = 3184000000000 /\
  Payout.spec_winnerPayout 80000000000001 2 = 156016000000000.
Proof. by_run. Qed.

End Runs.

Section Create.
Import Escrow.
Variable hmac : string -> string.
Variable config : Config.t.

(** C4 (as the code has it): a SOL duel with a stake of 0.1 is rejected as
    below the minimum of 0.11 SOL and leaves the world as it was; with a
    stake of 0.11 it is accepted: the duel is stored in status
    PENDING_STAKES and its stakeAmountLamports reads "110000000". *)
Theorem create_sol_minimum (newId p1 p2 c1 c2 n1 n2 : string)
    (rules : option PartialRules) (w : World) :
  let request stake :=
    {| player1Wallet := p1; player2Wallet := p2;
       player1CharacterId := c1; player2CharacterId := c2;
       player1Name := n1; player2Name := n2;
       stakeAmountSol := stake; param_token := Some "SOL"%string;
       param_rules := rules |} in
  createDuel hmac config newId (request (JS.decimal 1 1)) w
    = (CreateError (StakeTooLow (JS.decimal 11 2) "SOL"), w) /\
  exists d,
    fst (createDuel hmac config newId (request (JS.decimal 11 2)) w) = CreateOk d /\
    stored newId (snd (createDuel hmac config newId (request (JS.decimal 11 2)) w))
      = Some d /\
    status d = PENDING_STAKES /\
    stakeAmountLamports d = "110000000"%string.
Proof.
  cbv zeta. unfold createDuel; cbn.
  assert (JS.lt (JS.Math_floor (JS.mul (JS.decimal 1 1) (JS.pow10 9)))
            (JS.Number 110000000) = true) as -> by (vm_compute; reflexivity).
  assert (JS.lt (JS.Math_floor (JS.mul (JS.decimal 11 2) (JS.pow10 9)))
            (JS.Number 110000000) = false) as -> by (vm_compute; reflexivity).
  assert (JS.BigInt (JS.Math_floor (JS.mul (JS.decimal 11 2) (JS.pow10 9)))
            = Some 110000000) as -> by (vm_compute; reflexivity).
  assert (JS.div (JS.Number 110000000) (JS.pow10 9) = JS.decimal 11 2) as ->
    by (vm_compute; reflexivity).
  cbn. split; [reflexivity|]. eexists. split; [reflexivity|].
  split; [unfold stored; cbn; by rewrite lookup_insert_eq|].
  split; [reflexivity | vm_compute; reflexivity].
Qed.

End Create.

Section Witnesses.
Import Escrow Scenario.

(** A failed sweep of 0.398 SOL of dust, followed by one that succeeds. *)
Lemma sweep_failure_keeps_dust_witness :
  success (outcome flaky (length (transfers w_sol_dust))) = false /\
  getAccumulatedDust "SOL" (snd (sweepDustToTreasury cfg flaky "SOL" w_sol_dust))
    = getAccumulatedDust "SOL" w_sol_dust /\
  s_amount (fst (sweepDustToTreasury cfg flaky "SOL"
                   (snd (sweepDustToTreasury cfg flaky "SOL" w_sol_dust))))
    = getAccumulatedDust "SOL" w_sol_dust.
Proof.
  assert (success (outcome flaky (length (transfers w_sol_dust))) = false) as H
    by (vm_compute; reflexivity).
  destruct (sweep_failure_keeps_dust cfg flaky "SOL" w_sol_dust H)
    as (_ & _ & Hdust & Hagain).
  split; [exact H|]. split; [exact Hdust|].
  apply Hagain; vm_compute; reflexivity.
Defined.

(** The settlement of an ACTIVE duel while the backend is down. *)
Lemma settle_exhausted_keeps_pending_witness :
  (forall k, (k < 3)%nat ->
     success (outcome down (length (transfers w_active) + k)) = false) /\
  duelA ∈ MemoryStore.pendingRecovery
    (store (snd (settleDuel keyed cfg down duelA alice None CommitFailed w_active))).
Proof.
  assert (forall k, (k < 3)%nat ->
            success (outcome down (length (transfers w_active) + k)) = false) as Hall
    by (intros k _; reflexivity).
  split; [exact Hall|].
  apply (settle_exhausted_keeps_pending keyed cfg down duelA alice None CommitFailed
           w_active (duel_at duelA w_active)).
  - vm_compute; reflexivity.
  - left; vm_compute; reflexivity.
  - left; vm_compute; reflexivity.
  - exact Hall.
Defined.

(** A refund request for a SETTLED duel. *)
Lemma terminal_status_final_witness :
  stored duelA w_settled = Some (duel_at duelA w_settled) /\
  terminal (status (duel_at duelA w_settled)) /\
  (stored duelA (handle keyed cfg up notJSON (ReqRefund duelA) w_settled)
     = Some (duel_at duelA w_settled) \/
   stored duelA (handle keyed cfg up notJSON (ReqRefund duelA) w_settled) = None).
Proof.
  assert (stored duelA w_settled = Some (duel_at duelA w_settled)) as H1
    by (vm_compute; reflexivity).
  assert (terminal (status (duel_at duelA w_settled))) as H2
    by (left; vm_compute; reflexivity).
  split; [exact H1|]. split; [exact H2|].
  exact (proj1 (terminal_status_final keyed cfg up notJSON duelA w_settled
                  (duel_at duelA w_settled) H1 H2) (ReqRefund duelA) I).
Defined.

(** The settlement of an ACTIVE duel on a working backend. *)
Lemma terminal_call_unregisters_witness :
  fst (getDuel duelA w_active) = Some (duel_at duelA w_active) /\
  sessionMap (snd (settleDuel keyed cfg up duelA alice None CommitFailed w_active))
    !! stealthId (player1 (duel_at duelA w_active)) = None.
Proof.
  assert (fst (getDuel duelA w_active) = Some (duel_at duelA w_active)) as H1
    by (vm_compute; reflexivity).
  split; [exact H1|].
  apply (proj1 (terminal_call_unregisters keyed cfg up duelA w_active
                  (duel_at duelA w_active) H1) alice None CommitFailed).
  vm_compute; exact I.
Defined.

(** A duel right after its second stake was locked. *)
Lemma both_locked_status_witness :
  bothLocked (duel_at duelA w_active) = true /\
  (status (duel_at duelA w_active) = ACTIVE \/
   status (duel_at duelA w_active) = PENDING_SETTLEMENT \/
   status (duel_at duelA w_active) = SETTLED \/
   status (duel_at duelA w_active) = REFUNDED).
Proof.
  assert (bothLocked (duel_at duelA w_active) = true) as H2 by (vm_compute; reflexivity).
  split; [exact H2|].
  apply (both_locked_status keyed cfg up notJSON (active_requests sol_0_11 "SOL")
           start duelA (duel_at duelA w_active)); [vm_compute; reflexivity | exact H2].
Defined.

End Witnesses.

Section SettlePayout.
Import Rounding JS Escrow.
Variable hmac : string -> string.
Variable config : Config.t.
Variable backend : Backend.

(** Every step of the payout computation is exact for stakes below [2^46]
    and a whole house fee percent between 0 and 10. *)
Lemma compute_exact (S f : Z) :
  0 <= S < 2 ^ 46 -> 0 <= f <= 10 ->
  Payout.compute S (Number f) =
    {| Payout.stakePerPlayer := Number S;
       Payout.actualDepositPerPlayer := Number (Payout.spec_deposit S);
       Payout.actualTotalPot := Number (Payout.spec_pot S);
       Payout.houseFee := Number (Payout.spec_houseFee S f);
       Payout.winnerPayout := Number (Payout.spec_winnerPayout S f) |}.
Proof.
  intros HS Hf.
  unfold Payout.compute, Payout.spec_winnerPayout, Payout.spec_houseFee, Payout.spec_pot,
    Payout.spec_deposit.
  set (A := S * 995 / 1000).
  assert (0 <= A < 2 ^ 46) as HA.
  { unfold A. split; [apply Z.div_pos; lia|].
    apply Z.div_lt_upper_bound; lia. }
  change (2 ^ 46) with 70368744177664 in *.
  rewrite (deposit_exact S) by (change (2 ^ 46) with 70368744177664; lia). fold A.
  rewrite (mul_Number A 2) by (change (2 ^ 53) with 9007199254740992; lia).
  replace (A * 2) with (2 * A) by ring.
  rewrite (mul_Number (2 * A) f) by (change (2 ^ 53) with 9007199254740992; nia).
  rewrite (fee_exact (2 * A * f)) by (change (2 ^ 52) with 4503599627370496; nia).
  assert (0 <= 2 * A * f / 100 <= 2 * A) as HH.
  { split; [apply Z.div_pos; nia|].
    apply Z.div_le_upper_bound; nia. }
  rewrite (sub_Number (2 * A) (2 * A * f / 100)) by
    (change (2 ^ 53) with 9007199254740992; lia).
  reflexivity.
Qed.

(** C1 (as the code has it): for a duel whose per-player stake [S] is
    below [2^46] smallest units and whose house fee percent [f] is a whole
    number between 0 and 10, a settle call that goes through returns
    winnerPayoutLamports [P - H] and houseFeeLamports [H], where
    [A = floor (S * (1 - 0.5/100))], [P = 2 * A] and
    [H = floor (P * f / 100)] in exact arithmetic; for [S = 100000000] and
    [f = 2] these are 195020000 and 3980000. *)
Theorem settle_payout_exact (id winnerWallet : string) (summary : option CombatSummary)
    (commit : CommitOutcome) (w : World) (duel : DuelSession) (f : Z) :
  fst (getDuel id w) = Some duel ->
  0 <= stakeAmount (player1 duel) < 2 ^ 46 ->
  houseFeePercent duel = Number f ->
  0 <= f <= 10 ->
  let S := stakeAmount (player1 duel) in
  let out := settleDuel hmac config backend id winnerWallet summary commit w in
  Payout.compute S (Number f) =
    {| Payout.stakePerPlayer := Number S;
       Payout.actualDepositPerPlayer := Number (Payout.spec_deposit S);
       Payout.actualTotalPot := Number (Payout.spec_pot S);
       Payout.houseFee := Number (Payout.spec_houseFee S f);
       Payout.winnerPayout := Number (Payout.spec_winnerPayout S f) |} /\
  (settled_by (fst out) ->
   exists winnerTx treasuryTx commitmentHash commitmentTx,
     fst out = SettleOk winnerTx treasuryTx
                 (Payout.spec_winnerPayout S f) (Payout.spec_houseFee S f)
                 commitmentHash commitmentTx) /\
  Payout.spec_deposit 100000000 = 99500000 /\
  Payout.spec_pot 100000000 = 199000000 /\
  Payout.spec_houseFee 100000000 2 = 3980000 /\
  Payout.spec_winnerPayout 100000000 2 = 195020000.
Proof.
  intros Hget HS Hfee Hf S out.
  split; [by apply compute_exact|].
  split; [|by vm_compute].
  subst out S. unfold settleDuel.
  destruct (getDuel_Some id w duel Hget) as [Hw Hstored].
  assert (getDuel id w = (Some duel, w)) as ->.
  { destruct (getDuel id w); simpl in *; congruence. }
  rewrite Hfee, (compute_exact _ f HS Hf).
  destruct (negb (is_status duel ACTIVE) && negb (is_status duel PENDING_SETTLEMENT));
    simpl; [done|].
  destruct (negb _ && negb _); simpl; [done|].
  assert (0 <= Payout.spec_houseFee (stakeAmount (player1 duel)) f
          <= Payout.spec_pot (stakeAmount (player1 duel)) /\
          Payout.spec_pot (stakeAmount (player1 duel)) < 2 ^ 47) as [HH HP].
  { unfold Payout.spec_houseFee, Payout.spec_pot, Payout.spec_deposit.
    assert (0 <= stakeAmount (player1 duel) * 995 / 1000 < 2 ^ 46) as HA.
    { split; [apply Z.div_pos; lia|]. apply Z.div_lt_upper_bound; lia. }
    change (2 ^ 46) with 70368744177664 in *. change (2 ^ 47) with 140737488355328.
    split; [split|]; [apply Z.div_pos; nia | apply Z.div_le_upper_bound; nia | lia]. }
  rewrite !BigInt_Number by
    (unfold Payout.spec_winnerPayout;
     change (2 ^ 47) with 140737488355328 in *; change (2 ^ 53) with 9007199254740992; lia).
  destruct commit; simpl;
    match goal with
    | |- context [payWinner backend ?fu ?a ?wl ?x ?tk ?r0 ?e0 ?w0] =>
        destruct (payWinner backend fu a wl x tk r0 e0 w0) as [[r e] w4]
    end; destruct (success r); simpl; try done.
  all: repeat match goal with
         | |- context [if ?b then _ else _] => destruct b; simpl
         end.
  all: intros _; by do 4 eexists.
Qed.

End SettlePayout.

Section PayoutWitness.
Import Escrow Scenario.

(** The exact payout at work: the settlement of a duel of 100 USD1 a side
      at a house fee of two percent. *)
Lemma settle_payout_exact_witness :
  stakeAmount (player1 (duel_at duelA w_usd1_active)) = 100000000 /\
  exists winnerTx treasuryTx commitmentHash commitmentTx,
    fst (settleDuel keyed cfg up duelA alice None CommitFailed w_usd1_active)
      = SettleOk winnerTx treasuryTx
          (Payout.spec_winnerPayout 100000000 2) (Payout.spec_houseFee 100000000 2)
          commitmentHash commitmentTx.
Proof.
  split; [vm_compute; reflexivity|].
  apply (proj1 (proj2 (settle_payout_exact keyed cfg up duelA alice None CommitFailed
                  w_usd1_active (duel_at duelA w_usd1_active) 2
                  ltac:(vm_compute; reflexivity)
                  ltac:(vm_compute; split; [discriminate | reflexivity])
                  ltac:(vm_compute; reflexivity)
                  ltac:(lia)))).
  vm_compute; exact I.
Defined.

End PayoutWitness.

(* ===================================================================== *)
(** ** Stealth ids: comparison, normalisation and the session map *)
(* ===================================================================== *)

Section StealthMore.
Import Stealth.
Variable hmac : string -> string.

Lemma string_app_nil (b : string) : "" +:+ b = b.
Proof. reflexivity. Qed.

Lemma string_app_cons (c : ascii) (a b : string) :
  String c a +:+ b = String c (a +:+ b).
Proof. reflexivity. Qed.

Lemma string_length_app (a b : string) :
  String.length (a +:+ b) = (String.length a + String.length b)%nat.
Proof.
  induction a as [|c a IH]; rewrite ?string_app_nil, ?string_app_cons; simpl;
    [done | by rewrite IH].
Qed.

Lemma all_space_app (a b : string) :
  forallb is_space (list_ascii_of_string (a +:+ b)) =
  forallb is_space (list_ascii_of_string a) && forallb is_space (list_ascii_of_string b).
Proof.
  induction a as [|c a IH]; rewrite ?string_app_nil, ?string_app_cons; simpl;
    [done | by rewrite IH, andb_assoc].
Qed.

Lemma trim_start_spaces (ws s : string) :
  forallb is_space (list_ascii_of_string ws) = true ->
  trim_start (ws +:+ s) = trim_start s.
Proof.
  induction ws as [|c ws IH]; rewrite ?string_app_nil, ?string_app_cons; simpl; [done|].
  intros [Hc Hws]%andb_true_iff. rewrite Hc. by apply IH.
Qed.

Lemma trim_end_all_space (ws : string) :
  forallb is_space (list_ascii_of_string ws) = true -> trim_end ws = "".
Proof.
  induction ws as [|c ws IH]; simpl; [done|].
  intros [Hc Hws]%andb_true_iff. by rewrite (IH Hws), Hc.
Qed.

Lemma trim_end_spaces (s ws : string) :
  forallb is_space (list_ascii_of_string ws) = true ->
  trim_end (s +:+ ws) = trim_end s.
Proof.
  intros Hws. induction s as [|c s IH]; rewrite ?string_app_nil, ?string_app_cons; simpl.
  - by apply trim_end_all_space.
  - by rewrite IH.
Qed.

Lemma trim_app_spaces (w ws : string) :
  forallb is_space (list_ascii_of_string ws) = true ->
  trim_end (trim_start (w +:+ ws)) = trim_end (trim_start w).
Proof.
  intros Hws. induction w as [|c w IH]; rewrite ?string_app_nil, ?string_app_cons; simpl.
  - assert (forall s, forallb is_space (list_ascii_of_string s) = true -> trim_start s = "")
      as H by (clear; induction s as [|c s IH]; simpl; [done|];
               intros [-> Hs]%andb_true_iff; by apply IH).
    by rewrite (H ws Hws).
  - destruct (is_space c); [done|].
    rewrite <- string_app_cons. by apply trim_end_spaces.
Qed.

(** White space around a wallet address does not change its stealth id:
    the padded address hashes to the same id and is verified against
    it. *)
Theorem stealth_id_ignores_padding (before wallet after : string) :
  forallb is_space (list_ascii_of_string before) = true ->
  forallb is_space (list_ascii_of_string after) = true ->
  generateStealthId hmac (before +:+ wallet +:+ after) = generateStealthId hmac wallet /\
  verifyStealthId hmac (before +:+ wallet +:+ after) (generateStealthId hmac wallet) = true.
Proof.
  intros Hb Ha.
  assert (generateStealthId hmac (before +:+ wallet +:+ after) = generateStealthId hmac wallet)
    as E.
  { unfold generateStealthId, trim. f_equal.
    rewrite (trim_start_spaces before _ Hb). by apply trim_app_spaces. }
  split; [done|]. apply verifyStealthId_spec. done.
Qed.


(** The session map: a registered wallet is resolved from its stealth id
    until it is unregistered, the other entries are left alone, and of two
    wallets with the same stealth id the one registered last is kept. *)
Theorem session_map_round_trip (wallet other : string) (m : gmap string string) :
  let '(sid, m') := register hmac wallet m in
  sid = generateStealthId hmac wallet /\
  resolve sid m' = Some wallet /\ has sid m' = true /\
  resolve sid (unregister sid m') = None /\ has sid (unregister sid m') = false /\
  (forall sid', sid' <> sid ->
     resolve sid' m' = resolve sid' m /\
     resolve sid' (unregister sid m') = resolve sid' m) /\
  (generateStealthId hmac other = sid ->
   resolve sid (snd (register hmac other m')) = Some other).
Proof.
  unfold register, resolve, has, unregister; simpl.
  split; [done|]. rewrite lookup_insert_eq. split; [done|].
  split; [by apply bool_decide_eq_true|].
  rewrite lookup_delete_eq. split; [done|].
  split; [by apply bool_decide_eq_false; intros [? ?]|].
  split.
  - intros sid' Hne. rewrite lookup_insert_ne by done.
    rewrite lookup_delete_ne by done. by rewrite lookup_insert_ne by done.
  - intros ->. by rewrite lookup_insert_eq.
Qed.

Lemma generateStealthIds_fold (wallets : list string) :
  forall (acc : gmap string string) (w : string),
    fold_left (fun result wallet => <[wallet := generateStealthId hmac wallet]> result)
      wallets acc !! w =
    if decide (w ∈ wallets) then Some (generateStealthId hmac w) else acc !! w.
Proof.
  induction wallets as [|x wallets IH]; intros acc w; simpl.
  - destruct (decide (w ∈ [])) as [Hin|_]; [by apply elem_of_nil in Hin | done].
  - rewrite IH.
    destruct (decide (w ∈ wallets)) as [Hin|Hnin];
      destruct (decide (w ∈ x :: wallets)) as [Hin'|Hnin']; try done.
    + exfalso. apply Hnin'. by right.
    + apply elem_of_cons in Hin' as [->|?]; [|done]. by rewrite lookup_insert_eq.
    + rewrite lookup_insert_ne; [done|]. intros <-. apply Hnin'. by left.
Qed.

(** The batch map holds the stealth id of every wallet of the batch and
    nothing else, however often a wallet is listed. *)
Theorem generateStealthIds_lookup (wallets : list string) (w : string) :
  generateStealthIds hmac wallets !! w =
  if decide (w ∈ wallets) then Some (generateStealthId hmac w) else None.
Proof. unfold generateStealthIds. by rewrite generateStealthIds_fold, lookup_empty. Qed.

End StealthMore.

Section StealthWitnesses.
Import Stealth.

Lemma stealth_id_ignores_padding_witness :
  generateStealthId Scenario.keyed ("  " +:+ Scenario.alice +:+ " ") =
  generateStealthId Scenario.keyed Scenario.alice /\
  verifyStealthId Scenario.keyed ("  " +:+ Scenario.alice +:+ " ")
    (generateStealthId Scenario.keyed Scenario.alice) = true.
Proof.
  apply (stealth_id_ignores_padding Scenario.keyed "  " Scenario.alice " ");
    reflexivity.
Defined.

End StealthWitnesses.

Section MaskWallet.
Import Stealth.

Lemma substring_all (s : string) : substring 0 (String.length s) s = s.
Proof. induction s as [|c s IH]; simpl; [done | by rewrite IH]. Qed.

Lemma substring_prefix (a s : string) :
  substring 0 (String.length a) (a +:+ s) = a.
Proof.
  induction a as [|c a IH]; rewrite ?string_app_nil, ?string_app_cons; simpl;
    [by destruct s | by rewrite IH].
Qed.

Lemma string_app_assoc (a b c : string) : a +:+ (b +:+ c) = (a +:+ b) +:+ c.
Proof.
  induction a as [|x a IH]; rewrite ?string_app_nil, ?string_app_cons;
    [done | by rewrite IH].
Qed.

Lemma substring_length (s : string) :
  forall n m : nat,
    String.length (substring n m s) = Nat.min m (String.length s - n).
Proof.
  induction s as [|c s IH]; intros [|n] [|m]; cbn [substring String.length];
    rewrite ?IH; lia.
Qed.

Lemma substring_skip (a s : string) (n : nat) :
  substring (String.length a) n (a +:+ s) = substring 0 n s.
Proof.
  induction a as [|c a IH]; rewrite ?string_app_nil, ?string_app_cons; simpl; done.
Qed.

(** The mask of a wallet address shows its first four and its last four
    characters and nothing of what lies between them; an address of at
    most eight characters is hidden altogether, so a mask has four or
    eleven characters. *)
Theorem maskWallet_hides_middle (first middle last : string) :
  String.length first = 4%nat -> String.length last = 4%nat -> middle <> "" ->
  maskWallet (first +:+ middle +:+ last) = first +:+ "..." +:+ last /\
  (forall wallet, (String.length wallet <= 8)%nat -> maskWallet wallet = "****") /\
  (forall wallet, String.length (maskWallet wallet) =
     (if (String.length wallet <=? 8)%nat then 4 else 11)%nat).
Proof.
  intros Hf Hl Hm. split; [|split].
  - unfold maskWallet.
    assert (0 < String.length middle)%nat as Hmid.
    { destruct middle; simpl; [done | lia]. }
    rewrite !string_length_app, Hf, Hl.
    rewrite (proj2 (Nat.leb_gt _ _)) by lia.
    unfold slice. rewrite !string_length_app, Hf, Hl. simpl.
    f_equal; [|f_equal].
    + replace (Z.to_nat (Z.min 0 _)) with 0%nat by lia.
      replace (Z.to_nat (Z.max (Z.min 4 _ - Z.min 0 _) 0)) with (String.length first) by lia.
      apply substring_prefix.
    + replace (Z.to_nat (Z.max (_ + -4) 0))
        with (String.length first + String.length middle)%nat by lia.
      replace (Z.to_nat (Z.max _ 0)) with (String.length last) by lia.
      rewrite <- string_length_app, string_app_assoc, substring_skip.
      apply substring_all.
  - intros wallet Hle. unfold maskWallet. by rewrite (proj2 (Nat.leb_le _ _)).
  - intros wallet. unfold maskWallet.
    destruct (String.length wallet <=? 8)%nat eqn:E; [done|].
    apply Nat.leb_gt in E. unfold slice.
    rewrite !string_length_app, !substring_length. simpl. lia.
Qed.

Lemma maskWallet_hides_middle_witness :
  maskWallet "7xKXtg2CW87d97TXJSDpbD5jBkheTqA83TZRuJosg9fGh" = "7xKX...9fGh".
Proof.
  apply (maskWallet_hides_middle "7xKX" "tg2CW87d97TXJSDpbD5jBkheTqA83TZRuJosg" "9fGh");
    [reflexivity | reflexivity | discriminate].
Defined.

End MaskWallet.

(* ===================================================================== *)
(** ** The store: expiry, the reaper and the listings *)
(* ===================================================================== *)

Section StoreFacts.
Import MemoryStore.

(** A session written at [now] with a time to live can be read at [t]
    exactly while [t < now + ttl]; a later read finds nothing, removes the
    entry and counts it as expired.  A time to live of zero or less is
    never readable, not even at once. *)
Theorem setDuel_getDuel_ttl (now later ttl : Z) (id : string) (d : DuelSession)
    (s : MemoryStore.t) :
  let s1 := setDuel now id d ttl s in
  fst (getDuel later id s1) = (if later <? now + ttl then Some d else None) /\
  ((later <? now + ttl) = true -> snd (getDuel later id s1) = s1) /\
  ((later <? now + ttl) = false ->
   duels (snd (getDuel later id s1)) !! id = None /\
   duelsExpired (snd (getDuel later id s1)) = duelsExpired s + 1) /\
  fst (getDuel now id (setDuel now id d 0 s)) = None.
Proof.
  cbv zeta. unfold getDuel, setDuel, expired; simpl.
  rewrite !lookup_insert_eq; simpl.
  rewrite Z.add_0_r, Z.leb_refl.
  destruct (now + ttl <=? later) eqn:E.
  - apply Z.leb_le in E. rewrite (proj2 (Z.ltb_ge later (now + ttl))) by lia.
    simpl. rewrite lookup_delete_eq. repeat split; done.
  - apply Z.leb_gt in E. rewrite (proj2 (Z.ltb_lt later (now + ttl))) by lia.
    repeat split; done.
Qed.

Lemma live_not_expired (now : Z) (item : StoredItem) :
  live now item = negb (expired now item).
Proof.
  unfold live, expired. destruct (item_expiresAt item) as [e|]; [|done].
  destruct (Z.ltb_spec now e), (Z.leb_spec e now); simpl; try done; lia.
Qed.

Lemma cleanup_lookup (now : Z) (s : MemoryStore.t) (id : string) :
  duels (cleanup now s) !! id =
  match duels s !! id with
  | Some item => if expired now item then None else Some item
  | None => None
  end.
Proof.
  unfold cleanup; simpl.
  destruct (duels s !! id) as [item|] eqn:E.
  - destruct (expired now item) eqn:Ex.
    + apply map_lookup_filter_None. right. intros x Hx. simpl.
      rewrite E in Hx. injection Hx as <-. by rewrite Ex.
    + apply map_lookup_filter_Some. by split.
  - apply map_lookup_filter_None. by left.
Qed.

(** The reaper removes the expired entries and only those, and what it
    removes no read would have returned: a read right after the reaper
    answers as a read in its place and finds nothing left to evict; the
    reaper run twice at the same instant does nothing the second time. *)
Theorem cleanup_removes_expired_only (now : Z) (s : MemoryStore.t) (id : string) :
  fst (getDuel now id (cleanup now s)) = fst (getDuel now id s) /\
  snd (getDuel now id (cleanup now s)) = cleanup now s /\
  duels (snd (getDuel now id s)) !! id = duels (cleanup now s) !! id /\
  cleanup now (cleanup now s) = cleanup now s.
Proof.
  assert (forall m : gmap string StoredItem,
            filter (fun kv => expired now (snd kv) = false)
              (filter (fun kv => expired now (snd kv) = false) m) =
            filter (fun kv => expired now (snd kv) = false) m) as Hidem.
  { intros m. apply map_eq. intros i.
    destruct (filter _ m !! i) as [x|] eqn:E.
    - apply map_lookup_filter_Some. split; [done|].
      by apply map_lookup_filter_Some in E as [_ ?].
    - apply map_lookup_filter_None. by left. }
  split; [|split; [|split]].
  - unfold getDuel. rewrite cleanup_lookup.
    destruct (duels s !! id) as [item|]; [|done].
    destruct (expired now item) eqn:Ex; [done | by rewrite Ex].
  - unfold getDuel. rewrite cleanup_lookup.
    destruct (duels s !! id) as [item|]; [|done].
    destruct (expired now item) eqn:Ex; [done | by rewrite Ex].
  - rewrite cleanup_lookup. unfold getDuel.
    destruct (duels s !! id) as [item|] eqn:E; simpl; [|done].
    destruct (expired now item) eqn:Ex; simpl; [by rewrite lookup_delete_eq | done].
  - unfold cleanup; simpl. rewrite Hidem. unfold with_duels; simpl. f_equal. lia.
Qed.

(** The listing of all duels holds exactly the sessions a read would
    return at that instant, and [hasDuel] says whether a read returns
    one. *)
Theorem getAllDuels_agrees_with_getDuel (now : Z) (s : MemoryStore.t) (d : DuelSession) (id : string) :
  (d ∈ getAllDuels now s <-> exists id', fst (getDuel now id' s) = Some d) /\
  (fst (hasDuel now id s) = true <-> is_Some (fst (getDuel now id s))) /\
  snd (hasDuel now id s) = snd (getDuel now id s).
Proof.
  split; [|split].
  - unfold getAllDuels, getDuel. rewrite list_elem_of_fmap. split.
    + intros (item & -> & Hin). apply list_elem_of_fmap in Hin as ([k x] & -> & Hin).
      apply list_elem_of_filter in Hin as [Hlive Hin]. simpl in *.
      apply fin_maps.elem_of_map_to_list in Hin. exists k. rewrite Hin.
      rewrite live_not_expired in Hlive. apply negb_true_iff in Hlive.
      by rewrite Hlive.
    + intros (k & Hk). destruct (duels s !! k) as [item|] eqn:E; [|done].
      destruct (expired now item) eqn:Ex; [done|]. simpl in Hk. injection Hk as <-.
      exists item. split; [done|]. apply list_elem_of_fmap. exists (k, item).
      split; [done|]. apply list_elem_of_filter. split.
      * simpl. by rewrite live_not_expired, Ex.
      * by apply fin_maps.elem_of_map_to_list.
  - unfold hasDuel. destruct (getDuel now id s) as [found s']; simpl.
    by rewrite bool_decide_eq_true.
  - unfold hasDuel. by destruct (getDuel now id s).
Qed.

End StoreFacts.

Section Counters.
Import Escrow.
Variable hmac : string -> string.
Variable config : Config.t.
Variable backend : Backend.
Variable JSON_parse : string -> option ProofData.

Lemma cc_setDuel (now : Z) (id : string) (d : DuelSession) (ttl : Z) (s : MemoryStore.t) :
  counters_consistent s -> counters_consistent (MemoryStore.setDuel now id d ttl s).
Proof.
  unfold counters_consistent, MemoryStore.setDuel; simpl. intros [H0 H].
  rewrite map_size_insert. destruct (MemoryStore.duels s !! id); simpl; lia.
Qed.

Lemma cc_getDuel (now : Z) (id : string) (s : MemoryStore.t) :
  counters_consistent s -> counters_consistent (snd (MemoryStore.getDuel now id s)).
Proof.
  unfold counters_consistent, MemoryStore.getDuel. intros [H0 H].
  destruct (MemoryStore.duels s !! id) as [item|] eqn:E; simpl; [|done].
  destruct (MemoryStore.expired now item); simpl; [|done].
  rewrite map_size_delete, E; simpl.
  assert (size (MemoryStore.duels s) <> 0%nat)
    by (apply (map_size_ne_0_lookup_2 _ id); by rewrite E).
  lia.
Qed.

Lemma cc_cleanup (now : Z) (s : MemoryStore.t) :
  counters_consistent s -> counters_consistent (MemoryStore.cleanup now s).
Proof.
  unfold counters_consistent, MemoryStore.cleanup; simpl. intros [H0 H].
  pose proof (map_size_filter (fun kv : string * MemoryStore.StoredItem =>
                MemoryStore.expired now (snd kv) = false) (MemoryStore.duels s)).
  lia.
Qed.

Lemma cc_frame (s s' : MemoryStore.t) :
  MemoryStore.duels s' = MemoryStore.duels s ->
  MemoryStore.duelsCreated s' = MemoryStore.duelsCreated s ->
  MemoryStore.duelsExpired s' = MemoryStore.duelsExpired s ->
  counters_consistent s -> counters_consistent s'.
Proof. unfold counters_consistent. by intros -> -> ->. Qed.

Lemma cc_world_getDuel (id : string) (w : World) :
  counters_consistent (store w) -> counters_consistent (store (snd (getDuel id w))).
Proof.
  intros H. unfold getDuel.
  pose proof (cc_getDuel (clock w) id (store w) H) as H'.
  by destruct (MemoryStore.getDuel (clock w) id (store w)).
Qed.

Lemma cc_world_setDuel (id : string) (d : DuelSession) (ttl : Z) (w : World) :
  counters_consistent (store w) -> counters_consistent (store (setDuel id d ttl w)).
Proof. apply cc_setDuel. Qed.

Lemma cc_create (newId : string) (params : CreateDuelParams) (w : World) :
  counters_consistent (store w) ->
  counters_consistent (store (snd (createDuel hmac config newId params w))).
Proof.
  intros H. unfold createDuel.
  destruct (JS.lt _ _); simpl; [done|].
  destruct (JS.BigInt _); simpl; [|done].
  by apply cc_setDuel.
Qed.

Lemma cc_lock (id wallet proof : string) (w : World) :
  counters_consistent (store w) ->
  counters_consistent (store (snd (lockStakeWithProof hmac JSON_parse id wallet proof w))).
Proof.
  intros H. unfold lockStakeWithProof.
  pose proof (cc_world_getDuel id w H) as H1.
  destruct (getDuel id w) as [[duel|] w1]; simpl in *; [|done].
  destruct (negb _); simpl; [done|].
  destruct (_ <? _); simpl; [done|].
  destruct (negb _ && negb _); simpl; [done|].
  match goal with |- context [if stakeLocked ?p then _ else _] =>
    destruct (stakeLocked p) end; simpl; [done|].
  by apply cc_setDuel.
Qed.

Lemma cc_settle (id wallet : string) (summary : option CombatSummary)
    (commit : CommitOutcome) (w : World) :
  counters_consistent (store w) ->
  counters_consistent (store (snd (settleDuel hmac config backend id wallet summary commit w))).
Proof.
  intros H. unfold settleDuel.
  pose proof (cc_world_getDuel id w H) as H1.
  destruct (getDuel id w) as [[duel|] w1]; simpl in *; [|done].
  destruct (negb _ && negb _); simpl; [done|].
  destruct (negb _ && negb _); simpl; [done|].
  destruct commit; simpl;
    match goal with
    | |- context [payWinner backend ?f ?a ?wl ?x ?tk ?r0 ?e0 ?w0] =>
        pose proof (payWinner_frame backend f a wl x tk r0 e0 w0) as Hf;
        destruct (payWinner backend f a wl x tk r0 e0 w0) as [[r e] w4]
    end; simpl in Hf; destruct Hf as [Hst4 Hm4];
    destruct (success r); simpl.
  all: repeat match goal with
         | |- context [if ?b then _ else _] => destruct b; simpl
         | |- context [match ?b with Some _ => _ | None => _ end] => destruct b; simpl
         end.
  all: rewrite ?Hst4; simpl; repeat apply cc_setDuel; done.
Qed.

Lemma cc_refund (id : string) (w : World) :
  counters_consistent (store w) ->
  counters_consistent (store (snd (refundDuel backend id w))).
Proof.
  intros H. unfold refundDuel.
  pose proof (cc_world_getDuel id w H) as H1.
  destruct (getDuel id w) as [[duel|] w1]; simpl in *; [|done].
  destruct (_ || _); simpl; [done|].
  pose proof (refundParticipant_frame backend (player1 duel) (token duel) [] w1) as [Hf1 _].
  destruct (refundParticipant backend (player1 duel) (token duel) [] w1) as [txs1 w2].
  pose proof (refundParticipant_frame backend (player2 duel) (token duel) txs1 w2) as [Hf2 _].
  destruct (refundParticipant backend (player2 duel) (token duel) txs1 w2) as [txs2 w3].
  simpl in *. apply cc_setDuel. by rewrite Hf2, Hf1.
Qed.

Lemma cc_emergency (id wallet1 wallet2 : string) (stake : JS.number) (tok : string)
    (w : World) :
  counters_consistent (store w) ->
  counters_consistent (store (snd (emergencyRefund backend id wallet1 wallet2 stake tok w))).
Proof.
  intros H. unfold emergencyRefund.
  match goal with |- context [emergencyRefundOne backend ?l ?wl ?x ?tk ?acc ?w0] =>
    pose proof (emergencyRefundOne_frame backend l wl x tk acc w0) as [Hf1 _];
    destruct (emergencyRefundOne backend l wl x tk acc w0) as [refunds1 w1] end.
  match goal with |- context [emergencyRefundOne backend ?l ?wl ?x ?tk ?acc ?w0] =>
    pose proof (emergencyRefundOne_frame backend l wl x tk acc w0) as [Hf2 _];
    destruct (emergencyRefundOne backend l wl x tk acc w0) as [refunds2 w2] end.
  simpl in Hf1, Hf2.
  destruct (forallb r_success refunds2); simpl; [|by rewrite Hf2, Hf1].
  match goal with |- context [getDuel id ?w3] =>
    pose proof (cc_world_getDuel id w3) as H3;
    destruct (getDuel id w3) as [[duel|] w4] end; simpl in *.
  - apply cc_setDuel. apply H3. by rewrite Hf2, Hf1.
  - apply H3. by rewrite Hf2, Hf1.
Qed.

Lemma cc_handle (r : Request) (w : World) :
  counters_consistent (store w) ->
  counters_consistent (store (handle hmac config backend JSON_parse r w)).
Proof.
  intros H. destruct r; simpl.
  - by apply cc_create.
  - by apply cc_lock.
  - by apply cc_settle.
  - by apply cc_refund.
  - by apply cc_emergency.
  - unfold sweepDustToTreasury. destruct (JS.lt _ _); simpl; [done|].
    by destruct (success _).
  - by apply cc_cleanup.
  - done.
Qed.

(** The counters of the store stay consistent in every world the engine
    reaches: the entries in the map and the entries counted as expired
    never outnumber the writes counted as created.  The figures reported
    by [getStats] obey the same bound. *)
Theorem store_counters_consistent (rs : list Request) (start now : Z) :
  let w := run hmac config backend JSON_parse rs (initial start) in
  counters_consistent (store w) /\
  let st := fst (MemoryStore.getStats now (store w)) in
  0 <= MemoryStore.st_duelsExpired st /\
  MemoryStore.st_activeDuels st + MemoryStore.st_duelsExpired st
    <= MemoryStore.st_duelsCreated st.
Proof.
  cbv zeta.
  assert (forall w, counters_consistent (store w) ->
            counters_consistent (store (run hmac config backend JSON_parse rs w))) as Hrun.
  { induction rs as [|r rs' IH]; intros w H; simpl; [done|].
    apply IH. by apply cc_handle. }
  assert (counters_consistent (store (initial start))) as H0.
  { unfold counters_consistent; simpl. rewrite map_size_empty. lia. }
  specialize (Hrun _ H0). split; [done|].
  apply (cc_cleanup now) in Hrun. exact Hrun.
Qed.

End Counters.

(* ===================================================================== *)
(** ** Where the funds go *)
(* ===================================================================== *)

Section Funds.
Import Escrow.
Variable hmac : string -> string.
Variable config : Config.t.
Variable backend : Backend.
Variable JSON_parse : string -> option ProofData.

Lemma payWinner_S (fuel : nat) (attempt : Z) (wallet : string) (x : JS.number)
    (tok : string) (r0 : TransferResult) (e0 : string) (w : World) :
  payWinner backend (S fuel) attempt wallet x tok r0 e0 w =
  let '(r, w1) := transferFromEscrow backend wallet x tok w in
  if success r then (r, e0, w1)
  else
    payWinner backend fuel (attempt + 1) wallet x tok r
      (str_or (error r) "Unknown error")
      (if attempt <? MAX_RETRIES then sleep RETRY_DELAY_MS w1 else w1).
Proof. reflexivity. Qed.

(** The retry loop calls the transfer client at most [fuel] times, always
    with the same recipient, amount and token. *)
Lemma payWinner_transfers (fuel : nat) :
  forall (attempt : Z) (wallet : string) (x : JS.number) (tok : string)
         (r0 : TransferResult) (e0 : string) (w : World),
    let out := payWinner backend fuel attempt wallet x tok r0 e0 w in
    exists k, (k <= fuel)%nat /\
      transfers (snd out) = transfers w ++ replicate k (call_of wallet x tok) /\
      clock w <= clock (snd out).
Proof.
  induction fuel as [|fuel IH]; intros attempt wallet x tok r0 e0 w.
  - exists 0%nat. simpl. rewrite app_nil_r. split; [lia|]. split; [done | lia].
  - cbv zeta. rewrite payWinner_S. unfold transferFromEscrow.
    destruct (success (outcome backend (length (transfers w)))).
    + exists 1%nat. simpl. split; [lia|]. split; [done | lia].
    + match goal with |- context [payWinner _ _ _ _ _ _ ?r ?e ?w1] =>
        destruct (IH (attempt + 1) wallet x tok r e w1) as (k & Hk & Ht & Hc) end.
      exists (S k). split; [lia|]. rewrite Ht. split.
      * destruct (attempt <? MAX_RETRIES); simpl; by rewrite <- app_assoc.
      * etrans; [|exact Hc]. destruct (attempt <? MAX_RETRIES); simpl; lia.
Qed.

(** A settlement moves funds to the named winner and to the treasury
    only: whatever the request and the state, the calls it adds to the
    transfer log number at most four, and when there is any, the duel is
    stored, ACTIVE or PENDING_SETTLEMENT, the winner's wallet hashes to
    the stealth id of one of its participants, and every call is either
    the winner payout or the house fee computed from the duel, in the
    duel's token. *)
Theorem settle_pays_winner_and_treasury_only (id winnerWallet : string)
    (summary : option CombatSummary) (commit : CommitOutcome) (w : World) :
  let out := settleDuel hmac config backend id winnerWallet summary commit w in
  exists l, transfers (snd out) = transfers w ++ l /\ (length l <= 4)%nat /\
    (l = [] \/
     exists d, stored id w = Some d /\
       (status d = ACTIVE \/ status d = PENDING_SETTLEMENT) /\
       (Stealth.verifyStealthId hmac winnerWallet (stealthId (player1 d)) = true \/
        Stealth.verifyStealthId hmac winnerWallet (stealthId (player2 d)) = true) /\
       let pay := Payout.compute (stakeAmount (player1 d)) (houseFeePercent d) in
       Forall (fun c =>
                 c = call_of winnerWallet (Payout.winnerPayout pay) (token d) \/
                 c = call_of (Config.treasuryWallet config) (Payout.houseFee pay) (token d))
              l).
Proof.
  cbv zeta. unfold settleDuel.
  destruct (getDuel_cases id w) as [(duel & -> & Hd) | (w1 & -> & _ & Ht & _)].
  2:{ exists []. simpl. rewrite Ht, app_nil_r. split; [done|]. split; [lia | by left]. }
  unfold is_status.
  destruct (negb (bool_decide (status duel = ACTIVE))
            && negb (bool_decide (status duel = PENDING_SETTLEMENT))) eqn:Est; simpl.
  { exists []. rewrite app_nil_r. split; [done|]. split; [simpl; lia | by left]. }
  assert (status duel = ACTIVE \/ status duel = PENDING_SETTLEMENT) as Hst.
  { destruct (status duel); simpl in Est; try done; auto. }
  clear Est.
  destruct (negb (Stealth.verifyStealthId hmac winnerWallet (stealthId (player1 duel)))
            && negb (Stealth.verifyStealthId hmac winnerWallet (stealthId (player2 duel))))
    eqn:Ever; simpl.
  { exists []. rewrite app_nil_r. split; [done|]. split; [simpl; lia | by left]. }
  assert (Stealth.verifyStealthId hmac winnerWallet (stealthId (player1 duel)) = true \/
          Stealth.verifyStealthId hmac winnerWallet (stealthId (player2 duel)) = true) as Hv.
  { destruct (Stealth.verifyStealthId hmac winnerWallet (stealthId (player1 duel)));
      [by left | right].
    by destruct (Stealth.verifyStealthId hmac winnerWallet (stealthId (player2 duel))). }
  clear Ever.
  rewrite Hd.
  destruct commit; simpl;
    match goal with
    | |- context [payWinner backend ?f ?a ?wl ?x ?tk ?r0 ?e0 ?w0] =>
        destruct (payWinner_transfers f a wl x tk r0 e0 w0) as (k & Hk & Htr & _);
        destruct (payWinner backend f a wl x tk r0 e0 w0) as [[r e] w4]
    end; simpl in Htr; change (Z.to_nat MAX_RETRIES) with 3%nat in Hk;
    destruct (success r); simpl.
  all: repeat match goal with
         | |- context [if ?b then _ else _] => destruct b; simpl
         | |- context [match ?b with Some _ => _ | None => _ end] => destruct b; simpl
         end.
  all: rewrite Htr.
  all: eexists; split; [rewrite <- ?app_assoc; reflexivity|].
  all: split; [rewrite ?length_app, length_replicate; simpl; lia|].
  all: right; exists duel; do 3 (split; [done|]).
  all: apply Forall_forall; intros c Hc.
  all: try apply elem_of_app in Hc as [Hc|Hc].
  all: try (apply elem_of_replicate in Hc as [-> _]; by left).
  all: apply list_elem_of_singleton in Hc as ->; by right.
Qed.

End Funds.

Section Funds2.
Import Escrow.
Variable hmac : string -> string.
Variable config : Config.t.
Variable backend : Backend.
Variable JSON_parse : string -> option ProofData.

(** A duel that is SETTLED or REFUNDED moves no more funds through the
    ordinary requests: a lock, a settlement and a refund of it are all
    refused, as not found once the store has dropped it and for its
    status before, and none of them calls the transfer client.  There is
    no second payout and no refund after a payout. *)
Theorem terminal_duel_moves_no_funds (id : string) (w : World) (d : DuelSession) :
  stored id w = Some d -> terminal (status d) ->
  (forall wallet proof,
     let out := lockStakeWithProof hmac JSON_parse id wallet proof w in
     (fst out = LockError DuelNotFound \/ fst out = LockError (InvalidStatus (status d))) /\
     transfers (snd out) = transfers w) /\
  (forall winnerWallet summary commit,
     let out := settleDuel hmac config backend id winnerWallet summary commit w in
     (fst out = SettleError DuelNotFound \/
      fst out = SettleError (InvalidStatus (status d))) /\
     transfers (snd out) = transfers w) /\
  (let out := refundDuel backend id w in
   (fst out = RefundError DuelNotFound \/ fst out = RefundError (AlreadyFinal (status d))) /\
   transfers (snd out) = transfers w).
Proof.
  intros Hd Hterm. split; [|split]; cbv zeta.
  - intros wallet proof. unfold lockStakeWithProof.
    destruct (getDuel_cases id w) as [(duel & -> & Hd') | (w1 & -> & _ & Ht & _)];
      [|simpl; split; [by left | done]].
    rewrite Hd in Hd'. injection Hd' as <-. unfold is_status.
    rewrite bool_decide_eq_false_2 by (destruct Hterm as [-> | ->]; done).
    simpl. split; [by right | done].
  - intros winnerWallet summary commit. unfold settleDuel.
    destruct (getDuel_cases id w) as [(duel & -> & Hd') | (w1 & -> & _ & Ht & _)];
      [|simpl; split; [by left | done]].
    rewrite Hd in Hd'. injection Hd' as <-. unfold is_status.
    rewrite !bool_decide_eq_false_2 by (destruct Hterm as [-> | ->]; done).
    simpl. split; [by right | done].
  - unfold refundDuel.
    destruct (getDuel_cases id w) as [(duel & -> & Hd') | (w1 & -> & _ & Ht & _)];
      [|simpl; split; [by left | done]].
    rewrite Hd in Hd'. injection Hd' as <-. unfold is_status.
    destruct Hterm as [Hs | Hs]; rewrite Hs; simpl; split; by auto.
Qed.



(** An emergency refund does not look at the duel before it pays: the
    calls it makes and the answer it gives depend on its arguments and on
    the transfer backend only, not on the store or the session map.  It
    sends the stake less the deposit fee to each wallet that is not
    empty, also for a duel id the store has never seen. *)
Theorem emergency_refund_ignores_the_duel (id wallet1 wallet2 : string)
    (stake : JS.number) (tok : string) (w w' : World) :
  length (transfers w) = length (transfers w') ->
  let out := emergencyRefund backend id wallet1 wallet2 stake tok w in
  let out' := emergencyRefund backend id wallet1 wallet2 stake tok w' in
  let amount := JS.Math_floor (JS.mul stake Payout.depositFeeMultiplier) in
  fst out = fst out' /\
  transfers (snd out) = transfers w ++
    (if truthy_str wallet1 then [call_of wallet1 amount tok] else []) ++
    (if truthy_str wallet2 then [call_of wallet2 amount tok] else []).
Proof.
  intros Hlen. cbv zeta. unfold emergencyRefund, emergencyRefundOne, transferFromEscrow.
  destruct (truthy_str wallet1), (truthy_str wallet2); simpl;
    rewrite ?length_app, ?Hlen; simpl.
  all: split; [done|].
  all: repeat match goal with
         | |- context [if ?b then _ else _] => destruct b; simpl
         | |- context [getDuel ?i ?w0] =>
             let H := fresh in
             destruct (getDuel_frame i w0) as (_ & H & _);
             destruct (getDuel i w0) as [[?|] ?]; simpl in *; rewrite ?H
         end; rewrite <- ?app_assoc, ?app_nil_r; done.
Qed.

End Funds2.

Section HouseFee.
Import Escrow.
Variable hmac : string -> string.
Variable config : Config.t.
Variable backend : Backend.

(** The house fee of a settlement that went through is never dropped
    silently: either the treasury transfer was made and succeeded, the
    dust counters staying as they were, or the fee was added to the dust
    counter of the duel's token, or the fee is not positive. *)
Theorem house_fee_collected_or_kept (id winnerWallet : string)
    (summary : option CombatSummary) (commit : CommitOutcome) (w : World)
    (d : DuelSession) :
  fst (getDuel id w) = Some d ->
  let out := settleDuel hmac config backend id winnerWallet summary commit w in
  let fee := Payout.houseFee (Payout.compute (stakeAmount (player1 d)) (houseFeePercent d)) in
  settled_by (fst out) ->
  (last (transfers (snd out)) = Some (call_of (Config.treasuryWallet config) fee (token d)) /\
   success (outcome backend (length (transfers (snd out)) - 1)) = true /\
   MemoryStore.dust (store (snd out)) = MemoryStore.dust (store w)) \/
  MemoryStore.dust (store (snd out)) =
    <[token d := JS.add (getAccumulatedDust (token d) w) fee]> (MemoryStore.dust (store w)) \/
  (JS.gt fee (JS.Number 0) = false /\
   MemoryStore.dust (store (snd out)) = MemoryStore.dust (store w)).
Proof.
  intros Hget. cbv zeta. unfold settleDuel.
  destruct (getDuel_Some id w d Hget) as [Hw Hstored].
  assert (getDuel id w = (Some d, w)) as ->.
  { destruct (getDuel id w); simpl in *; congruence. }
  destruct (negb _ && negb _); simpl; [done|].
  destruct (negb _ && negb _); simpl; [done|].
  destruct commit; simpl;
    match goal with
    | |- context [payWinner backend ?f ?a ?wl ?x ?tk ?r0 ?e0 ?w0] =>
        pose proof (payWinner_frame backend f a wl x tk r0 e0 w0) as Hf;
        destruct (payWinner backend f a wl x tk r0 e0 w0) as [[r e] w4]
    end; simpl in Hf; destruct Hf as [Hst4 Hm4];
    destruct (success r); simpl; try done.
  all: destruct (JS.ge _ _ && truthy_str _) eqn:Hge; simpl;
    [ destruct (success (outcome backend (length (transfers w4)))) eqn:Htr; simpl
    | destruct (JS.gt _ _) eqn:Hgt; simpl ].
  all: (destruct (JS.BigInt _); [destruct (JS.BigInt _)|]); simpl; intros _;
    rewrite ?Hst4; simpl.
  (* the treasury transfer succeeded *)
  all: try (left; rewrite last_snoc, length_app; simpl;
            replace (length (transfers w4) + 1 - 1)%nat
              with (length (transfers w4)) by lia;
            by repeat split).
  (* the fee went to the dust counter *)
  all: try (right; left; reflexivity).
  (* there was no fee *)
  all: right; right; by split.
Qed.

End HouseFee.

(* ===================================================================== *)
(** ** What the requests write *)
(* ===================================================================== *)

Section Writes.
Import Escrow.
Variable hmac : string -> string.
Variable config : Config.t.
Variable backend : Backend.
Variable JSON_parse : string -> option ProofData.

(** The session a lock request writes. *)
Lemma lock_write (id id' wallet proof : string) (w : World) (d' : DuelSession) :
  stored id (snd (lockStakeWithProof hmac JSON_parse id' wallet proof w)) = Some d' ->
  stored id w = Some d' \/
  (id = id' /\ exists d tx d1, stored id w = Some d /\ status d = PENDING_STAKES /\
     ((stakeLocked (player1 d) = false /\
       d1 = with_updatedAt (with_player1 d (lock_participant (player1 d) tx (clock w)))
              (clock w)) \/
      (stakeLocked (player2 d) = false /\
       stealthId (player2 d) <> stealthId (player1 d) /\
       d1 = with_updatedAt (with_player2 d (lock_participant (player2 d) tx (clock w)))
              (clock w))) /\
     d' = if stakeLocked (player1 d1) && stakeLocked (player2 d1)
          then with_status d1 ACTIVE else d1).
Proof.
  unfold lockStakeWithProof.
  destruct (getDuel_cases id' w) as [(duel & -> & Hd) | (w1 & -> & _ & _ & _ & Hs)].
  2:{ simpl. rewrite Hs. case_decide; [done | by left]. }
  unfold is_status.
  case_bool_decide as Hst; simpl; [|by left].
  destruct (expiresAt duel <? clock w); [by left|].
  destruct (Stealth.verifyStealthId hmac wallet (stealthId (player1 duel))) eqn:E1;
  destruct (Stealth.verifyStealthId hmac wallet (stealthId (player2 duel))) eqn:E2;
    simpl; try (by left).
  all: match goal with
       | |- context [if stakeLocked ?p then _ else _] => destruct (stakeLocked p) eqn:EL
       end; simpl; [by left|].
  all: unfold stored at 1; simpl; rewrite stored_insert; case_decide as Hid; [|by left].
  all: subst id'; intros [= <-]; right; split; [done|].
  all: exists duel, (proofTxSignature JSON_parse proof).
  1,2: exists (with_updatedAt (with_player1 duel
                 (lock_participant (player1 duel) (proofTxSignature JSON_parse proof)
                    (clock w))) (clock w)).
  3: exists (with_updatedAt (with_player2 duel
                 (lock_participant (player2 duel) (proofTxSignature JSON_parse proof)
                    (clock w))) (clock w)).
  all: split; [done|]; split; [done|]; split; [|done].
  1,2: by left.
  right. split; [done|]. split; [|done].
  intros Heq. rewrite Heq in E2. congruence.
Qed.

(** The session a create request writes. *)
Lemma create_write (id newId : string) (params : CreateDuelParams) (w : World)
    (d' : DuelSession) :
  stored id (snd (createDuel hmac config newId params w)) = Some d' ->
  stored id w = Some d' \/
  (id = newId /\ exists stake,
     d' = {| duelId := newId; status := PENDING_STAKES;
             player1 := {| stealthId := Stealth.generateStealthId hmac (player1Wallet params);
                           characterId := player1CharacterId params;
                           characterName := player1Name params;
                           stakeAmount := stake; stakeLocked := false;
                           lockTxSignature := None; lockTimestamp := None |};
             player2 := {| stealthId := Stealth.generateStealthId hmac (player2Wallet params);
                           characterId := player2CharacterId params;
                           characterName := player2Name params;
                           stakeAmount := stake; stakeLocked := false;
                           lockTxSignature := None; lockTimestamp := None |};
             token := default "SOL"%string (param_token params);
             houseFeePercent := Config.HOUSE_FEE_PERCENT config;
             rules := merge_rules (param_rules params);
             createdAt := clock w; updatedAt := clock w;
             expiresAt := clock w + Config.escrowTimeoutMs config;
             winnerStealthId := None; settlementTxSignatures := None;
             combatSummary := None |}).
Proof.
  unfold createDuel.
  destruct (JS.lt _ _); simpl; [by left|].
  destruct (JS.BigInt _) as [stake|]; simpl; [|by left].
  unfold stored at 1; simpl; rewrite stored_insert. case_decide; [|by left].
  intros [= <-]. right. split; [done|]. by exists stake.
Qed.

(** The session a settle request writes. *)
Lemma settle_write (id id' wallet : string) (summary : option CombatSummary)
    (commit : CommitOutcome) (w : World) (d' : DuelSession) :
  let w' := snd (settleDuel hmac config backend id' wallet summary commit w) in
  stored id w' = Some d' ->
  stored id w = Some d' \/
  (id = id' /\ exists d, stored id w = Some d /\
     (status d = ACTIVE \/ status d = PENDING_SETTLEMENT) /\
     (Stealth.generateStealthId hmac wallet = stealthId (player1 d) \/
      Stealth.generateStealthId hmac wallet = stealthId (player2 d)) /\
     let d1 := with_updatedAt
                 (with_winnerStealthId (with_status d PENDING_SETTLEMENT)
                    (Stealth.generateStealthId hmac wallet)) (clock w) in
     (d' = with_updatedAt (with_status d1 ACTIVE) (clock w') \/
      exists tx rest, (length rest <= 1)%nat /\
        d' = with_updatedAt (with_settlement (with_status d1 SETTLED) (tx :: rest) summary)
               (clock w'))).
Proof.
  cbv zeta. unfold settleDuel.
  destruct (getDuel_cases id' w) as [(duel & -> & Hd) | (w1 & -> & _ & _ & _ & Hs)].
  2:{ simpl. rewrite Hs. case_decide; [done | by left]. }
  unfold is_status.
  destruct (negb (bool_decide (status duel = ACTIVE))
            && negb (bool_decide (status duel = PENDING_SETTLEMENT))) eqn:Est;
    simpl; [by left|].
  assert (status duel = ACTIVE \/ status duel = PENDING_SETTLEMENT) as Hst.
  { destruct (status duel); simpl in Est; try done; auto. }
  clear Est.
  destruct (negb (Stealth.verifyStealthId hmac wallet (stealthId (player1 duel)))
            && negb (Stealth.verifyStealthId hmac wallet (stealthId (player2 duel))))
    eqn:Ever; simpl; [by left|].
  assert (Stealth.generateStealthId hmac wallet = stealthId (player1 duel) \/
          Stealth.generateStealthId hmac wallet = stealthId (player2 duel)) as Hv.
  { destruct (Stealth.verifyStealthId hmac wallet (stealthId (player1 duel))) eqn:E1.
    - left. by apply verifyStealthId_spec.
    - destruct (Stealth.verifyStealthId hmac wallet (stealthId (player2 duel))) eqn:E2;
        [|done]. right. by apply verifyStealthId_spec. }
  clear Ever.
  destruct commit; simpl;
    match goal with
    | |- context [payWinner backend ?f ?a ?wl ?x ?tk ?r0 ?e0 ?w0] =>
        pose proof (payWinner_frame backend f a wl x tk r0 e0 w0) as Hf;
        destruct (payWinner backend f a wl x tk r0 e0 w0) as [[r e] w4]
    end; simpl in Hf; destruct Hf as [Hst4 Hm4];
    destruct (success r); simpl.
  all: try (destruct (JS.ge _ _ && truthy_str _); simpl;
            [ destruct (success (outcome backend (length (transfers w4)))); simpl
            | destruct (JS.gt _ _); simpl ]).
  all: try (destruct (JS.BigInt _); [destruct (JS.BigInt _)|]); simpl.
  all: unfold stored at 1; simpl; rewrite ?Hst4; simpl; rewrite stored_insert;
    (case_decide as Hid;
     [ subst id'; intros [= <-]; right; split; [done|]; exists duel;
       do 3 (split; [done|])
     | rewrite ?Hst4; simpl; rewrite ?stored_insert, ?decide_False by done; by left ]).
  all: first [ by left
             | right; eexists _, _; split; [|reflexivity];
               try match goal with |- context [if ?b then _ else _] => destruct b end;
               simpl; lia ].
Qed.

(** The session a refund request writes. *)
Lemma refund_write (id id' : string) (w : World) (d' : DuelSession) :
  let w' := snd (refundDuel backend id' w) in
  stored id w' = Some d' ->
  stored id w = Some d' \/
  (id = id' /\ exists d txs, stored id w = Some d /\
     status d <> SETTLED /\ status d <> REFUNDED /\
     d' = with_updatedAt (with_refundTxs (with_status d REFUNDED) txs) (clock w')).
Proof.
  cbv zeta. unfold refundDuel.
  destruct (getDuel_cases id' w) as [(duel & -> & Hd) | (w1 & -> & _ & _ & _ & Hs)].
  2:{ simpl. rewrite Hs. case_decide; [done | by left]. }
  unfold is_status.
  destruct (bool_decide (status duel = SETTLED) || bool_decide (status duel = REFUNDED))
    eqn:Est; simpl; [by left|].
  apply orb_false_elim in Est as [E1%bool_decide_eq_false E2%bool_decide_eq_false].
  pose proof (refundParticipant_frame backend (player1 duel) (token duel) [] w) as [Hf1 _].
  destruct (refundParticipant backend (player1 duel) (token duel) [] w) as [txs1 w2].
  pose proof (refundParticipant_frame backend (player2 duel) (token duel) txs1 w2) as [Hf2 _].
  destruct (refundParticipant backend (player2 duel) (token duel) txs1 w2) as [txs2 w3].
  simpl in *. unfold stored at 1; simpl. rewrite Hf2, Hf1, stored_insert.
  case_decide as Hid; [|by left].
  subst id'. intros [= <-]. right. split; [done|]. by exists duel, (map Some txs2).
Qed.

(** The session an emergency refund writes. *)
Lemma emergency_write (id id' wallet1 wallet2 : string) (stake : JS.number)
    (tok : string) (w : World) (d' : DuelSession) :
  let w' := snd (emergencyRefund backend id' wallet1 wallet2 stake tok w) in
  stored id w' = Some d' ->
  stored id w = Some d' \/
  (id = id' /\ exists d, stored id w = Some d /\
     d' = with_updatedAt (with_status d REFUNDED) (clock w')).
Proof.
  cbv zeta. unfold emergencyRefund.
  match goal with |- context [emergencyRefundOne backend ?l ?wl ?x ?tk ?acc ?w0] =>
    pose proof (emergencyRefundOne_frame backend l wl x tk acc w0) as [Hf1 _];
    destruct (emergencyRefundOne backend l wl x tk acc w0) as [refunds1 w1] end.
  match goal with |- context [emergencyRefundOne backend ?l ?wl ?x ?tk ?acc ?w0] =>
    pose proof (emergencyRefundOne_frame backend l wl x tk acc w0) as [Hf2 _];
    destruct (emergencyRefundOne backend l wl x tk acc w0) as [refunds2 w2] end.
  simpl in Hf1, Hf2.
  destruct (forallb r_success refunds2) eqn:Hall; simpl.
  2:{ unfold stored. rewrite Hf2, Hf1. by left. }
  match goal with |- context [getDuel id' ?w3] =>
    destruct (getDuel_cases id' w3) as [(duel & -> & Hd) | (w4 & -> & _ & _ & _ & Hs)] end.
  - unfold stored in *; simpl in *. rewrite Hf2, Hf1 in *. rewrite stored_insert.
    case_decide as Hid; [|by left].
    subst id'. intros [= <-]. right. split; [done|]. by exists duel.
  - rewrite Hs. case_decide; [done|].
    unfold stored; simpl. rewrite Hf2, Hf1. by left.
Qed.

(** The clock never goes back. *)
Lemma handle_clock (r : Request) (w : World) :
  clock w <= clock (handle hmac config backend JSON_parse r w).
Proof.
  destruct r; simpl.
  - unfold createDuel. destruct (JS.lt _ _); simpl; [lia|].
    destruct (JS.BigInt _); simpl; lia.
  - unfold lockStakeWithProof.
    destruct (getDuel_frame id w) as (_ & _ & Hc & _).
    destruct (getDuel id w) as [[duel|] w1]; simpl in *; [|lia].
    repeat match goal with
           | |- context [if ?b then _ else _] => destruct b; simpl
           end; lia.
  - unfold settleDuel.
    destruct (getDuel_frame id w) as (_ & _ & Hc & _).
    destruct (getDuel id w) as [[duel|] w1]; simpl in *; [|lia].
    destruct (negb _ && negb _); simpl; [lia|].
    destruct (negb _ && negb _); simpl; [lia|].
    destruct commit; simpl;
      match goal with
      | |- context [payWinner backend ?f ?a ?wl ?x ?tk ?r0 ?e0 ?w0] =>
          destruct (payWinner_transfers backend f a wl x tk r0 e0 w0) as (k & _ & _ & Hck);
          destruct (payWinner backend f a wl x tk r0 e0 w0) as [[r e] w4]
      end; simpl in Hck; destruct (success r); simpl.
    all: try (destruct (JS.ge _ _ && truthy_str _); simpl;
              [ destruct (success (outcome backend (length (transfers w4)))); simpl
              | destruct (JS.gt _ _); simpl ]).
    all: try (destruct (JS.BigInt _); [destruct (JS.BigInt _)|]); simpl.
    all: lia.
  - unfold refundDuel.
    destruct (getDuel_frame id w) as (_ & _ & Hc & _).
    destruct (getDuel id w) as [[duel|] w1]; simpl in *; [|lia].
    destruct (_ || _); simpl; [lia|].
    unfold refundParticipant, transferFromEscrow.
    repeat match goal with
           | |- context [if ?b then _ else _] => destruct b; simpl
           | |- context [match ?b with Some _ => _ | None => _ end] => destruct b; simpl
           end; lia.
  - unfold emergencyRefund, emergencyRefundOne, transferFromEscrow.
    repeat match goal with
           | |- context [if ?b then _ else _] => destruct b; simpl
           | |- context [getDuel ?i ?w0] =>
               let H := fresh in
               destruct (getDuel_frame i w0) as (_ & _ & H & _);
               destruct (getDuel i w0) as [[?|] ?]; simpl in *
           end; lia.
  - unfold sweepDustToTreasury. destruct (JS.lt _ _); simpl; [lia|].
    destruct (success _); simpl; lia.
  - lia.
  - lia.
Qed.

End Writes.

(* ===================================================================== *)
(** ** Invariants of the stored sessions *)
(* ===================================================================== *)

Section SessionInvariants.
Import Escrow.
Variable hmac : string -> string.
Variable config : Config.t.
Variable backend : Backend.
Variable JSON_parse : string -> option ProofData.

Lemma same_terms_refl (d : DuelSession) : same_terms d d.
Proof. unfold same_terms, same_participant. by repeat split. Qed.

Lemma same_participant_trans (p q r : DuelParticipant) :
  same_participant p q -> same_participant q r -> same_participant p r.
Proof.
  intros (H1 & H2 & H3 & H4 & H5) (G1 & G2 & G3 & G4 & G5).
  unfold same_participant. repeat split; try congruence.
  intros Hl. specialize (H5 Hl). subst q. by apply G5.
Qed.

Lemma same_terms_trans (d e f : DuelSession) :
  same_terms d e -> same_terms e f -> same_terms d f.
Proof.
  intros (H1 & H2 & H3 & H4 & H5 & H6 & H7 & H8) (G1 & G2 & G3 & G4 & G5 & G6 & G7 & G8).
  unfold same_terms. repeat split; try congruence;
    eapply same_participant_trans; eauto.
Qed.

(** One request other than a create under the same id keeps the terms of
    a stored duel. *)
Lemma handle_same_terms (r : Request) (id : string) (w : World) (d' : DuelSession) :
  match r with ReqCreate newId _ => newId <> id | _ => True end ->
  stored id (handle hmac config backend JSON_parse r w) = Some d' ->
  exists d, stored id w = Some d /\ same_terms d d'.
Proof.
  intros Hr Hd'. destruct r; simpl in Hd'.
  - apply create_write in Hd' as [H | [-> _]]; [|done].
    exists d'. split; [done | apply same_terms_refl].
  - apply lock_write in Hd' as [H | (_ & d & tx & d1 & Hd & Hs & Hd1 & ->)].
    { exists d'. split; [done | apply same_terms_refl]. }
    exists d. split; [done|].
    destruct Hd1 as [[Hl ->] | (Hl & Hne & ->)]; simpl.
    all: match goal with |- context [if ?b then _ else _] => destruct b end.
    all: unfold same_terms, same_participant; simpl; repeat split; try done.
    all: by rewrite Hl.
  - apply settle_write in Hd' as [H | (_ & d & Hd & _ & _ & H)].
    { exists d'. split; [done | apply same_terms_refl]. }
    exists d. split; [done|]. cbv zeta in H.
    destruct H as [-> | (tx & rest & _ & ->)];
      unfold same_terms, same_participant; simpl; by repeat split.
  - apply refund_write in Hd' as [H | (_ & d & txs & Hd & _ & _ & ->)].
    { exists d'. split; [done | apply same_terms_refl]. }
    exists d. split; [done|].
    unfold same_terms, same_participant; simpl; by repeat split.
  - apply emergency_write in Hd' as [H | (_ & d & Hd & ->)].
    { exists d'. split; [done | apply same_terms_refl]. }
    exists d. split; [done|].
    unfold same_terms, same_participant; simpl; by repeat split.
  - rewrite sweep_effect in Hd'. exists d'. split; [done | apply same_terms_refl].
  - apply reap_effect in Hd'. exists d'. split; [done | apply same_terms_refl].
  - rewrite tick_effect in Hd'. exists d'. split; [done | apply same_terms_refl].
Qed.

(** The terms of a duel are fixed when it is created: through any
    sequence of requests that does not create a duel under the same id
    again, a duel found in the store was there from the start, with the
    same id, token, fee, rules, creation time and deadline, the same
    participants and stakes, and, for a stake that was locked already, the
    same record of the lock. *)
Theorem duel_terms_never_change (rs : list Request) (id : string) (w : World)
    (d' : DuelSession) :
  never_creates id rs ->
  stored id (run hmac config backend JSON_parse rs w) = Some d' ->
  exists d, stored id w = Some d /\ same_terms d d'.
Proof.
  revert w. induction rs as [|r rs IH]; intros w Hnc Hd'; simpl in Hd'.
  - exists d'. split; [done | apply same_terms_refl].
  - apply Forall_cons in Hnc as [Hr Hrs].
    destruct (IH _ Hrs Hd') as (d1 & Hd1 & Ht1).
    destruct (handle_same_terms r id w d1 Hr Hd1) as (d & Hd & Ht).
    exists d. split; [done|]. by eapply same_terms_trans.
Qed.

Lemma lock_recorded_later (d d' : DuelSession) (p : DuelParticipant) :
  createdAt d' = createdAt d -> updatedAt d <= updatedAt d' ->
  lock_recorded d p -> lock_recorded d' p.
Proof.
  unfold lock_recorded. intros Hc Hu. destruct (stakeLocked p); [|done].
  intros (tx & t & ? & ? & ?). exists tx, t. rewrite Hc. repeat split; try done; lia.
Qed.

Ltac wf_fields :=
  unfold session_wf, bothLocked in *; simpl in *.

(** One request keeps the stored sessions well formed. *)
Lemma handle_wf (r : Request) (w : World) :
  world_wf config w -> world_wf config (handle hmac config backend JSON_parse r w).
Proof.
  intros Hwf id d' Hd'.
  pose proof (handle_clock hmac config backend JSON_parse r w) as Hclock.
  assert (forall d, stored id w = Some d ->
            session_wf config id d /\
            updatedAt d <= clock (handle hmac config backend JSON_parse r w)) as Hold.
  { intros d Hd. destruct (Hwf id d Hd) as [H1 H2]. split; [done | lia]. }
  destruct r; simpl in Hd', Hclock |- *.
  - apply create_write in Hd' as [H | (-> & stake & ->)]; [by apply Hold|].
    split; [|simpl; lia].
    wf_fields. unfold lock_recorded; simpl.
    repeat split; try done; try lia; by intros [?|[?|?]].
  - apply lock_write in Hd' as [H | (<- & d & tx & d1 & Hd & Hs & Hd1 & ->)];
      [by apply Hold|].
    destruct (Hwf id d Hd) as [(W1 & W2 & W3 & W4 & W5 & W6 & W7 & W8 & W9 & W10 & W11 & W12) Hu].
    destruct (W10 Hs) as [Hw Ht].
    destruct Hd1 as [[Hl ->] | (Hl & Hne & ->)]; simpl.
    all: match goal with |- context [if ?b then _ else _] => destruct b eqn:Eb end.
    all: split; [|simpl; lia].
    all: wf_fields; unfold lock_recorded in *; simpl in *.
    all: rewrite ?Hs in *.
    all: repeat split; try done; try lia.
    all: try (by intros [?|[?|?]]).
    all: try (eexists _, _; repeat split; try reflexivity; lia).
    all: try (destruct (stakeLocked (player2 d)); [|done];
              destruct W7 as (tx' & t' & ? & ? & ?); exists tx', t';
              repeat split; try done; lia).
    all: try (destruct (stakeLocked (player1 d)); [|done];
              destruct W6 as (tx' & t' & ? & ? & ?); exists tx', t';
              repeat split; try done; lia).
    all: try (rewrite Hw; done).
    all: try (intros _; by rewrite ?andb_true_r in Eb).
    all: try (intros Heq; exfalso; apply Hne; by rewrite Heq).
    all: intros Heq; specialize (W12 Heq); congruence.
  - apply settle_write in Hd' as [H | (<- & d & Hd & Hs & Hv & H)]; [by apply Hold|].
    destruct (Hwf id d Hd) as [(W1 & W2 & W3 & W4 & W5 & W6 & W7 & W8 & W9 & W10 & W11 & W12) Hu].
    assert (bothLocked d = true) as Hb by (apply W8; destruct Hs; auto).
    cbv zeta in H. destruct H as [-> | (tx & rest & Hlen & ->)].
    all: split; [|simpl; lia].
    all: wf_fields; repeat split; try done; try lia.
    all: try (eapply lock_recorded_later; [| |eassumption]; simpl; [done | lia]).
    all: try (intros sid [= <-]; done).
    all: try (by eexists).
    all: by eexists _, _.
  - apply refund_write in Hd' as [H | (<- & d & txs & Hd & Hs1 & Hs2 & ->)];
      [by apply Hold|].
    destruct (Hwf id d Hd) as [(W1 & W2 & W3 & W4 & W5 & W6 & W7 & W8 & W9 & W10 & W11 & W12) Hu].
    split; [|simpl; lia].
    wf_fields; repeat split; try done; try lia.
    all: try (eapply lock_recorded_later; [| |eassumption]; simpl; [done | lia]).
    by intros [?|[?|?]].
  - apply emergency_write in Hd' as [H | (<- & d & Hd & ->)]; [by apply Hold|].
    destruct (Hwf id d Hd) as [(W1 & W2 & W3 & W4 & W5 & W6 & W7 & W8 & W9 & W10 & W11 & W12) Hu].
    split; [|simpl; lia].
    wf_fields; repeat split; try done; try lia.
    all: try (eapply lock_recorded_later; [| |eassumption]; simpl; [done | lia]).
    by intros [?|[?|?]].
  - rewrite sweep_effect in Hd'. by apply Hold.
  - apply reap_effect in Hd'. by apply Hold.
  - rewrite tick_effect in Hd'. by apply Hold.
Qed.

Lemma run_wf (rs : list Request) (start : Z) :
  world_wf config (run hmac config backend JSON_parse rs (initial start)).
Proof.
  assert (forall w, world_wf config w ->
            world_wf config (run hmac config backend JSON_parse rs w)) as Hrun.
  { induction rs as [|r rs' IH]; intros w H; simpl; [done|].
    apply IH. by apply handle_wf. }
  apply Hrun. intros id' d' Hd'. by unfold stored in Hd'.
Qed.

(** Every session the engine holds, in every world it reaches from its
    start, is well formed: it is stored under its own id; the two stakes
    are equal; the fee is the configured one and the deadline is the
    creation time plus the configured timeout; the update time lies
    between the creation time and the clock; a participant has a lock
    transaction and a lock time exactly when its stake is locked; a duel
    that is ACTIVE, PENDING_SETTLEMENT or SETTLED has both stakes locked;
    a recorded winner is one of the two participants; a duel waiting for
    stakes has no winner and no transactions; a SETTLED duel has a winner
    and one or two settlement transactions. *)
Theorem stored_sessions_well_formed (rs : list Request) (start : Z) (id : string)
    (d : DuelSession) :
  let w := run hmac config backend JSON_parse rs (initial start) in
  stored id w = Some d ->
  session_wf config id d /\ updatedAt d <= clock w.
Proof. cbv zeta. apply run_wf. Qed.

(** A duel whose two participants have the same stealth id never starts:
    a lock by a wallet with that id is always taken for player one, so in
    every world the engine reaches the stake of player two is unlocked
    and the duel is waiting for stakes or refunded. *)
Theorem shared_stealth_id_never_starts (rs : list Request) (start : Z) (id : string)
    (d : DuelSession) :
  let w := run hmac config backend JSON_parse rs (initial start) in
  stored id w = Some d ->
  stealthId (player1 d) = stealthId (player2 d) ->
  stakeLocked (player2 d) = false /\
  (status d = PENDING_STAKES \/ status d = REFUNDED).
Proof.
  cbv zeta. intros Hd Hsame.
  destruct (run_wf rs start id d Hd)
    as [(_ & _ & _ & _ & _ & _ & _ & W8 & _ & _ & _ & W12) _].
  specialize (W12 Hsame). split; [done|].
  destruct (run_invariant hmac config backend JSON_parse rs (initial start)
              (initial_invariant start) id d Hd) as [_ Hf].
  unfold bothLocked in W8. rewrite W12, andb_false_r in W8.
  destruct (status d); auto; try done; exfalso; by (discriminate W8; auto).
Qed.

End SessionInvariants.

(* ===================================================================== *)
(** ** The rate limiter and the key check *)
(* ===================================================================== *)

Section Middleware.
Import Auth.

(** One request inside the window of an entry counts it up. *)
Lemma rateLimit_inside (windowMs max : Z) (ip : option string) (now : Z)
    (m : gmap string RateEntry) (e : RateEntry) :
  m !! rate_key ip = Some e -> now <= resetAt e ->
  rateLimit windowMs max ip now m =
  (if max <? count e + 1 then RateLimited (ceil_seconds (resetAt e - now)) else RateNext,
   <[rate_key ip := {| count := count e + 1; resetAt := resetAt e |}]> m).
Proof.
  intros Hm Hnow. unfold rateLimit. fold (rate_key ip). rewrite Hm.
  rewrite (proj2 (Z.ltb_ge (resetAt e) now)) by lia. simpl.
  by destruct (max <? count e + 1).
Qed.

Lemma rateLimit_all_inside (windowMs max : Z) (ip : option string) (times : list Z) :
  forall (m : gmap string RateEntry) (e : RateEntry),
    m !! rate_key ip = Some e ->
    Forall (fun t => t <= resetAt e) times ->
    let out := rateLimit_all windowMs max ip times m in
    length (fst out) = length times /\
    snd out !! rate_key ip =
      Some {| count := count e + Z.of_nat (length times); resetAt := resetAt e |} /\
    (forall i o, fst out !! i = Some o ->
       (o = RateNext <-> count e + Z.of_nat i < max) /\
       (forall t, times !! i = Some t ->
          o <> RateNext -> o = RateLimited (ceil_seconds (resetAt e - t)))).
Proof.
  induction times as [|now times IH]; intros m e Hm Hall; cbv zeta.
  - simpl. split; [done|]. split; [|done].
    rewrite Hm. destruct e; simpl. f_equal. f_equal. lia.
  - apply Forall_cons in Hall as [Hnow Hall]. simpl.
    rewrite (rateLimit_inside windowMs max ip now m e Hm Hnow).
    set (e1 := {| count := count e + 1; resetAt := resetAt e |}).
    set (m1 := <[rate_key ip := e1]> m).
    assert (m1 !! rate_key ip = Some e1) as Hm1 by apply lookup_insert_eq.
    destruct (IH m1 e1 Hm1 Hall) as (Hlen & Hlast & Houts).
    destruct (rateLimit_all windowMs max ip times m1) as [os m2]. simpl in *.
    split; [by rewrite Hlen|]. split.
    { rewrite Hlast. f_equal. f_equal. lia. }
    intros [|i] o Ho; simpl in Ho.
    + injection Ho as <-. split.
      * destruct (Z.ltb_spec max (count e + 1)); split; try done; lia.
      * intros t [= <-] Hne. by destruct (max <? count e + 1).
    + destruct (Houts i o Ho) as [H1 H2]. split.
      * rewrite H1. lia.
      * intros t Ht. by apply H2.
Qed.

Lemma rateLimit_frame (windowMs max : Z) (ip : option string) (now : Z)
    (m : gmap string RateEntry) (key : string) :
  key <> rate_key ip -> snd (rateLimit windowMs max ip now m) !! key = m !! key.
Proof.
  intros Hne. unfold rateLimit. fold (rate_key ip).
  destruct (max <? _); simpl; by rewrite lookup_insert_ne.
Qed.

Lemma rateLimit_all_frame (windowMs max : Z) (ip : option string) (times : list Z)
    (key : string) :
  key <> rate_key ip ->
  forall m, snd (rateLimit_all windowMs max ip times m) !! key = m !! key.
Proof.
  intros Hne. induction times as [|now times IH]; intros m; simpl; [done|].
  pose proof (rateLimit_frame windowMs max ip now m key Hne) as H1.
  destruct (rateLimit windowMs max ip now m) as [o m1].
  specialize (IH m1). destruct (rateLimit_all windowMs max ip times m1) as [os m2].
  simpl in *. by rewrite IH.
Qed.

Lemma rateLimit_all_fresh (windowMs max : Z) (ip : option string) (t0 : Z)
    (times : list Z) (m : gmap string RateEntry) :
  match m !! rate_key ip with Some e => resetAt e < t0 | None => True end ->
  Forall (fun t => t <= t0 + windowMs) times ->
  let out := rateLimit_all windowMs max ip (t0 :: times) m in
  length (fst out) = S (length times) /\
  snd out !! rate_key ip =
    Some {| count := Z.of_nat (S (length times)); resetAt := t0 + windowMs |} /\
  (forall i o, fst out !! i = Some o ->
     (o = RateNext <-> Z.of_nat i < max) /\
     (forall t, (t0 :: times) !! i = Some t ->
        o <> RateNext -> o = RateLimited (ceil_seconds (t0 + windowMs - t)))).
Proof.
  intros Hfresh Hall. cbv zeta. simpl.
  set (e1 := {| count := 0 + 1; resetAt := t0 + windowMs |}).
  assert (rateLimit windowMs max ip t0 m =
          (if max <? 0 + 1 then RateLimited (ceil_seconds (t0 + windowMs - t0))
           else RateNext, <[rate_key ip := e1]> m)) as ->.
  { unfold rateLimit; fold (rate_key ip).
    destruct (m !! rate_key ip) as [e|];
      [rewrite (proj2 (Z.ltb_lt (resetAt e) t0)) by done|];
      simpl; by destruct (max <? 0 + 1). }
  destruct (rateLimit_all_inside windowMs max ip times
              (<[rate_key ip := e1]> m) e1 (lookup_insert_eq _ _ _) Hall)
    as (Hlen & Hlast & Houts).
  destruct (rateLimit_all windowMs max ip times (<[rate_key ip := e1]> m))
    as [os m2]; simpl in *.
  split; [by rewrite Hlen|]. split.
  { rewrite Hlast. f_equal. f_equal. lia. }
  intros [|i] o Ho; simpl in Ho.
  - injection Ho as <-. split.
    + destruct (Z.ltb_spec max (0 + 1)); split; try done; lia.
    + intros t [= <-] Hne. by destruct (max <? 0 + 1).
  - destruct (Houts i o Ho) as [H1 H2]. split; [rewrite H1; lia | done].
Qed.

(** The rate limiter lets the first [max] requests of a window through
    and no more.  When an address that has no entry, or an entry whose
    window is over, sends requests at [t0] and then at instants up to
    [t0 + windowMs], the request number [i] (from zero) passes exactly
    when [i < max]; every other is answered 429 with the seconds left in
    the window, rounded up.  The entries of the other addresses are not
    touched. *)
Theorem rateLimit_first_max_pass (windowMs max : Z) (ip : option string) (t0 : Z)
    (times : list Z) (m : gmap string RateEntry) :
  match m !! rate_key ip with Some e => resetAt e < t0 | None => True end ->
  Forall (fun t => t <= t0 + windowMs) times ->
  let out := rateLimit_all windowMs max ip (t0 :: times) m in
  length (fst out) = S (length times) /\
  (forall i o, fst out !! i = Some o ->
     (o = RateNext <-> Z.of_nat i < max) /\
     (forall t, (t0 :: times) !! i = Some t ->
        o <> RateNext -> o = RateLimited (ceil_seconds (t0 + windowMs - t)))) /\
  (forall key, key <> rate_key ip -> snd out !! key = m !! key).
Proof.
  intros Hfresh Hall. cbv zeta.
  destruct (rateLimit_all_fresh windowMs max ip t0 times m Hfresh Hall) as (H1 & _ & H3).
  split; [done|]. split; [done|].
  intros key Hne. by apply rateLimit_all_frame.
Qed.

Lemma apiGate_map (key : string) (ip header : option string) (now : Z)
    (m : gmap string RateEntry) :
  snd (apiGate key ip header now m) = snd (rateLimit (60 * 1000) 100 ip now m).
Proof.
  unfold apiGate. destruct (rateLimit (60 * 1000) 100 ip now m) as [[|?] m1]; simpl;
    [by destruct (requireInternalAuth key header) | done].
Qed.

Lemma apiGate_all_map (key : string) (ip : option string)
    (requests : list (Z * option string)) :
  forall m, snd (apiGate_all key ip requests m) =
            snd (rateLimit_all (60 * 1000) 100 ip (fst <$> requests) m).
Proof.
  induction requests as [|[now header] requests IH]; intros m; simpl; [done|].
  pose proof (apiGate_map key ip header now m) as H1.
  destruct (apiGate key ip header now m) as [o m1].
  destruct (rateLimit (60 * 1000) 100 ip now m) as [o' m1']. simpl in H1. subst m1'.
  specialize (IH m1). simpl in IH.
  destruct (apiGate_all key ip requests m1) as [os m2].
  destruct (rateLimit_all _ _ _ _ m1) as [os' m2'].
  done.
Qed.

(** A request passes the two middlewares in front of [/api] exactly when
    the rate limiter lets it through and its header is the configured
    key; and the attempts that fail the key check are counted all the
    same: after a hundred requests of an address within a minute,
    whatever keys they carried, its next request of that minute is
    answered 429 even with the right key. *)
Theorem failed_keys_use_up_the_rate (key : string) (ip first header : option string)
    (t0 last : Z) (rest : list (Z * option string))
    (m : gmap string RateEntry) :
  match m !! rate_key ip with Some e => resetAt e < t0 | None => True end ->
  length rest = 99%nat ->
  Forall (fun r => fst r <= t0 + 60 * 1000) rest ->
  last <= t0 + 60 * 1000 ->
  let m' := snd (apiGate_all key ip ((t0, first) :: rest) m) in
  fst (apiGate key ip header last m') = GateStatus 429 /\
  (forall now m0,
     fst (apiGate key ip header now m0) = GatePass <->
     fst (rateLimit (60 * 1000) 100 ip now m0) = RateNext /\
     header = Some key /\ key <> ""%string).
Proof.
  intros Hfresh Hlen Hall Hlast. cbv zeta. split.
  - rewrite apiGate_all_map. simpl fmap.
    assert (Forall (fun t => t <= t0 + 60 * 1000) (fst <$> rest)) as Hall'.
    { apply Forall_fmap. eapply Forall_impl; [exact Hall|]. done. }
    destruct (rateLimit_all_fresh (60 * 1000) 100 ip t0 (fst <$> rest) m Hfresh Hall')
      as (_ & Hentry & _).
    cbv zeta in Hentry. rewrite length_fmap, Hlen in Hentry.
    unfold apiGate.
    rewrite (rateLimit_inside _ _ _ _ _ _ Hentry) by (simpl; lia).
    reflexivity.
  - intros now m0. unfold apiGate.
    destruct (rateLimit (60 * 1000) 100 ip now m0) as [[|r] m1]; simpl.
    + unfold requireInternalAuth. destruct header as [k|]; [|split; [done | by intros (_ & ? & _)]].
      unfold Escrow.truthy_str.
      destruct (String.eqb_spec k ""); simpl.
      * subst k. split; [done|]. intros (_ & [= <-] & Hne). done.
      * destruct (String.eqb_spec k key); simpl.
        -- subst k. split; [by intros _ | done].
        -- split; [done|]. intros (_ & [= ?] & _). done.
    + split; [done | by intros [? _]].
Qed.

End Middleware.

(* ===================================================================== *)
(** ** Comparisons of numbers *)
(* ===================================================================== *)

Section Comparisons.

Lemma SFcompare_antisym (a b : spec_float) :
  SFcompare b a = CompOpp <$> SFcompare a b.
Proof.
  destruct a as [sa|sa| |sa ma ea], b as [sb|sb| |sb mb eb]; simpl; try done;
    try (by destruct sa); try (by destruct sb); try (by destruct sa, sb).
  destruct sa, sb; simpl; try done.
  - rewrite (Z.compare_antisym ea eb).
    destruct (ea ?= eb) eqn:E; simpl; try done.
    by rewrite (Pos.compare_cont_antisym ma mb Eq).
  - rewrite (Z.compare_antisym ea eb).
    destruct (ea ?= eb) eqn:E; simpl; try done.
    rewrite (Pos.compare_cont_antisym ma mb Eq). simpl.
    by destruct (Pos.compare_cont Eq ma mb).
Qed.

(** Away from NaN, [a >= b] is the negation of [a < b]. *)
Lemma ge_not_lt (a b : JS.number) :
  a <> S754_nan -> b <> S754_nan -> JS.ge a b = negb (JS.lt a b).
Proof.
  intros Ha Hb. unfold JS.ge, JS.lt, SFleb, SFltb.
  rewrite (SFcompare_antisym a b).
  destruct (SFcompare a b) as [[| |]|] eqn:E; simpl; try done.
  destruct a, b; simpl in E; done.
Qed.

Lemma getDust_not_nan (tok : string) (s : MemoryStore.t) :
  MemoryStore.getDust tok s <> S754_nan.
Proof.
  unfold MemoryStore.getDust, JS.or_default.
  destruct (MemoryStore.dust s !! tok) as [v|]; [|done].
  destruct v; simpl; done.
Qed.

End Comparisons.

(* ===================================================================== *)
(** ** Hex encoding *)
(* ===================================================================== *)

Section Hex.
Import ShadowWireDirect.

(** The two digits of a byte. *)
Lemma hex_of_byte (b : Byte.byte) :
  padStart (toString16 b) 2 "0" =
  String (hex_digit (Byte.to_nat b / 16)) (String (hex_digit (Byte.to_nat b mod 16)) "").
Proof. by destruct b. Qed.

Lemma hex_digit_lower (n : nat) : (n < 16)%nat -> Stealth.is_lower_hex (hex_digit n) = true.
Proof. intros H. do 16 (destruct n as [|n]; [done|]). lia. Qed.

Lemma hex_digit_inj (n m : nat) :
  (n < 16)%nat -> (m < 16)%nat -> hex_digit n = hex_digit m -> n = m.
Proof.
  intros Hn Hm.
  do 16 (destruct n as [|n]; [do 16 (destruct m as [|m]; [done|]); lia|]). lia.
Qed.

Lemma concat_cons (x : string) (xs : list string) :
  String.concat "" (x :: xs) = (x +:+ String.concat "" xs)%string.
Proof.
  destruct xs as [|y xs]; simpl; [|done].
  induction x as [|c x IH]; [done|]. rewrite string_app_cons. by rewrite <- IH.
Qed.

Lemma uint8ArrayToHex_cons (b : Byte.byte) (bytes : list Byte.byte) :
  uint8ArrayToHex (b :: bytes) =
  String (hex_digit (Byte.to_nat b / 16))
    (String (hex_digit (Byte.to_nat b mod 16)) (uint8ArrayToHex bytes)).
Proof.
  unfold uint8ArrayToHex. cbn [map]. rewrite concat_cons, hex_of_byte. done.
Qed.

(** The hex encoding writes two characters of [0-9a-f] a byte and loses
    nothing: different byte strings have different encodings.  The
    encoding of thirty-two bytes, and of no other number of bytes, has
    the format of a stealth id. *)
Theorem uint8ArrayToHex_faithful (bytes bytes' : list Byte.byte) :
  String.length (uint8ArrayToHex bytes) = (2 * length bytes)%nat /\
  forallb Stealth.is_lower_hex (list_ascii_of_string (uint8ArrayToHex bytes)) = true /\
  (uint8ArrayToHex bytes = uint8ArrayToHex bytes' -> bytes = bytes') /\
  Stealth.isValidStealthId (uint8ArrayToHex bytes) = (length bytes =? 32)%nat.
Proof.
  assert (forall n, (n / 16 < 16)%nat \/ (256 <= n)%nat) as Hdiv.
  { intros n. destruct (Nat.lt_ge_cases n 256); [left | by right].
    apply Nat.Div0.div_lt_upper_bound. lia. }
  assert (forall b, (Byte.to_nat b / 16 < 16)%nat) as Hhi.
  { intros b. pose proof (Byte.to_nat_bounded b). destruct (Hdiv (Byte.to_nat b)); lia. }
  assert (forall b, (Byte.to_nat b mod 16 < 16)%nat) as Hlo.
  { intros b. apply Nat.mod_upper_bound. lia. }
  assert (String.length (uint8ArrayToHex bytes) = (2 * length bytes)%nat) as Hlen.
  { induction bytes as [|b bytes IH]; [done|].
    rewrite uint8ArrayToHex_cons. cbn [String.length]. rewrite IH. simpl. lia. }
  assert (forallb Stealth.is_lower_hex (list_ascii_of_string (uint8ArrayToHex bytes)) = true)
    as Hall.
  { clear Hlen. induction bytes as [|b bytes IH]; [done|].
    rewrite uint8ArrayToHex_cons. cbn [list_ascii_of_string forallb].
    rewrite (hex_digit_lower _ (Hhi b)), (hex_digit_lower _ (Hlo b)). by rewrite IH. }
  split; [done|]. split; [done|]. split.
  - clear Hlen Hall. revert bytes'.
    induction bytes as [|b bytes IH]; intros [|b' bytes']; try done.
    + by rewrite uint8ArrayToHex_cons.
    + by rewrite uint8ArrayToHex_cons.
    + rewrite !uint8ArrayToHex_cons.
      pose proof (Nat.div_mod_eq (Byte.to_nat b) 16) as Eb.
      pose proof (Nat.div_mod_eq (Byte.to_nat b') 16) as Eb'.
      pose proof (Hhi b) as Hh. pose proof (Hlo b) as Hl.
      pose proof (Hhi b') as Hh'. pose proof (Hlo b') as Hl'.
      revert Eb Eb' Hh Hl Hh' Hl'.
      generalize (Byte.to_nat b / 16)%nat (Byte.to_nat b mod 16)%nat
                 (Byte.to_nat b' / 16)%nat (Byte.to_nat b' mod 16)%nat.
      intros h l h' l' Eb Eb' Hh Hl Hh' Hl' [= H1 H2 H3].
      apply hex_digit_inj in H1; [|done..]. apply hex_digit_inj in H2; [|done..].
      f_equal; [|by apply IH].
      assert (Byte.to_nat b = Byte.to_nat b') as E by lia.
      assert (Some b = Some b') as [= ->]; [|done].
      by rewrite <- !Byte.of_to_nat, E.
  - unfold Stealth.isValidStealthId. rewrite Hlen, Hall, andb_true_r.
    destruct (Nat.eqb_spec (length bytes) 32), (Nat.eqb_spec (2 * length bytes) 64);
      try done; lia.
Qed.

End Hex.

(* ===================================================================== *)
(** ** The audit log of commitments *)
(* ===================================================================== *)

Section AuditLog.
Import Accountability.
Variable sha256 : string -> string.
Variable JSON_stringify : SettlementCommitment -> string.

(** Every commitment is recorded, whether or not it reaches the chain:
    an initialized service answers with success and the hash of the
    commitment it made, and appends exactly one record, which holds that
    commitment and that hash and verifies against it; the records
    already in the log stay as they are.  A service that is not
    initialized throws and records nothing. *)
Theorem commitment_always_recorded (now later : Z) (posted : OnChainResult)
    (duelId winner loser signature : string) (postOnChain : bool) (s : t) :
  let out := commitToSettlement sha256 JSON_stringify now later posted
               duelId winner loser signature postOnChain s in
  let c := createCommitment now duelId winner loser signature in
  (initialized s = false -> out = (None, s)) /\
  (initialized s = true ->
   exists result record,
     out = (Some result, {| initialized := true; auditLog := auditLog s ++ [record] |}) /\
     cm_success result = true /\
     cm_commitmentHash result = Some (hashCommitment sha256 JSON_stringify c) /\
     commitment record = c /\
     commitmentHash record = hashCommitment sha256 JSON_stringify c /\
     verifyCommitment sha256 JSON_stringify (commitment record) (commitmentHash record) = true /\
     onChainSuccess record = (postOnChain && oc_success posted) /\
     cm_onChainTxSignature result = onChainTxSignature record /\
     totalCommitments (getStats (snd out)) = S (totalCommitments (getStats s))).
Proof.
  cbv zeta. unfold commitToSettlement. split.
  - by intros ->.
  - intros ->. simpl. eexists _, _. split; [reflexivity|]. simpl.
    repeat split; try done.
    + unfold verifyCommitment. apply String.eqb_refl.
    + by destruct postOnChain.
    + rewrite length_app. simpl. lia.
Qed.

(** The record returned for a duel is the oldest one: once the log holds
    a record of a duel, later commitments for that duel (a settlement
    tried again, say, and for another winner) do not change what
    [getCommitmentRecord] returns for it; a duel without a record gets
    the one just made; and the record returned for another duel is not
    affected. *)
Theorem first_commitment_is_returned (now later : Z) (posted : OnChainResult)
    (duelId winner loser signature other : string) (postOnChain : bool) (s : t) :
  initialized s = true ->
  let s' := snd (commitToSettlement sha256 JSON_stringify now later posted
                   duelId winner loser signature postOnChain s) in
  (forall r, getCommitmentRecord duelId s = Some r -> getCommitmentRecord duelId s' = Some r) /\
  (getCommitmentRecord duelId s = None ->
   exists r, getCommitmentRecord duelId s' = Some r /\
     commitment r = createCommitment now duelId winner loser signature) /\
  (other <> duelId -> getCommitmentRecord other s' = getCommitmentRecord other s).
Proof.
  intros Hinit. cbv zeta. unfold commitToSettlement. rewrite Hinit. simpl.
  unfold getCommitmentRecord. simpl.
  assert (forall (f : CommitmentRecord -> bool) (l : list CommitmentRecord) x,
            find f (l ++ [x]) =
            match find f l with Some r => Some r | None => if f x then Some x else None end)
    as Hfind.
  { intros f l x. induction l as [|y l IH]; simpl; [done|]. by destruct (f y). }
  rewrite !Hfind. simpl. split; [|split].
  - by intros r ->.
  - intros ->. rewrite String.eqb_refl. by eexists.
  - intros Hne. destruct (find _ _); [done|].
    by rewrite (proj2 (String.eqb_neq duelId other)) by done.
Qed.

End AuditLog.

Section AuditLogWitness.
Import Accountability.

Lemma first_commitment_is_returned_witness :
  let s0 := {| initialized := true; auditLog := [] |} in
  let s1 := snd (commitToSettlement id (fun c => c_winnerStealthId c) 10 11
                   {| oc_success := false; oc_txSignature := None; oc_error := None |}
                   Scenario.duelA "alice" "bob" "sig" true s0) in
  let s2 := snd (commitToSettlement id (fun c => c_winnerStealthId c) 20 21
                   {| oc_success := true; oc_txSignature := Some "memo"%string;
                      oc_error := None |}
                   Scenario.duelA "bob" "alice" "sig" true s1) in
  getCommitmentRecord Scenario.duelA s2 =
  Some {| commitment := createCommitment 10 Scenario.duelA "alice" "bob" "sig";
          commitmentHash := "alice"; onChainTxSignature := None;
          onChainSuccess := false; recordedAt := 11 |}.
Proof.
  cbv zeta.
  apply (first_commitment_is_returned id (fun c => c_winnerStealthId c) 20 21
           {| oc_success := true; oc_txSignature := Some "memo"%string; oc_error := None |}
           Scenario.duelA "bob" "alice" "sig" Scenario.duelB true); reflexivity.
Defined.

End AuditLogWitness.

(* ===================================================================== *)
(** ** The routes *)
(* ===================================================================== *)

Section RouteFacts.
Import Escrow Routes.
Variable hmac : string -> string.
Variable config : Config.t.
Variable backend : Backend.
Variable JSON_parse : string -> option ProofData.

(** The dust status and the dust sweep agree: for every token and in
    every state, the status route says the dust can be swept exactly when
    the sweep route goes as far as the treasury transfer; when it says
    no, the sweep answers 400 with the under-minimum error and changes
    nothing.  The sweep answers 200 exactly when that transfer
    succeeds, and the counter is zero afterwards. *)
Theorem dust_status_agrees_with_sweep (tokenAsked : option string) (w : World) :
  let '(tok, dustAmount, canSweep) := dustStatusRoute tokenAsked w in
  let '(code, result, w') := sweepDustRoute config backend tokenAsked w in
  tok = str_or tokenAsked "SOL" /\
  dustAmount = getAccumulatedDust tok w /\
  (canSweep = true <->
   transfers w' = transfers w ++ [call_of (Config.treasuryWallet config) dustAmount tok]) /\
  (canSweep = false <->
   code = 400 /\ s_error result = Some (DustBelowMinimum dustAmount) /\ w' = w) /\
  (code = 200 <->
   canSweep = true /\ success (outcome backend (length (transfers w))) = true) /\
  (code = 200 -> getAccumulatedDust tok w' = JS.Number 0).
Proof.
  unfold dustStatusRoute, sweepDustRoute, sweepDustToTreasury.
  set (tok := str_or tokenAsked "SOL").
  pose proof (getDust_not_nan tok (store w)) as Hnan.
  fold (getAccumulatedDust tok w) in Hnan.
  assert (JS.Number 100000000 <> S754_nan) as Hc by done.
  change (JS.Number SHADOWWIRE_MIN_TRANSFER) with (JS.Number 100000000).
  rewrite (ge_not_lt _ _ Hnan Hc).
  destruct (JS.lt (getAccumulatedDust tok w) (JS.Number 100000000)) eqn:Hlt; simpl.
  - split; [done|]. split; [done|]. split.
    { split; [done|]. intros H. apply (f_equal length) in H.
      rewrite length_app in H. simpl in H. lia. }
    split; [done|]. split; [|done]. split; [done | by intros [? _]].
  - destruct (success (outcome backend (length (transfers w)))) eqn:Hs; simpl.
    + split; [done|]. split; [done|]. split; [done|].
      split; [split; [done | by intros [? _]]|]. split; [done|].
      intros _. unfold getAccumulatedDust, MemoryStore.getDust; simpl.
      by rewrite lookup_insert_eq.
    + split; [done|]. split; [done|]. split; [done|].
      split; [split; [done | by intros (_ & ? & _)]|]. split; [|done].
      split; [done | by intros [_ ?]].
Qed.


End RouteFacts.

Section CreateRoute.
Import Escrow Routes.
Variable hmac : string -> string.
Variable config : Config.t.

(** The create route refuses a duel of a wallet against itself by
    comparing the two addresses as they were sent, while stealth ids are
    computed from the trimmed addresses.  So two addresses that differ
    only in the white space around them pass the check: when the engine
    accepts the stake, the route answers 201 with the same stealth id for
    both players, the duel is stored with that id on both sides, and the
    session map resolves it to the address of player two. *)
Theorem padded_wallet_passes_self_duel_check (newId : string) (data : CreateDuelParams)
    (w : World) (d : DuelSession) :
  player1Wallet data <> player2Wallet data ->
  Stealth.trim (player1Wallet data) = Stealth.trim (player2Wallet data) ->
  fst (createDuel hmac config newId data w) = CreateOk d ->
  let out := createRoute hmac config newId data w in
  let response := snd (fst out) in
  fst (fst out) = 201 /\ cr_success response = true /\
  cr_player1StealthId response = cr_player2StealthId response /\
  cr_player1StealthId response = Some (Stealth.generateStealthId hmac (player1Wallet data)) /\
  stored newId (snd out) = Some d /\
  stealthId (player1 d) = stealthId (player2 d) /\
  Stealth.resolve (stealthId (player1 d)) (sessionMap (snd out)) = Some (player2Wallet data).
Proof.
  intros Hne Htrim Hok. cbv zeta. unfold createRoute.
  rewrite (proj2 (String.eqb_neq _ _) Hne).
  assert (Stealth.generateStealthId hmac (player1Wallet data) =
          Stealth.generateStealthId hmac (player2Wallet data)) as Hsid.
  { unfold Stealth.generateStealthId. by rewrite Htrim. }
  revert Hok. unfold createDuel.
  destruct (JS.lt _ _); simpl; [done|].
  destruct (JS.BigInt _) as [stake|]; simpl; [|done].
  intros [= <-]. simpl. repeat split; try done.
  - by rewrite Hsid.
  - unfold stored; simpl. by rewrite lookup_insert_eq.
  - unfold Stealth.resolve. rewrite Hsid. by rewrite lookup_insert_eq.
Qed.

End CreateRoute.

(* ===================================================================== *)
(** ** Instances on concrete runs *)
(* ===================================================================== *)

Section MoreWitnesses.
Import Escrow Scenario.

(** A duel between a wallet and the same wallet followed by a space. *)
Lemma padded_wallet_passes_self_duel_check_witness :
  let data := params alice (alice +:+ " ") sol_0_11 "SOL" in
  player1Wallet data <> player2Wallet data /\
  Stealth.trim (player1Wallet data) = Stealth.trim (player2Wallet data) /\
  fst (fst (Routes.createRoute keyed cfg duelA data w0)) = 201.
Proof.
  cbv zeta.
  assert (player1Wallet (params alice (alice +:+ " ") sol_0_11 "SOL") <>
          player2Wallet (params alice (alice +:+ " ") sol_0_11 "SOL")) as H1
    by discriminate.
  assert (Stealth.trim (player1Wallet (params alice (alice +:+ " ") sol_0_11 "SOL")) =
          Stealth.trim (player2Wallet (params alice (alice +:+ " ") sol_0_11 "SOL"))) as H2
    by (vm_compute; reflexivity).
  split; [exact H1|]. split; [exact H2|].
  exact (proj1 (padded_wallet_passes_self_duel_check keyed cfg duelA
                  (params alice (alice +:+ " ") sol_0_11 "SOL") w0
                  (duel_at duelA (snd (createDuel keyed cfg duelA
                     (params alice (alice +:+ " ") sol_0_11 "SOL") w0)))
                  H1 H2 ltac:(vm_compute; reflexivity))).
Defined.

(** The lock of the first stake of [duelA]. *)
Lemma duel_terms_never_change_witness :
  never_creates duelA [ReqLock duelA alice "tx_p1"] /\
  exists d, stored duelA w_created = Some d /\
    same_terms d (duel_at duelA w_one_locked).
Proof.
  assert (never_creates duelA [ReqLock duelA alice "tx_p1"]) as H1
    by (repeat constructor).
  split; [exact H1|].
  apply (duel_terms_never_change keyed cfg up notJSON [ReqLock duelA alice "tx_p1"]
           duelA w_created (duel_at duelA w_one_locked) H1).
  vm_compute; reflexivity.
Defined.

(** [duelA] after its settlement. *)
Lemma stored_sessions_well_formed_witness :
  let rs := active_requests sol_0_11 "SOL" ++ [ReqSettle duelA alice None CommitFailed] in
  let w := run keyed cfg up notJSON rs (initial start) in
  stored duelA w = Some (duel_at duelA w) /\
  session_wf cfg duelA (duel_at duelA w) /\ updatedAt (duel_at duelA w) <= clock w.
Proof.
  intros rs w.
  assert (stored duelA w = Some (duel_at duelA w)) as H1 by (vm_compute; reflexivity).
  split; [exact H1|].
  exact (stored_sessions_well_formed keyed cfg up notJSON rs start duelA
           (duel_at duelA w) H1).
Defined.

(** A duel of Alice against her own address followed by a space, after
    two locks. *)
Lemma shared_stealth_id_never_starts_witness :
  let rs := [ReqCreate duelA (params alice (alice +:+ " ") sol_0_11 "SOL");
             ReqLock duelA alice "tx_p1"; ReqLock duelA (alice +:+ " ") "tx_p2"] in
  let d := duel_at duelA (run keyed cfg up notJSON rs (initial start)) in
  stored duelA (run keyed cfg up notJSON rs (initial start)) = Some d /\
  stealthId (player1 d) = stealthId (player2 d) /\
  stakeLocked (player2 d) = false /\
  (status d = PENDING_STAKES \/ status d = REFUNDED).
Proof.
  intros rs d.
  assert (stored duelA (run keyed cfg up notJSON rs (initial start)) = Some d) as H1
    by (vm_compute; reflexivity).
  assert (stealthId (player1 d) = stealthId (player2 d)) as H2
    by (vm_compute; reflexivity).
  split; [exact H1|]. split; [exact H2|].
  exact (shared_stealth_id_never_starts keyed cfg up notJSON rs start duelA d H1 H2).
Defined.

(** A second settlement of [duelA], for the other player. *)
Lemma terminal_duel_moves_no_funds_witness :
  stored duelA w_settled = Some (duel_at duelA w_settled) /\
  terminal (status (duel_at duelA w_settled)) /\
  transfers (snd (settleDuel keyed cfg up duelA bob None CommitFailed w_settled))
    = transfers w_settled.
Proof.
  assert (stored duelA w_settled = Some (duel_at duelA w_settled)) as H1
    by (vm_compute; reflexivity).
  assert (terminal (status (duel_at duelA w_settled))) as H2
    by (left; vm_compute; reflexivity).
  split; [exact H1|]. split; [exact H2|].
  exact (proj2 (proj1 (proj2 (terminal_duel_moves_no_funds keyed cfg up notJSON duelA
                                w_settled (duel_at duelA w_settled) H1 H2))
                  bob None CommitFailed)).
Defined.


(** An emergency refund for an id the store has never seen. *)
Lemma emergency_refund_ignores_the_duel_witness :
  length (transfers w0) = length (transfers w_created) /\
  fst (emergencyRefund up duelB alice bob (JS.Number 110000000) "SOL" w0) =
  fst (emergencyRefund up duelB alice bob (JS.Number 110000000) "SOL" w_created).
Proof.
  assert (length (transfers w0) = length (transfers w_created)) as H1
    by (vm_compute; reflexivity).
  split; [exact H1|].
  exact (proj1 (emergency_refund_ignores_the_duel up duelB alice bob
                  (JS.Number 110000000) "SOL" w0 w_created H1)).
Defined.

(** The settlement of [duelA] at 0.11 SOL a side: the fee of 4378000
    lamports is below the minimum of a transfer and goes to the dust
    counter. *)
Lemma house_fee_collected_or_kept_witness :
  fst (getDuel duelA w_active) = Some (duel_at duelA w_active) /\
  settled_by (fst (settleDuel keyed cfg up duelA alice None CommitFailed w_active)) /\
  getAccumulatedDust "SOL"
    (snd (settleDuel keyed cfg up duelA alice None CommitFailed w_active))
  = JS.Number 4378000.
Proof.
  assert (fst (getDuel duelA w_active) = Some (duel_at duelA w_active)) as H1
    by (vm_compute; reflexivity).
  assert (settled_by (fst (settleDuel keyed cfg up duelA alice None CommitFailed w_active)))
    as H2 by (vm_compute; exact I).
  split; [exact H1|]. split; [exact H2|].
  destruct (house_fee_collected_or_kept keyed cfg up duelA alice None CommitFailed
              w_active (duel_at duelA w_active) H1 H2) as [(_ & _ & _) | [_ | (_ & _)]];
    vm_compute; reflexivity.
Defined.

End MoreWitnesses.

Section MiddlewareWitnesses.
Import Auth.

(** Three requests within a second against a limit of two a minute. *)
Lemma rateLimit_first_max_pass_witness :
  fst (rateLimit_all 60000 2 (Some "10.0.0.1"%string) [1000; 1200; 1400] ∅)
  = [RateNext; RateNext; RateLimited 60].
Proof.
  destruct (rateLimit_first_max_pass 60000 2 (Some "10.0.0.1"%string) 1000 [1200; 1400] ∅)
    as (_ & _ & _); [exact I | repeat constructor; lia | vm_compute; reflexivity].
Defined.

(** A hundred requests with a wrong key, then one with the right key. *)
Lemma failed_keys_use_up_the_rate_witness :
  let wrong := replicate 99 (5, Some "guess"%string) in
  fst (apiGate "0123456789abcdef0123456789abcdef" (Some "10.0.0.1"%string)
         (Some "0123456789abcdef0123456789abcdef"%string) 10
         (snd (apiGate_all "0123456789abcdef0123456789abcdef" (Some "10.0.0.1"%string)
                 ((0, Some "guess"%string) :: wrong) ∅)))
  = GateStatus 429.
Proof.
  intros wrong.
  apply (failed_keys_use_up_the_rate "0123456789abcdef0123456789abcdef"
           (Some "10.0.0.1"%string) (Some "guess"%string)
           (Some "0123456789abcdef0123456789abcdef"%string) 0 10 wrong ∅).
  - exact I.
  - reflexivity.
  - apply Forall_forall. intros r Hr. apply elem_of_replicate in Hr as [-> _]. simpl. lia.
  - lia.
Defined.

End MiddlewareWitnesses.

(* ===================================================================== *)
(** ** The recovery lists *)
(* ===================================================================== *)

Section RecoveryLists.
Import Escrow.
Variable hmac : string -> string.
Variable config : Config.t.
Variable backend : Backend.
Variable JSON_parse : string -> option ProofData.

Lemma failed_getDuel (id id' : string) (w : World) :
  MemoryStore.failedRecovery (store (snd (getDuel id' w))) =
  MemoryStore.failedRecovery (store w).
Proof. by destruct (getDuel_frame id' w) as (_ & _ & _ & _ & _ & ?). Qed.

(** A duel is taken off the list of failed settlements by an emergency
    refund of that duel and by nothing else: every other request leaves a
    listed id on the list.  A settlement tried again with success does
    not clear it. *)
Theorem failed_list_cleared_by_emergency_refund_only (r : Request) (id : string)
    (w : World) :
  id ∈ getFailedDuels w ->
  match r with ReqEmergencyRefund id' _ _ _ _ => id' <> id | _ => True end ->
  id ∈ getFailedDuels (handle hmac config backend JSON_parse r w).
Proof.
  unfold getFailedDuels, MemoryStore.getFailedRecovery. rewrite !elem_of_elements.
  intros Hin Hr. destruct r; simpl.
  - unfold createDuel. destruct (JS.lt _ _); simpl; [done|].
    destruct (JS.BigInt _); simpl; done.
  - unfold lockStakeWithProof.
    pose proof (failed_getDuel id id0 w) as Hf.
    destruct (getDuel id0 w) as [[duel|] w1]; simpl in *; [|by rewrite Hf].
    repeat match goal with
           | |- context [if ?b then _ else _] => destruct b; simpl
           end; by rewrite Hf.
  - unfold settleDuel.
    pose proof (failed_getDuel id id0 w) as Hf.
    destruct (getDuel id0 w) as [[duel|] w1]; simpl in *; [|by rewrite Hf].
    destruct (negb _ && negb _); simpl; [by rewrite Hf|].
    destruct (negb _ && negb _); simpl; [by rewrite Hf|].
    destruct commit; simpl;
      match goal with
      | |- context [payWinner backend ?f ?a ?wl ?x ?tk ?r0 ?e0 ?w0] =>
          pose proof (payWinner_frame backend f a wl x tk r0 e0 w0) as Hp;
          destruct (payWinner backend f a wl x tk r0 e0 w0) as [[r e] w4]
      end; simpl in Hp; destruct Hp as [Hst4 _];
      destruct (success r); simpl.
    all: try (destruct (JS.ge _ _ && truthy_str _); simpl;
              [ destruct (success (outcome backend (length (transfers w4)))); simpl
              | destruct (JS.gt _ _); simpl ]).
    all: try (destruct (JS.BigInt _); [destruct (JS.BigInt _)|]); simpl.
    all: rewrite ?Hst4; simpl; rewrite ?Hf;
      first [done | by apply elem_of_union_r].
  - unfold refundDuel.
    pose proof (failed_getDuel id id0 w) as Hf.
    destruct (getDuel id0 w) as [[duel|] w1]; simpl in *; [|by rewrite Hf].
    destruct (_ || _); simpl; [by rewrite Hf|].
    pose proof (refundParticipant_frame backend (player1 duel) (token duel) [] w1) as [Hf1 _].
    destruct (refundParticipant backend (player1 duel) (token duel) [] w1) as [txs1 w2].
    pose proof (refundParticipant_frame backend (player2 duel) (token duel) txs1 w2)
      as [Hf2 _].
    destruct (refundParticipant backend (player2 duel) (token duel) txs1 w2) as [txs2 w3].
    simpl in *. by rewrite Hf2, Hf1, Hf.
  - unfold emergencyRefund.
    match goal with |- context [emergencyRefundOne backend ?l ?wl ?x ?tk ?acc ?w0] =>
      pose proof (emergencyRefundOne_frame backend l wl x tk acc w0) as [Hf1 _];
      destruct (emergencyRefundOne backend l wl x tk acc w0) as [refunds1 w1] end.
    match goal with |- context [emergencyRefundOne backend ?l ?wl ?x ?tk ?acc ?w0] =>
      pose proof (emergencyRefundOne_frame backend l wl x tk acc w0) as [Hf2 _];
      destruct (emergencyRefundOne backend l wl x tk acc w0) as [refunds2 w2] end.
    simpl in Hf1, Hf2.
    destruct (forallb r_success refunds2); simpl; [|by rewrite Hf2, Hf1].
    match goal with |- context [getDuel id0 ?w3] =>
      pose proof (failed_getDuel id id0 w3) as Hf;
      destruct (getDuel id0 w3) as [[duel|] w4] end; simpl in *.
    all: rewrite Hf, Hf2, Hf1.
    all: apply elem_of_difference; split; [done|].
    all: intros Heq%elem_of_singleton; by apply Hr.
  - unfold sweepDustToTreasury. destruct (JS.lt _ _); simpl; [done|].
    by destruct (success _).
  - done.
  - done.
Qed.

End RecoveryLists.

(* ===================================================================== *)
(** ** What a lock records *)
(* ===================================================================== *)

Section LockRecord.
Import Escrow.
Variable hmac : string -> string.
Variable JSON_parse : string -> option ProofData.



End LockRecord.

Section AdvertisedMinimum.
Import Escrow.
Variable hmac : string -> string.
Variable config : Config.t.

(** The minimum stake the service advertises for a supported token is
    the one the engine applies: a duel at exactly the advertised amount
    is accepted and stored with the minimum of the token in its smallest
    unit as the stake of both players, and a duel the engine rejects for
    its stake is rejected with an error that quotes the advertised
    amount, the world being left as it was. *)
Theorem advertised_minimum_is_accepted (tok newId p1 p2 c1 c2 n1 n2 : string)
    (rules : option PartialRules) (stake : JS.number) (w : World) :
  tok ∈ Config.SUPPORTED_TOKENS ->
  let request stake :=
    {| player1Wallet := p1; player2Wallet := p2;
       player1CharacterId := c1; player2CharacterId := c2;
       player1Name := n1; player2Name := n2;
       stakeAmountSol := stake; param_token := Some tok;
       param_rules := rules |} in
  exists display minimum,
    Config.TOKEN_MINIMUM_DISPLAY tok = Some display /\
    Config.TOKEN_MINIMUMS tok = Some minimum /\
    (exists d,
       fst (createDuel hmac config newId (request display) w) = CreateOk d /\
       stored newId (snd (createDuel hmac config newId (request display) w)) = Some d /\
       stakeAmount (player1 d) = minimum /\ stakeAmount (player2 d) = minimum /\
       token d = tok) /\
    (forall e, fst (createDuel hmac config newId (request stake) w) = CreateError e ->
       e = StakeTooLow display tok /\
       snd (createDuel hmac config newId (request stake) w) = w).
Proof.
  intros Hin. cbv zeta.
  assert (tok = "SOL" \/ tok = "USD1" \/ tok = "RADR")%string as Htok.
  { unfold Config.SUPPORTED_TOKENS in Hin.
    repeat (apply elem_of_cons in Hin as [->|Hin]; [by auto|]).
    by apply elem_of_nil in Hin. }
  destruct Htok as [-> | [-> | ->]].
  - exists (JS.decimal 11 2), 110000000. split; [reflexivity|]. split; [reflexivity|].
    unfold createDuel; cbn.
    assert (JS.lt (JS.Math_floor (JS.mul (JS.decimal 11 2) (JS.pow10 9)))
              (JS.Number 110000000) = false) as -> by (vm_compute; reflexivity).
    assert (JS.BigInt (JS.Math_floor (JS.mul (JS.decimal 11 2) (JS.pow10 9)))
              = Some 110000000) as -> by (vm_compute; reflexivity).
    assert (JS.div (JS.Number 110000000) (JS.pow10 9) = JS.decimal 11 2) as ->
      by (vm_compute; reflexivity).
    cbn. split.
    + eexists. split; [reflexivity|].
      split; [unfold stored; cbn; by rewrite lookup_insert_eq|]. done.
    + intros e. destruct (JS.lt _ _); cbn; [by intros [= <-]|].
      by destruct (JS.BigInt _).
  - exists (JS.decimal 55 1), 5500000. split; [reflexivity|]. split; [reflexivity|].
    unfold createDuel; cbn.
    assert (JS.lt (JS.Math_floor (JS.mul (JS.decimal 55 1) (JS.pow10 6)))
              (JS.Number 5500000) = false) as -> by (vm_compute; reflexivity).
    assert (JS.BigInt (JS.Math_floor (JS.mul (JS.decimal 55 1) (JS.pow10 6)))
              = Some 5500000) as -> by (vm_compute; reflexivity).
    assert (JS.div (JS.Number 5500000) (JS.pow10 6) = JS.decimal 55 1) as ->
      by (vm_compute; reflexivity).
    cbn. split.
    + eexists. split; [reflexivity|].
      split; [unfold stored; cbn; by rewrite lookup_insert_eq|]. done.
    + intros e. destruct (JS.lt _ _); cbn; [by intros [= <-]|].
      by destruct (JS.BigInt _).
  - exists (JS.Number 11000), 11000000000000. split; [reflexivity|]. split; [reflexivity|].
    unfold createDuel; cbn.
    assert (JS.lt (JS.Math_floor (JS.mul (JS.Number 11000) (JS.pow10 9)))
              (JS.Number 11000000000000) = false) as -> by (vm_compute; reflexivity).
    assert (JS.BigInt (JS.Math_floor (JS.mul (JS.Number 11000) (JS.pow10 9)))
              = Some 11000000000000) as -> by (vm_compute; reflexivity).
    assert (JS.div (JS.Number 11000000000000) (JS.pow10 9) = JS.Number 11000) as ->
      by (vm_compute; reflexivity).
    cbn. split.
    + eexists. split; [reflexivity|].
      split; [unfold stored; cbn; by rewrite lookup_insert_eq|]. done.
    + intros e. destruct (JS.lt _ _); cbn; [by intros [= <-]|].
      by destruct (JS.BigInt _).
Qed.

End AdvertisedMinimum.

(* ===================================================================== *)
(** ** Concrete instances of the last three theorems *)
(* ===================================================================== *)

Section LaterWitnesses.
Import Escrow Scenario.

(** [duelA] after a settlement that failed for good, then settled again
    on a backend that is up: the id stays on the list. *)
Lemma failed_list_cleared_by_emergency_refund_only_witness :
  let w := snd (settleDuel keyed cfg down duelA alice None CommitFailed w_active) in
  duelA ∈ getFailedDuels w /\
  duelA ∈ getFailedDuels
    (handle keyed cfg up notJSON (ReqSettle duelA alice None CommitFailed) w).
Proof.
  intros w.
  assert (duelA ∈ getFailedDuels w) as H1
    by (unfold getFailedDuels, MemoryStore.getFailedRecovery;
        apply elem_of_elements, elem_of_by_compute; vm_compute; reflexivity).
  split; [exact H1|].
  exact (failed_list_cleared_by_emergency_refund_only keyed cfg up notJSON
           (ReqSettle duelA alice None CommitFailed) duelA w H1 I).
Defined.


(** The advertised 5.5 USD1. *)
Lemma advertised_minimum_is_accepted_witness :
  "USD1"%string ∈ Config.SUPPORTED_TOKENS /\
  exists display minimum,
    Config.TOKEN_MINIMUM_DISPLAY "USD1" = Some display /\
    Config.TOKEN_MINIMUMS "USD1" = Some minimum /\
    exists d,
      fst (createDuel keyed cfg duelA (params alice bob display "USD1") w0) =
        CreateOk d /\
      stakeAmount (player1 d) = minimum.
Proof.
  assert ("USD1"%string ∈ Config.SUPPORTED_TOKENS) as H1
    by (unfold Config.SUPPORTED_TOKENS; apply elem_of_cons; right;
        apply elem_of_cons; left; reflexivity).
  split; [exact H1|].
  destruct (advertised_minimum_is_accepted keyed cfg "USD1" duelA alice bob
              "char-1" "char-2" "One" "Two" None (JS.Number 1) w0 H1)
    as (display & minimum & Hdis & Hmin & (d & Hd & _ & Hs & _) & _).
  exists display, minimum. split; [exact Hdis|]. split; [exact Hmin|].
  exists d. split; [exact Hd|exact Hs].
Defined.

End LaterWitnesses.
